(** * merge_zsh_histories.go: merging and deduplicating zsh history files

    A shallow embedding of the Go program [merge_zsh_histories.go] and the
    properties of its pipeline: loader and sanitizer, continuation
    normalizer, validator, record parser, deduplicator, sorter and emitter.

    Go strings are immutable byte sequences; they are modelled as lists of
    8-bit characters.  The functions of the Go standard library the program
    calls ([strings], [regexp], [strconv], [fmt], [bufio], [unicode],
    [unicode/utf8], [sort]) are modelled after their code, under the name
    of the package function they stand for. *)

From Stdlib Require Import ZArith Lia Ascii String.
From stdpp Require Import gmap strings list sorting.

Local Open Scope Z_scope.

(** ** Strings and bytes *)

Definition gostring := list ascii.

(** A string literal of the source. *)
Definition str (s : string) : gostring := list_ascii_of_string s.

Definition LF : ascii := ascii_of_nat 10.
Definition CR : ascii := ascii_of_nat 13.
Definition TAB : ascii := ascii_of_nat 9.
Definition FF : ascii := ascii_of_nat 12.
Definition SP : ascii := " "%char.
Definition BSL : ascii := "\"%char.
Definition COLON : ascii := ":"%char.
Definition SEMI : ascii := ";"%char.
Definition HASH : ascii := "#"%char.

(** The numeric value of a byte, and Go's conversion [byte(x)], which keeps
    the low eight bits. *)
Definition b2z (c : ascii) : Z := Z.of_N (N_of_ascii c).
Definition z2b (z : Z) : ascii := ascii_of_N (Z.to_N (z mod 256)).

(** Errors of the program and of the library calls it propagates. *)
Inductive error : Type :=
| ErrOpen (filename : gostring)
| ErrRead (errno : Z)
| ErrTooLong
| ErrSyntax
| ErrRange
| ErrLineFormat
| ErrTimestampFormat
| ErrParsingLine (line : gostring) (cause : error).

Inductive result (A : Type) : Type :=
| Ok (a : A)
| Err (e : error).
Arguments Ok {A} a.
Arguments Err {A} e.

(** Error propagation ([if err != nil { return ..., err }]) is the bind of
    the error monad; it is written [x ← c; k]. *)
#[global] Instance result_ret : MRet result := fun _ a => Ok a.
#[global] Instance result_bind : MBind result := fun _ _ k r =>
  match r with
  | Ok a => k a
  | Err e => Err e
  end.

(** ** Package [unicode/utf8] *)

Definition RuneError : Z := 0xFFFD.
Definition RuneSelf : Z := 0x80.
Definition MaxRune : Z := 0x10FFFF.
Definition surrogateMin : Z := 0xD800.
Definition surrogateMax : Z := 0xDFFF.

Definition tx : Z := 0x80.
Definition t2 : Z := 0xC0.
Definition t3 : Z := 0xE0.
Definition t4 : Z := 0xF0.
Definition maskx : Z := 0x3F.
Definition mask2 : Z := 0x1F.
Definition mask3 : Z := 0x0F.
Definition mask4 : Z := 0x07.
Definition rune1Max : Z := 0x7F.
Definition rune2Max : Z := 0x7FF.
Definition rune3Max : Z := 0xFFFF.
Definition locb : Z := 0x80.
Definition hicb : Z := 0xBF.

(** Information about the first byte of an encoding: the low three bits are
    the size, the high four bits index [acceptRanges]. *)
Definition xx : Z := 0xF1.
Definition as_ : Z := 0xF0.
Definition s1 : Z := 0x02.
Definition s2 : Z := 0x13.
Definition s3 : Z := 0x03.
Definition s4 : Z := 0x23.
Definition s5 : Z := 0x34.
Definition s6 : Z := 0x04.
Definition s7 : Z := 0x44.

(** The table [first] of the package, by ranges of the first byte. *)
Definition first (b : Z) : Z :=
  if b <? 0x80 then as_
  else if b <? 0xC2 then xx
  else if b <? 0xE0 then s1
  else if b =? 0xE0 then s2
  else if b <? 0xED then s3
  else if b =? 0xED then s4
  else if b <? 0xF0 then s3
  else if b =? 0xF0 then s5
  else if b <? 0xF4 then s6
  else if b =? 0xF4 then s7
  else xx.

(** The table [acceptRanges]: the bounds of the second byte. *)
Definition acceptRanges (i : Z) : Z * Z :=
  if i =? 0 then (locb, hicb)
  else if i =? 1 then (0xA0, hicb)
  else if i =? 2 then (locb, 0x9F)
  else if i =? 3 then (0x90, hicb)
  else if i =? 4 then (locb, 0x8F)
  else (0, 0).

(** [s[i]] as a number; the callers check [i < len(s)] first. *)
Definition byte_at (s : gostring) (i : nat) : Z := b2z (nth i s zero).

(** [utf8.DecodeRuneInString]: the first rune of [s] and its width in
    bytes; [(RuneError, 0)] for the empty string and [(RuneError, 1)] for an
    invalid encoding. *)
Definition utf8_DecodeRuneInString (s : gostring) : Z * nat :=
  let n := length s in
  if (n <? 1)%nat then (RuneError, 0%nat)
  else
    let s0 := byte_at s 0 in
    let x := first s0 in
    if x >=? as_ then ((if x =? xx then RuneError else s0), 1%nat)
    else
      let sz := Z.to_nat (Z.land x 7) in
      let accept := acceptRanges (Z.shiftr x 4) in
      if (n <? sz)%nat then (RuneError, 1%nat)
      else
        let b1 := byte_at s 1 in
        if (b1 <? fst accept) || (snd accept <? b1) then (RuneError, 1%nat)
        else if (sz <=? 2)%nat then
          (Z.lor (Z.shiftl (Z.land s0 mask2) 6) (Z.land b1 maskx), 2%nat)
        else
          let b2 := byte_at s 2 in
          if (b2 <? locb) || (hicb <? b2) then (RuneError, 1%nat)
          else if (sz <=? 3)%nat then
            (Z.lor (Z.lor (Z.shiftl (Z.land s0 mask3) 12)
                          (Z.shiftl (Z.land b1 maskx) 6))
                   (Z.land b2 maskx), 3%nat)
          else
            let b3 := byte_at s 3 in
            if (b3 <? locb) || (hicb <? b3) then (RuneError, 1%nat)
            else
              (Z.lor (Z.lor (Z.lor (Z.shiftl (Z.land s0 mask4) 18)
                                   (Z.shiftl (Z.land b1 maskx) 12))
                            (Z.shiftl (Z.land b2 maskx) 6))
                     (Z.land b3 maskx), 4%nat).

Definition UTFMax : Z := 4.

(** [utf8.RuneStart]: is [b] the first byte of an encoding, that is, not a
    continuation byte? *)
Definition utf8_RuneStart (b : Z) : bool := negb (Z.land b 0xC0 =? 0x80).

(** The loop of [utf8.DecodeLastRuneInString] that walks back from [start]
    to a byte that can start a rune, no further than [lim]; it ends with
    [start] below [lim] when it finds none.  At most [UTFMax] rounds. *)
Fixpoint last_rune_start (rounds : nat) (s : gostring) (start lim : Z) : Z :=
  match rounds with
  | O => start
  | S rounds' =>
      if start <? lim then start
      else if utf8_RuneStart (byte_at s (Z.to_nat start)) then start
      else last_rune_start rounds' s (start - 1) lim
  end.

(** [utf8.DecodeLastRuneInString]: the last rune of [s] and its width;
    [(RuneError, 0)] for the empty string and [(RuneError, 1)] when the
    last bytes are no encoding. *)
Definition utf8_DecodeLastRuneInString (s : gostring) : Z * nat :=
  let n := Z.of_nat (length s) in
  if n =? 0 then (RuneError, 0%nat)
  else
    let r := byte_at s (Z.to_nat (n - 1)) in
    if r <? RuneSelf then (r, 1%nat)
    else
      let lim := Z.max 0 (n - UTFMax) in
      let start := Z.max 0 (last_rune_start 4 s (n - 2) lim) in
      let '(r, size) := utf8_DecodeRuneInString (drop (Z.to_nat start) s) in
      if start + Z.of_nat size =? n then (r, size) else (RuneError, 1%nat).

(** The loop of [utf8.ValidString] from the current index on; [s] is the
    rest of the string.  Each round advances by at least one byte, so
    [length s] rounds are enough. *)
Fixpoint valid_loop (rounds : nat) (s : gostring) : bool :=
  match s with
  | [] => true
  | c :: _ =>
      match rounds with
      | O => false
      | S rounds' =>
          let si := b2z c in
          if si <? RuneSelf then valid_loop rounds' (drop 1 s)
          else
            let x := first si in
            if x =? xx then false
            else
              let size := Z.to_nat (Z.land x 7) in
              if (length s <? size)%nat then false
              else
                let accept := acceptRanges (Z.shiftr x 4) in
                let c1 := byte_at s 1 in
                if (c1 <? fst accept) || (snd accept <? c1) then false
                else if (size =? 2)%nat then valid_loop rounds' (drop size s)
                else
                  let c2 := byte_at s 2 in
                  if (c2 <? locb) || (hicb <? c2) then false
                  else if (size =? 3)%nat then valid_loop rounds' (drop size s)
                  else
                    let c3 := byte_at s 3 in
                    if (c3 <? locb) || (hicb <? c3) then false
                    else valid_loop rounds' (drop size s)
      end
  end.

(** [utf8.ValidString]. *)
Definition utf8_ValidString (s : gostring) : bool := valid_loop (length s) s.

(** [utf8.AppendRune] to an empty buffer, which is what
    [strings.Builder.WriteRune] appends: the UTF-8 encoding of [r], or that
    of [RuneError] when [r] is a surrogate or out of range. *)
Definition utf8_EncodeRune (r : Z) : gostring :=
  let i := r mod 2 ^ 32 in
  let three (r : Z) : gostring :=
    [z2b (Z.lor t3 (b2z (z2b (Z.shiftr r 12))));
     z2b (Z.lor tx (Z.land (b2z (z2b (Z.shiftr r 6))) maskx));
     z2b (Z.lor tx (Z.land (b2z (z2b r)) maskx))] in
  if i <=? rune1Max then [z2b r]
  else if i <=? rune2Max then
    [z2b (Z.lor t2 (b2z (z2b (Z.shiftr r 6))));
     z2b (Z.lor tx (Z.land (b2z (z2b r)) maskx))]
  else if (MaxRune <? i) || ((surrogateMin <=? i) && (i <=? surrogateMax)) then
    three RuneError
  else if i <=? rune3Max then three r
  else
    [z2b (Z.lor t4 (b2z (z2b (Z.shiftr r 18))));
     z2b (Z.lor tx (Z.land (b2z (z2b (Z.shiftr r 12))) maskx));
     z2b (Z.lor tx (Z.land (b2z (z2b (Z.shiftr r 6))) maskx));
     z2b (Z.lor tx (Z.land (b2z (z2b r)) maskx))].

(** ** Package [strings] *)

(** [strings.HasPrefix]. *)
Fixpoint strings_HasPrefix (s prefix : gostring) : bool :=
  match prefix, s with
  | [], _ => true
  | _ :: _, [] => false
  | p :: prefix', c :: s' => bool_decide (c = p) && strings_HasPrefix s' prefix'
  end.

(** [strings.HasSuffix]. *)
Definition strings_HasSuffix (s suffix : gostring) : bool :=
  strings_HasPrefix (rev s) (rev suffix).

(** [strings.TrimSuffix]: [s] without the trailing [suffix], or [s] itself
    when it does not end with it. *)
Definition strings_TrimSuffix (s suffix : gostring) : gostring :=
  if strings_HasSuffix s suffix
  then take (length s - length suffix)%nat s
  else s.

(** [strings.Split(s, sep)] for a separator of one byte, which is how the
    program calls it (["\n"] and [":"]): the pieces of [s] between the
    occurrences of [sep]; a string without [sep] is its own single piece. *)
Fixpoint strings_Split (s : gostring) (sep : ascii) : list gostring :=
  match s with
  | [] => [[]]
  | c :: s' =>
      if bool_decide (c = sep) then [] :: strings_Split s' sep
      else match strings_Split s' sep with
           | piece :: pieces => (c :: piece) :: pieces
           | [] => [[c]]
           end
  end.

(** [strings.SplitN(s, sep, 2)] for a separator of one byte: [s] cut at the
    first [sep], or [s] alone when there is none. *)
Fixpoint strings_SplitN2 (s : gostring) (sep : ascii) : list gostring :=
  match s with
  | [] => [[]]
  | c :: s' =>
      if bool_decide (c = sep) then [[]; s']
      else match strings_SplitN2 s' sep with
           | [before; after] => [c :: before; after]
           | _ => [s]
           end
  end.

(** [strings.Index(s, substr)] as the position of the first occurrence. *)
Fixpoint strings_Index (s substr : gostring) : option nat :=
  if strings_HasPrefix s substr then Some 0%nat
  else match s with
       | [] => None
       | _ :: s' => S <$> strings_Index s' substr
       end.

(** The loop of [strings.Replace] for a non-empty [old]: copy up to the next
    occurrence, write [new], continue after the occurrence.  Every round
    with an occurrence consumes at least one byte, so [length s] rounds
    are enough. *)
Fixpoint replace_loop (rounds : nat) (s old new : gostring) : gostring :=
  match rounds with
  | O => s
  | S rounds' =>
      match strings_Index s old with
      | None => s
      | Some j =>
          take j s ++ new ++ replace_loop rounds' (drop (j + length old)%nat s) old new
      end
  end.

(** ** Package [unicode] *)

Definition MaxLatin1 : Z := 0xFF.

(** [unicode.IsSpace]: the white space of Latin-1 by cases, and above it
    the table [White_Space]. *)
Definition unicode_IsSpace (r : Z) : bool :=
  if r mod 2 ^ 32 <=? MaxLatin1 then
    (r =? 0x09) || (r =? 0x0A) || (r =? 0x0B) || (r =? 0x0C) || (r =? 0x0D)
    || (r =? 0x20) || (r =? 0x85) || (r =? 0xA0)
  else
    (r =? 0x1680) || ((0x2000 <=? r) && (r <=? 0x200A))
    || ((0x2028 <=? r) && (r <=? 0x2029)) || (r =? 0x202F) || (r =? 0x205F)
    || (r =? 0x3000).

(** The table [asciiSpace] of the package [strings]. *)
Definition is_ascii_space (c : ascii) : bool :=
  bool_decide (c = TAB) || bool_decide (c = LF) || bool_decide (c = ascii_of_nat 11)
  || bool_decide (c = FF) || bool_decide (c = CR) || bool_decide (c = SP).

(** The first loop of [strings.TrimSpace]: [s] from its first byte that is
    not an ASCII space. *)
Fixpoint trim_left (s : gostring) : gostring :=
  match s with
  | c :: s' => if is_ascii_space c then trim_left s' else s
  | [] => []
  end.

(** [strings.TrimLeftFunc(s, f)]: [s] from its first rune that does not
    satisfy [f], the runes being those a [range] over the string
    delivers. *)
Fixpoint TrimLeftFunc_loop (rounds : nat) (s : gostring) (f : Z -> bool) : gostring :=
  match rounds, s with
  | S rounds', _ :: _ =>
      let '(r, size) := utf8_DecodeRuneInString s in
      if f r then TrimLeftFunc_loop rounds' (drop size s) f else s
  | _, _ => []
  end.

Definition strings_TrimLeftFunc (s : gostring) (f : Z -> bool) : gostring :=
  TrimLeftFunc_loop (length s) s f.

(** The loop of [lastIndexFunc]: the index of the last rune of [s[0:i]]
    that does not satisfy [f], if there is one. *)
Fixpoint lastIndexFunc_loop (rounds : nat) (s : gostring) (f : Z -> bool) (i : nat)
    : option nat :=
  match rounds, i with
  | S rounds', S _ =>
      let '(r, size) := utf8_DecodeLastRuneInString (take i s) in
      let i := (i - size)%nat in
      if f r then lastIndexFunc_loop rounds' s f i else Some i
  | _, _ => None
  end.

(** [strings.TrimRightFunc(s, f)]: [s] up to and with its last rune that
    does not satisfy [f]. *)
Definition strings_TrimRightFunc (s : gostring) (f : Z -> bool) : gostring :=
  match lastIndexFunc_loop (length s) s f (length s) with
  | Some i =>
      if byte_at s i >=? RuneSelf
      then take (i + snd (utf8_DecodeRuneInString (drop i s)))%nat s
      else take (S i) s
  | None => []
  end.

(** [strings.TrimFunc]. *)
Definition strings_TrimFunc (s : gostring) (f : Z -> bool) : gostring :=
  strings_TrimRightFunc (strings_TrimLeftFunc s f) f.

(** [strings.TrimSpace]: the ASCII spaces are cut off on the left, then on
    the right; at the first byte that is not ASCII, on either side, the
    rest is left to [TrimFunc] or [TrimRightFunc] with [unicode.IsSpace],
    which cut off the white space of Unicode as well. *)
Definition strings_TrimSpace (s : gostring) : gostring :=
  match trim_left s with
  | [] => []
  | (c :: _) as s1 =>
      if b2z c >=? RuneSelf then strings_TrimFunc s1 unicode_IsSpace
      else
        match trim_left (rev s1) with
        | [] => []
        | (d :: _) as r1 =>
            if b2z d >=? RuneSelf then strings_TrimRightFunc (rev r1) unicode_IsSpace
            else rev r1
        end
  end.

(** The case of [strings.Replace] for an empty [old]: [new] goes after
    every UTF-8 sequence of [s]. *)
Fixpoint replace_empty_loop (rounds : nat) (s new : gostring) : gostring :=
  match rounds, s with
  | S rounds', _ :: _ =>
      let wid := snd (utf8_DecodeRuneInString s) in
      take wid s ++ new ++ replace_empty_loop rounds' (drop wid s) new
  | _, _ => s
  end.

(** [strings.ReplaceAll(s, old, new)]: every non-overlapping occurrence of
    [old], from the left, replaced by [new]; an empty [old] matches at the
    start of the string and after each UTF-8 sequence. *)
Definition strings_ReplaceAll (s old new : gostring) : gostring :=
  match old with
  | [] => if bool_decide (new = []) then s
          else new ++ replace_empty_loop (length s) s new
  | _ :: _ => replace_loop (length s) s old new
  end.

(** ** Package [regexp]

    The two patterns of the program use literal bytes, the classes [\d] and
    [\s], the repetitions [*], [+] and [{10,}], and the anchor [^].  A
    pattern is a sequence of items; every item matches ASCII bytes only, so
    matching byte by byte agrees with matching rune by rune. *)

Inductive atom : Type :=
| Lit (c : ascii)      (* a literal byte *)
| Digit                (* \d, the class [0-9] *)
| Space.               (* \s, the class [\t\n\f\r ] *)

Inductive item : Type :=
| One (a : atom)                (* a *)
| AtLeast (n : nat) (a : atom). (* a{n,}; a* is a{0,} and a+ is a{1,} *)

Record Regexp : Type := {
  anchored : bool;      (* does the pattern start with ^ ? *)
  items : list item
}.

Definition is_digit (c : ascii) : bool :=
  (48 <=? b2z c) && (b2z c <=? 57).

Definition atom_matches (a : atom) (c : ascii) : bool :=
  match a with
  | Lit l => bool_decide (c = l)
  | Digit => is_digit c
  | Space => bool_decide (c = TAB) || bool_decide (c = LF) || bool_decide (c = FF)
             || bool_decide (c = CR) || bool_decide (c = SP)
  end.

(** [a{n,}] followed by the continuation [k]: at least [n] bytes of class
    [a], then any number more, then the rest of the pattern. *)
Fixpoint rep_match (a : atom) (k : gostring -> bool) (s : gostring) (n : nat) : bool :=
  match n with
  | O =>
      k s || match s with
             | c :: s' => atom_matches a c && rep_match a k s' O
             | [] => false
             end
  | S n' =>
      match s with
      | c :: s' => atom_matches a c && rep_match a k s' n'
      | [] => false
      end
  end.

(** Does a prefix of [s] match the items? *)
Fixpoint match_here (its : list item) : gostring -> bool :=
  match its with
  | [] => fun _ => true
  | One a :: rest => fun s =>
      match s with
      | c :: s' => atom_matches a c && match_here rest s'
      | [] => false
      end
  | AtLeast n a :: rest => fun s => rep_match a (match_here rest) s n
  end.

(** Does the pattern match at some position of [s]? *)
Fixpoint match_anywhere (its : list item) (s : gostring) : bool :=
  match_here its s ||
  match s with
  | _ :: s' => match_anywhere its s'
  | [] => false
  end.

(** The method [MatchString] of a compiled pattern. *)
Definition MatchString (re : Regexp) (s : gostring) : bool :=
  if anchored re then match_here (items re) s else match_anywhere (items re) s.

(** ** Package [strconv] *)

Definition maxUint64 : Z := 2 ^ 64 - 1.

(** [strconv.IntSize], the size of [int]; 64 on the 64-bit targets the
    program is built for. *)
Definition intSize : Z := 64.

(** The loop of [strconv.ParseUint(s, 10, bitSize)] over the bytes of [s],
    with the accumulator [n] a [uint64]. *)
Fixpoint parseUint_loop (maxVal : Z) (n : Z) (s : gostring) : result Z :=
  match s with
  | [] => Ok n
  | c :: s' =>
      if is_digit c then
        let d := b2z c - 48 in
        let cutoff := maxUint64 / 10 + 1 in
        if n >=? cutoff then Err ErrRange
        else
          let n := (n * 10) mod 2 ^ 64 in
          let n1 := (n + d) mod 2 ^ 64 in
          if (n1 <? n) || (n1 >? maxVal) then Err ErrRange
          else parseUint_loop maxVal n1 s'
      else Err ErrSyntax
  end.

Definition strconv_ParseUint (s : gostring) (bitSize : Z) : result Z :=
  match s with
  | [] => Err ErrSyntax
  | _ :: _ =>
      let bitSize := if bitSize =? 0 then intSize else bitSize in
      parseUint_loop (2 ^ bitSize - 1) 0 s
  end.

(** [strconv.ParseInt(s, 10, bitSize)]. *)
Definition strconv_ParseInt (s : gostring) (bitSize : Z) : result Z :=
  match s with
  | [] => Err ErrSyntax
  | c :: s' =>
      let neg := bool_decide (c = "-"%char) in
      let digits := if bool_decide (c = "+"%char) || neg then s' else s in
      un ← strconv_ParseUint digits bitSize;
      let bitSize := if bitSize =? 0 then intSize else bitSize in
      let cutoff := 2 ^ (bitSize - 1) in
      if negb neg && (un >=? cutoff) then Err ErrRange
      else if neg && (un >? cutoff) then Err ErrRange
      else Ok (if neg then - un else un)
  end.

(** [strconv.Atoi(s)], which is [ParseInt(s, 10, 0)] converted to [int]. *)
Definition strconv_Atoi (s : gostring) : result Z := strconv_ParseInt s 0.

(** ** Package [fmt] *)

Definition digit_char (d : Z) : ascii := z2b (48 + d).

(** The digit loop of the integer formatter, filling its buffer from the
    right; twenty rounds cover every 64-bit value. *)
Fixpoint fmt_digits (rounds : nat) (u : Z) (acc : gostring) : gostring :=
  match rounds with
  | O => acc
  | S rounds' =>
      if u <? 10 then digit_char u :: acc
      else fmt_digits rounds' (u / 10) (digit_char (u mod 10) :: acc)
  end.

(** The verb [%d] on a signed integer. *)
Definition fmt_d (v : Z) : gostring :=
  if v <? 0 then "-"%char :: fmt_digits 20 (- v) []
  else fmt_digits 20 v [].

(** A width: padding with spaces on the left. *)
Definition fmt_width (width : nat) (s : gostring) : gostring :=
  replicate (width - length s) SP ++ s.

(** ** Package [bufio] *)

Definition MaxScanTokenSize : nat := 64 * 1024.

(** [dropCR]: a line without its final carriage return, if it has one. *)
Definition dropCR (data : gostring) : gostring :=
  if strings_HasSuffix data [CR] then take (length data - 1)%nat data else data.

(** The tokens a [bufio.Scanner] with the split function [ScanLines]
    delivers for the bytes [data] of a file: its lines without their line
    end, an empty final line dropped.  A line that does not fit the buffer
    of [MaxScanTokenSize] bytes together with its newline stops the scan
    with [ErrTooLong]. *)
Definition scan_lines (data : list ascii) : result (list gostring) :=
  let segments := strings_Split data LF in
  let tokens :=
    if bool_decide (last segments = Some []) then removelast segments else segments in
  if forallb (fun t => (length t <? MaxScanTokenSize)%nat) tokens
  then Ok (dropCR <$> tokens)
  else Err ErrTooLong.

(** ** Package [sort] *)

Section Sort.
Context {A : Type} (less : A -> A -> bool).

(** One step of insertion: [x] goes in front of the first element that is
    not less than it. *)
Fixpoint sort_insert (x : A) (l : list A) : list A :=
  match l with
  | [] => [x]
  | y :: l' => if less y x then y :: sort_insert x l' else x :: y :: l'
  end.

(** [sort.Slice] sorts by the order [less] and is not stable.  The model
    is the insertion sort the library runs on slices of up to twelve
    elements, which keeps equal elements in the order of its input; on
    longer slices the library may order equal elements in another way,
    and every such result is the insertion sort of another order of the
    input.  The outputs of a run range over all orders of the input, see
    [Emits]. *)
Definition sort_Slice (l : list A) : list A := foldr sort_insert [] l.
End Sort.

(** The order [<] of Go strings: bytewise lexicographic. *)
Fixpoint string_less (a b : gostring) : bool :=
  match a, b with
  | _, [] => false
  | [], _ :: _ => true
  | x :: a', y :: b' =>
      (b2z x <? b2z y) || (bool_decide (x = y) && string_less a' b')
  end.

Definition sort_Strings (l : list gostring) : list gostring :=
  sort_Slice string_less l.

(** ** The program *)

(** [HistoryEntry] represents a zsh history command with timestamp and
    duration. *)
Record HistoryEntry : Type := {
  Command : gostring;
  Time : Z;        (* int64 *)
  Duration : Z     (* int *)
}.

#[global] Instance HistoryEntry_eq_dec : EqDecision HistoryEntry.
Proof. solve_decision. Defined.

(** [CommandMap] maps commands to their most recent history entry. *)
Abbreviation CommandMap := (gmap gostring HistoryEntry).

(** [^: \d{10,}:\d+;] *)
Definition validLineRegex : Regexp :=
  {| anchored := true;
     items := [One (Lit COLON); One (Lit SP); AtLeast 10 Digit;
               One (Lit COLON); AtLeast 1 Digit; One (Lit SEMI)] |}.

(** [:\s*\d{10,}] *)
Definition timestampRegex : Regexp :=
  {| anchored := false;
     items := [One (Lit COLON); AtLeast 0 Space; AtLeast 10 Digit] |}.

(** The placeholder of a run started at Unix time [now]:
    [fmt.Sprintf("TO_BE_REMOVED_%d", time.Now().Unix())]. *)
Definition multilineCommand (now : Z) : gostring :=
  str "TO_BE_REMOVED_" ++ fmt_d now.

(** What one round of the loop of [replaceMultilineCommands] writes to the
    builder for [line], the lines after it being [rest]; [i+1 < len(lines)]
    holds when [rest] is not empty. *)
Definition rmc_write (multilineCommand line : gostring) (rest : list gostring) : gostring :=
  match rest with
  | nextLine :: _ =>
      if strings_HasSuffix line [BSL] then
        if negb (MatchString timestampRegex nextLine) then
          strings_TrimSuffix line [BSL] ++ multilineCommand
        else line ++ [LF]
      else line ++ [LF]
  | [] => line
  end.

(** The writes of all rounds, in order. *)
Fixpoint rmc_writes (multilineCommand : gostring) (lines : list gostring) : list gostring :=
  match lines with
  | [] => []
  | line :: rest => rmc_write multilineCommand line rest :: rmc_writes multilineCommand rest
  end.

Definition replaceMultilineCommands (content multilineCommand : gostring) : gostring :=
  concat (rmc_writes multilineCommand (strings_Split content LF)).

(** The loop of [invalidUTF8]; each round consumes at least one byte. *)
Fixpoint invalidUTF8_loop (rounds : nat) (s : gostring) : gostring :=
  match rounds, s with
  | S rounds', _ :: _ =>
      let '(r, size) := utf8_DecodeRuneInString s in
      (if (r =? RuneError) && (size =? 1)%nat then [HASH] else utf8_EncodeRune r)
      ++ invalidUTF8_loop rounds' (drop size s)
  | _, _ => []
  end.

Definition invalidUTF8 (s : gostring) : gostring :=
  if utf8_ValidString s then s else invalidUTF8_loop (length s) s.

(** A file that [os.Open] has opened: the bytes its reads deliver, and how
    the reads end, with the end of the file or with an error of the
    operating system (a directory opens, and its first read fails). *)
Inductive file : Type :=
| Readable (data : list ascii)
| Failing (data : list ascii) (errno : Z).

(** [readFileContent] on the opened file.  The scanner delivers the lines
    of the bytes read, also those read before a failing read; then
    [scanner.Err()] is the error of the scanner, of a line too long, if
    there was one, else the error of the read, if there was one, and the
    content is returned only if there was neither. *)
Definition readFileContent (f : file) : result gostring :=
  match f with
  | Readable data =>
      tokens ← scan_lines data;
      Ok (invalidUTF8 (concat ((fun t => t ++ [LF]) <$> tokens)))
  | Failing data errno =>
      _ ← scan_lines data;
      Err (ErrRead errno)
  end.

Definition parseHistoryLine (line : gostring) : result HistoryEntry :=
  match strings_SplitN2 line SEMI with
  | [description; command] =>
      match strings_Split description COLON with
      | [t0; t1; t2] =>
          if negb (bool_decide (t0 = [])) || bool_decide (t1 = [])
          then Err ErrTimestampFormat
          else
            timestamp ← strconv_ParseInt (strings_TrimSpace t1) 64;
            duration ← strconv_Atoi (strings_TrimSpace t2);
            Ok {| Command := command; Time := timestamp; Duration := duration |}
      | _ => Err ErrTimestampFormat
      end
  | _ => Err ErrLineFormat
  end.

(** The deduplicator: keep the most recent entry for each command. *)
Definition merge_entry (commands : CommandMap) (entry : HistoryEntry) : CommandMap :=
  match commands !! Command entry with
  | Some existing =>
      if Time entry >? Time existing then <[Command entry := entry]> commands
      else commands
  | None => <[Command entry := entry]> commands
  end.

(** The loop of [processHistoryFile] over the logical lines. *)
Fixpoint process_lines (lines : list gostring) (commands : CommandMap) : result CommandMap :=
  match lines with
  | [] => Ok commands
  | line :: rest =>
      if bool_decide (line = []) || negb (MatchString validLineRegex line)
      then process_lines rest commands
      else
        match parseHistoryLine line with
        | Err e => Err (ErrParsingLine line e)
        | Ok entry => process_lines rest (merge_entry commands entry)
        end
  end.

(** [processHistoryFile] from the loaded content on. *)
Definition process_content (content multilineCommand : gostring)
    (commands : CommandMap) : result CommandMap :=
  let content := replaceMultilineCommands content multilineCommand in
  process_lines (strings_Split content LF) commands.

(** The file system the run reads: the file behind each name that can be
    opened. *)
Definition filesystem := gostring -> option file.

Definition processHistoryFile (fs : filesystem) (filename multilineCommand : gostring)
    (commands : CommandMap) : result CommandMap :=
  match fs filename with
  | None => Err (ErrOpen filename)
  | Some file =>
      content ← readFileContent file;
      process_content content multilineCommand commands
  end.

(** The loop of [main] over the sorted file arguments. *)
Fixpoint process_files (fs : filesystem) (files : list gostring)
    (multilineCommand : gostring) (commands : CommandMap) : result CommandMap :=
  match files with
  | [] => Ok commands
  | histFile :: files' =>
      commands' ← processHistoryFile fs histFile multilineCommand commands;
      process_files fs files' multilineCommand commands'
  end.

(** One line of the output: [fmt.Printf(":%11d:%d;%s\n", ...)] after the
    placeholder is turned back into a backslash and a newline. *)
Definition emit_entry (multilineCommand : gostring) (entry : HistoryEntry) : gostring :=
  let command := strings_ReplaceAll (Command entry) multilineCommand [BSL; LF] in
  [COLON] ++ fmt_width 11 (fmt_d (Time entry)) ++ [COLON] ++ fmt_d (Duration entry)
  ++ [SEMI] ++ command ++ [LF].

Definition less_Time (a b : HistoryEntry) : bool := Time a <? Time b.

(** [outputMergedCommands], given the order [ranged] in which the [range]
    over the map delivered its entries. *)
Definition outputMergedCommands (ranged : list HistoryEntry)
    (multilineCommand : gostring) : gostring :=
  let entries := sort_Slice less_Time ranged in
  concat (emit_entry multilineCommand <$> entries).

(** Go leaves the iteration order of a map unspecified and changes it from
    one [range] to the next, so a table has an output for every order of
    its entries. *)
Definition Emits (commands : CommandMap) (multilineCommand out : gostring) : Prop :=
  ∃ ranged : list HistoryEntry,
    ranged ≡ₚ (map_to_list commands).*2 ∧
    out = outputMergedCommands ranged multilineCommand.

(** How a run ends: with the usage message, with a fatal error on a file,
    or with the merged history on standard output. *)
Inductive outcome : Type :=
| Usage
| Fatal (e : error)
| Output (stdout : gostring).

(** The merge table [main] hands to [outputMergedCommands]. *)
Definition main_table (now : Z) (fs : filesystem) (args : list gostring) : result CommandMap :=
  process_files fs (sort_Strings args) (multilineCommand now) ∅.

(** [main], started at Unix time [now] with the file arguments [args];
    [range] is the order in which the final [range] over the map delivers
    the entries. *)
Definition main (now : Z) (fs : filesystem) (args : list gostring)
    (range : CommandMap -> list HistoryEntry) : outcome :=
  match args with
  | [] => Usage
  | _ :: _ =>
      match main_table now fs args with
      | Err e => Fatal e
      | Ok commands => Output (outputMergedCommands (range commands) (multilineCommand now))
      end
  end.

(** An iteration order is admissible when it delivers each entry of the
    map once. *)
Definition range_order (range : CommandMap -> list HistoryEntry) : Prop :=
  ∀ commands, range commands ≡ₚ (map_to_list commands).*2.

(** ** Notions the properties are stated with *)

(** The record the deduplicator holds for the key [k] after [entries]: the
    first one, in the order fed, among those with key [k] and the greatest
    time. *)
Definition first_latest (k : gostring) (entries : list HistoryEntry) (e : HistoryEntry) : Prop :=
  Command e = k ∧
  ∃ before after, entries = before ++ e :: after ∧
    Forall (λ x, Command x = k → Time x < Time e) before ∧
    Forall (λ x, Command x = k → Time x ≤ Time e) after.

Definition le_Time (a b : HistoryEntry) : Prop := Time a ≤ Time b.

(** [strings.Join]: the pieces with [sep] between them. *)
Fixpoint strings_Join (elems : list gostring) (sep : gostring) : gostring :=
  match elems with
  | [] => []
  | e :: rest =>
      match rest with
      | [] => e
      | _ :: _ => e ++ sep ++ strings_Join rest sep
      end
  end.

(** [sub] occurs in [s] as a contiguous part. *)
Definition occurs (sub s : gostring) : Prop := ∃ pre post, s = pre ++ sub ++ post.

(** The two orders of a range over the map that the examples use: the
    order of the underlying trie and its reverse. *)
Definition range_fwd (commands : CommandMap) : list HistoryEntry :=
  (map_to_list commands).*2.
Definition range_bwd (commands : CommandMap) : list HistoryEntry :=
  rev (map_to_list commands).*2.

Definition all_digits (ds : gostring) : Prop := Forall (λ c, is_digit c = true) ds.
Definition all_spaces (ws : gostring) : Prop := Forall (λ c, atom_matches Space c = true) ws.

(** [s] starts with the field marker, any white space and at least ten
    digits: the timestamp pattern at the start of a line. *)
Definition ts_prefix (s : gostring) : Prop :=
  ∃ ws ds rest, s = COLON :: ws ++ ds ++ rest ∧
    all_spaces ws ∧ all_digits ds ∧ (10 ≤ length ds)%nat.

(** The timestamp pattern somewhere in [s]. *)
Definition ts_occurs (s : gostring) : Prop :=
  ∃ pre tail, s = pre ++ tail ∧ ts_prefix tail.

(** The record grammar: [line] is the field marker, one space, the
    timestamp digits [ts] (ten or more), a colon, the duration digits [dur]
    (one or more), a semicolon and the command [cmd]. *)
Definition record_shape (line ts dur cmd : gostring) : Prop :=
  line = COLON :: SP :: ts ++ COLON :: dur ++ SEMI :: cmd ∧
  all_digits ts ∧ (10 ≤ length ts)%nat ∧ all_digits dur ∧ (1 ≤ length dur)%nat.

(** [s] starts like a record: the field marker, a timestamp of at least ten
    digits (after white space, if any) and a colon. *)
Definition record_start (s : gostring) : Prop :=
  ∃ ws ds rest, s = COLON :: ws ++ ds ++ COLON :: rest ∧
    all_spaces ws ∧ all_digits ds ∧ (10 ≤ length ds)%nat.

(** A placeholder and a content with a continuation before a line that
    starts with the field marker and ten digits, but not with a record. *)
Definition tok0 : gostring := multilineCommand 1700000000.
Definition content_marker_digits : gostring :=
  str "echo a \" ++ [LF] ++ str ":1234567890 is the id" ++ [LF].

(** The number a string of decimal digits denotes. *)
Definition decimal_step (n : Z) (c : ascii) : Z := n * 10 + (b2z c - 48).
Definition decimal (ds : gostring) : Z := foldl decimal_step 0 ds.

(** The greatest [int64], which is also the greatest [int]. *)
Definition maxInt64 : Z := 2 ^ 63 - 1.

(** The records of the well-formed lines among [lines], in order, each with
    its command and the numbers its two digit fields denote; the other
    lines contribute nothing. *)
Inductive Reads : list gostring → list HistoryEntry → Prop :=
| Reads_nil : Reads [] []
| Reads_skip line lines entries :
    MatchString validLineRegex line = false →
    Reads lines entries →
    Reads (line :: lines) entries
| Reads_record line ts dur cmd lines entries :
    record_shape line ts dur cmd →
    Reads lines entries →
    Reads (line :: lines)
          ({| Command := cmd; Time := decimal ts; Duration := decimal dur |} :: entries).

(** An entry whose two numbers fit the integer types of the program. *)
Definition fits (e : HistoryEntry) : Prop :=
  Time e ≤ maxInt64 ∧ Duration e ≤ maxInt64.

(** A file system with the single file [name], which is read to its
    end. *)
Definition fs_one (name : gostring) (data : list ascii) : filesystem :=
  λ n, if bool_decide (n = name) then Some (Readable data) else None.

Definition now0 : Z := 1700000000.

(** A history whose second line is well-formed with a duration of twenty
    digits. *)
Definition history_long_duration : list ascii :=
  str ": 1700000000:0;ls" ++ [LF]
  ++ str ": 1700000001:99999999999999999999;make" ++ [LF]
  ++ str "not a record" ++ [LF].

(** A history with one record whose timestamp has eleven digits. *)
Definition history_eleven_digits : list ascii :=
  str ": 12345678901:0;ls" ++ [LF].

(** The two files of the example scenario, and a file system holding them
    under the names [a.bak] and [b.bak]. *)
Definition history_a : list ascii :=
  str ": 1000000000:0;ls -la" ++ [LF] ++ str ": 1000000005:0;echo hi" ++ [LF].
Definition history_b : list ascii :=
  str ": 1000000005:1;echo hi" ++ [LF] ++ str ": 1000000010:0;pwd" ++ [LF].
Definition fs_ab : filesystem :=
  λ n, if bool_decide (n = str "a.bak") then Some (Readable history_a)
       else if bool_decide (n = str "b.bak") then Some (Readable history_b)
       else None.

(** A history with two commands run in the same second. *)
Definition history_same_second : list ascii :=
  str ": 1700000000:0;ls" ++ [LF] ++ str ": 1700000000:0;pwd" ++ [LF].

(** A continuation byte, [80..BF]. *)
Definition cont_byte (b : Z) : Prop := 0x80 ≤ b ≤ 0xBF.

(** The well-formed UTF-8 byte sequences of one character (the Unicode
    Standard, table 3-7): the shortest encodings of the scalar values, the
    surrogates excluded. *)
Definition wf_seq (u : gostring) : Prop :=
  match b2z <$> u with
  | [b0] => b0 ≤ 0x7F
  | [b0; b1] => 0xC2 ≤ b0 ≤ 0xDF ∧ cont_byte b1
  | [b0; b1; b2] =>
      (b0 = 0xE0 ∧ 0xA0 ≤ b1 ≤ 0xBF ∨
       0xE1 ≤ b0 ≤ 0xEC ∧ cont_byte b1 ∨
       b0 = 0xED ∧ 0x80 ≤ b1 ≤ 0x9F ∨
       0xEE ≤ b0 ≤ 0xEF ∧ cont_byte b1) ∧ cont_byte b2
  | [b0; b1; b2; b3] =>
      (b0 = 0xF0 ∧ 0x90 ≤ b1 ≤ 0xBF ∨
       0xF1 ≤ b0 ≤ 0xF3 ∧ cont_byte b1 ∨
       b0 = 0xF4 ∧ 0x80 ≤ b1 ≤ 0x8F) ∧ cont_byte b2 ∧ cont_byte b3
  | _ => False
  end.

(** Valid text: a sequence of well-formed characters. *)
Definition valid_text (s : gostring) : Prop :=
  ∃ us, s = concat us ∧ Forall wf_seq us.

(** [out] is [s] with every byte at which no well-formed character starts
    replaced by the marker, one byte at a time, and every well-formed
    character kept. *)
Inductive Sanitized : gostring → gostring → Prop :=
| Sanitized_nil : Sanitized [] []
| Sanitized_keep u s out :
    wf_seq u → Sanitized s out → Sanitized (u ++ s) (u ++ out)
| Sanitized_mark c s out :
    (∀ u t, c :: s = u ++ t → ¬ wf_seq u) →
    Sanitized s out → Sanitized (c :: s) (HASH :: out).

Definition is_cont (b : Z) : bool := (0x80 <=? b) && (b <=? 0xBF).

(** The bounds of the second byte after the first byte [b0] of a character
    of three or four bytes. *)
Definition second_ok (b0 b1 : Z) : bool :=
  if b0 =? 0xE0 then (0xA0 <=? b1) && (b1 <=? 0xBF)
  else if b0 =? 0xED then (0x80 <=? b1) && (b1 <=? 0x9F)
  else if b0 =? 0xF0 then (0x90 <=? b1) && (b1 <=? 0xBF)
  else if b0 =? 0xF4 then (0x80 <=? b1) && (b1 <=? 0x8F)
  else is_cont b1.

(** The width of the well-formed character at the head of [s], if there is
    one. *)
Definition head_width (s : gostring) : option nat :=
  match b2z <$> s with
  | [] => None
  | b0 :: bs =>
      if b0 <? 0x80 then Some 1%nat
      else if (0xC2 <=? b0) && (b0 <=? 0xDF) then
        match bs with
        | b1 :: _ => if is_cont b1 then Some 2%nat else None
        | _ => None
        end
      else if (0xE0 <=? b0) && (b0 <=? 0xEF) then
        match bs with
        | b1 :: b2 :: _ => if second_ok b0 b1 && is_cont b2 then Some 3%nat else None
        | _ => None
        end
      else if (0xF0 <=? b0) && (b0 <=? 0xF4) then
        match bs with
        | b1 :: b2 :: b3 :: _ =>
            if second_ok b0 b1 && is_cont b2 && is_cont b3 then Some 4%nat else None
        | _ => None
        end
      else None
  end.

(** The scalar value a well-formed character of [k] bytes at the head of
    [s] encodes. *)
Definition rune_value (s : gostring) (k : nat) : Z :=
  match k, b2z <$> s with
  | 1%nat, b0 :: _ => b0
  | 2%nat, b0 :: b1 :: _ => (b0 - 0xC0) * 64 + (b1 - 0x80)
  | 3%nat, b0 :: b1 :: b2 :: _ => (b0 - 0xE0) * 4096 + (b1 - 0x80) * 64 + (b2 - 0x80)
  | 4%nat, b0 :: b1 :: b2 :: b3 :: _ =>
      (b0 - 0xF0) * 262144 + (b1 - 0x80) * 4096 + (b2 - 0x80) * 64 + (b3 - 0x80)
  | _, _ => RuneError
  end.

(** A placeholder whose first byte occurs nowhere else in it: two of its
    occurrences in a text cannot overlap. *)
Definition self_delimiting (tok : gostring) : Prop :=
  match tok with
  | c :: tl => c ∉ tl
  | [] => False
  end.

(** ** Records of a history file *)

(** A record as it stands in a history file: the digits of its timestamp
    and of its duration, and the physical lines of its command, each
    without the backslash that continues it on the next line. *)
Record RawRecord : Type := {
  raw_ts : gostring;
  raw_dur : gostring;
  raw_lines : list gostring
}.

Definition raw_header (r : RawRecord) : gostring :=
  COLON :: SP :: raw_ts r ++ COLON :: raw_dur r ++ [SEMI].

(** The text of the record: its lines are joined by the continuation
    sequence, a backslash and a newline, and a newline ends it. *)
Definition raw_text (r : RawRecord) : gostring :=
  raw_header r ++ strings_Join (raw_lines r) [BSL; LF] ++ [LF].

(** The logical line the normalizer makes of the record, and the entry the
    parser reads from it. *)
Definition raw_logical (tok : gostring) (r : RawRecord) : gostring :=
  raw_header r ++ strings_Join (raw_lines r) tok.

Definition raw_entry (tok : gostring) (r : RawRecord) : HistoryEntry :=
  {| Command := strings_Join (raw_lines r) tok;
     Time := decimal (raw_ts r);
     Duration := decimal (raw_dur r) |}.

(** A history file made of the records [rs]. *)
Definition history (rs : list RawRecord) : list ascii :=
  concat (raw_text <$> rs).

(** The physical lines of a command whose lines are [lines]: all but the
    last end with a backslash. *)
Fixpoint continued (lines : list gostring) : list gostring :=
  match lines with
  | [] => []
  | l :: rest =>
      match rest with
      | [] => [l]
      | _ :: _ => (l ++ [BSL]) :: continued rest
      end
  end.

Definition phys_lines (r : RawRecord) : list gostring :=
  match continued (raw_lines r) with
  | [] => [raw_header r]
  | l :: ls => (raw_header r ++ l) :: ls
  end.

(** The records the round trip is proved for.  The two numbers fit; the
    command has at least one line and its lines hold no newline; no line
    after the first holds the timestamp pattern, so that the normalizer
    joins it to the line before; the last line ends neither with a
    backslash nor with a carriage return; the text is valid UTF-8 and
    shorter than the buffer of the scanner. *)
Record well_behaved (r : RawRecord) : Prop := {
  wb_ts : all_digits (raw_ts r) ∧ (10 ≤ length (raw_ts r))%nat ∧ decimal (raw_ts r) ≤ maxInt64;
  wb_dur : all_digits (raw_dur r) ∧ (1 ≤ length (raw_dur r))%nat ∧ decimal (raw_dur r) ≤ maxInt64;
  wb_lines : raw_lines r ≠ [];
  wb_plain : Forall (λ l, LF ∉ l) (raw_lines r);
  wb_cont : Forall (λ l, ¬ ts_occurs l) (tail (raw_lines r));
  wb_last : ∀ l, last (raw_lines r) = Some l → last l ≠ Some BSL ∧ last l ≠ Some CR;
  wb_text : valid_text (raw_text r);
  wb_short : (length (raw_text r) ≤ MaxScanTokenSize)%nat
}.

(** The placeholder [tok] occurs in no line of the record. *)
Definition token_free (tok : gostring) (r : RawRecord) : Prop :=
  Forall (λ l, ¬ occurs tok l) (raw_lines r).

(** The line the emitter writes for the time [t], the duration [d] and the
    command text [text]. *)
Definition emitted_text (t d : Z) (text : gostring) : gostring :=
  [COLON] ++ fmt_width 11 (fmt_d t) ++ [COLON] ++ fmt_d d ++ [SEMI] ++ text ++ [LF].

(** A record whose second line starts with the timestamp pattern. *)
Definition record_id_line : RawRecord :=
  {| raw_ts := str "1700000000"; raw_dur := str "0";
     raw_lines := [str "echo "; str ":1234567890 is the id"] |}.

(** A record of two lines, and one that was run again later. *)
Definition record_two_lines : RawRecord :=
  {| raw_ts := str "1700000000"; raw_dur := str "3";
     raw_lines := [str "echo one "; str "  two"] |}.
Definition record_plain : RawRecord :=
  {| raw_ts := str "1700000100"; raw_dur := str "0"; raw_lines := [str "pwd"] |}.

(** The record an entry of the merge table is emitted as, when its command
    is [lines] joined by the placeholder. *)
Definition canon_record (e : HistoryEntry) (lines : list gostring) : RawRecord :=
  {| raw_ts := fmt_d (Time e); raw_dur := fmt_d (Duration e); raw_lines := lines |}.

(** The entries of a merge table for which merging the output again is
    proved to change nothing: the timestamp has ten digits, the duration
    fits, and the command joins, by the placeholder [tok1] of the run that
    made the table, lines that form a well-behaved record and hold neither
    [tok1] nor the placeholder [tok2] of the second run. *)
Definition reemittable (tok1 tok2 : gostring) (e : HistoryEntry) (r : RawRecord) : Prop :=
  1000000000 ≤ Time e < 10000000000 ∧
  0 ≤ Duration e ≤ maxInt64 ∧
  r = canon_record e (raw_lines r) ∧
  Command e = strings_Join (raw_lines r) tok1 ∧
  well_behaved r ∧ token_free tok1 r ∧ token_free tok2 r.

(** A history whose first command ends with a backslash that is not a
    continuation, the next line being a record. *)
Definition history_literal_backslash : list ascii :=
  str ": 1700000002:0;echo one \" ++ [LF] ++ str ": 1700000001:0;pwd" ++ [LF].

(** ** The merge table and the file arguments *)

(** An entry as the loop of [processHistoryFile] stores it under the key
    [k]: the key is its command, the two numbers are those of an [int64]
    and an [int] and not negative, and the command holds no newline. *)
Definition stored_ok (k : gostring) (e : HistoryEntry) : Prop :=
  Command e = k ∧ 0 ≤ Time e ≤ maxInt64 ∧ 0 ≤ Duration e ≤ maxInt64 ∧ LF ∉ Command e.

(** What the parser guarantees of an entry it reads from a validated
    line. *)
Definition entry_ok (e : HistoryEntry) : Prop :=
  0 ≤ Time e ≤ maxInt64 ∧ 0 ≤ Duration e ≤ maxInt64.

(** The order [<=] of Go strings. *)
Definition string_le (a b : gostring) : Prop := string_less b a = false.

(** The merge table of the example scenario. *)
Definition table_ab : CommandMap :=
  <[str "ls -la" := {| Command := str "ls -la"; Time := 1000000000; Duration := 0 |}]>
  (<[str "echo hi" := {| Command := str "echo hi"; Time := 1000000005; Duration := 0 |}]>
  (<[str "pwd" := {| Command := str "pwd"; Time := 1000000010; Duration := 0 |}]> ∅)).

(** The records read from the files [names], in this order: each file
    opens and loads, and contributes the records of its well-formed
    logical lines. *)
Inductive FilesRead (fs : filesystem) (tok : gostring) :
    list gostring → list HistoryEntry → Prop :=
| FilesRead_nil : FilesRead fs tok [] []
| FilesRead_cons name names f content entries rest :
    fs name = Some f →
    readFileContent f = Ok content →
    Reads (strings_Split (replaceMultilineCommands content tok) LF) entries →
    FilesRead fs tok names rest →
    FilesRead fs tok (name :: names) (entries ++ rest).

(** The records of the two files of the example scenario. *)
Definition entries_ab : list HistoryEntry :=
  [ {| Command := str "ls -la"; Time := decimal (str "1000000000");
       Duration := decimal (str "0") |};
    {| Command := str "echo hi"; Time := decimal (str "1000000005");
       Duration := decimal (str "0") |};
    {| Command := str "echo hi"; Time := decimal (str "1000000005");
       Duration := decimal (str "1") |};
    {| Command := str "pwd"; Time := decimal (str "1000000010");
       Duration := decimal (str "0") |} ].

(** A file system in which [d] is a directory: it opens, and its first
    read fails with [EISDIR]. *)
Definition fs_dir : filesystem :=
  λ n, if bool_decide (n = str "d") then Some (Failing [] 21) else None.

(** A history without a backslash whose command holds the placeholder of
    the run started at [now0]. *)
Definition history_with_token : list ascii :=
  str ": 1700000000:0;echo TO_BE_REMOVED_1700000000 x" ++ [LF].

(** The white space U+0085, as UTF-8. *)
Definition NEL : gostring := [ascii_of_nat 194; ascii_of_nat 133].

(** * The deduplicator *)

Lemma merge_entry_other commands entry k :
  k ≠ Command entry → merge_entry commands entry !! k = commands !! k.
Proof.
  intros Hk. unfold merge_entry.
  destruct (commands !! Command entry) as [existing|];
    [destruct (Time entry >? Time existing)|]; trivial;
    by rewrite lookup_insert_ne.
Qed.

Lemma merge_entry_same commands entry :
  merge_entry commands entry !! Command entry =
    match commands !! Command entry with
    | Some existing => if Time entry >? Time existing then Some entry else Some existing
    | None => Some entry
    end.
Proof.
  unfold merge_entry.
  destruct (commands !! Command entry) as [existing|] eqn:E;
    [destruct (Time entry >? Time existing)|]; by rewrite ?lookup_insert_eq.
Qed.

Lemma dedup_invariant entries k :
  match foldl merge_entry ∅ entries !! k with
  | Some e => first_latest k entries e
  | None => Forall (λ x, Command x ≠ k) entries
  end.
Proof.
  induction entries as [|new entries IH] using rev_ind.
  - simpl. rewrite lookup_empty. constructor.
  - rewrite foldl_app. simpl.
    destruct (decide (k = Command new)) as [->|Hne].
    + rewrite merge_entry_same.
      destruct (foldl merge_entry ∅ entries !! Command new) as [old|].
      * destruct IH as (Hold & before & after & -> & Hb & Ha).
        destruct (Z.gtb_spec (Time new) (Time old)).
        -- split; [done|]. exists (before ++ old :: after), []. split; [done|].
           split; [|constructor].
           apply Forall_app. split.
           ++ eapply Forall_impl; [exact Hb|]. simpl. intros x Hx Hc. specialize (Hx Hc). lia.
           ++ constructor; [lia|].
              eapply Forall_impl; [exact Ha|]. simpl. intros x Hx Hc. specialize (Hx Hc). lia.
        -- split; [done|]. exists before, (after ++ [new]). split; [by rewrite <- app_assoc|].
           split; [done|]. apply Forall_app. split; [done|]. constructor; [lia|constructor].
      * split; [done|]. exists entries, []. split; [done|]. split; [|constructor].
        eapply Forall_impl; [exact IH|]. simpl. intros x Hx Hc. done.
    + rewrite merge_entry_other by done.
      destruct (foldl merge_entry ∅ entries !! k) as [e|].
      * destruct IH as (He & before & after & -> & Hb & Ha).
        split; [done|]. exists before, (after ++ [new]). split; [by rewrite <- app_assoc|].
        split; [done|]. apply Forall_app. split; [done|]. constructor; [|constructor].
        intros Hc. congruence.
      * apply Forall_app. split; [done|]. constructor; [congruence|constructor].
Qed.

(** C1.  Whatever sequence of parsed records is fed to the deduplicator, the
    table holds for each command text at most one record, which carries
    that command and is the first of the records seen so far with the
    greatest time for it; a record whose command is already in the table
    replaces the stored one when its time is strictly greater and leaves
    the table as it is otherwise, so that on equal times the record met
    first stays, with its own duration. *)
Theorem dedup_keeps_first_latest (entries : list HistoryEntry) (new : HistoryEntry) (k : gostring) :
  let table := foldl merge_entry ∅ entries in
  match table !! k with
  | Some e => first_latest k entries e
  | None => Forall (λ x, Command x ≠ k) entries
  end ∧
  (∀ old, table !! Command new = Some old →
     (Time old < Time new → merge_entry table new = <[Command new := new]> table) ∧
     (Time new ≤ Time old → merge_entry table new = table)) ∧
  (table !! Command new = None → merge_entry table new = <[Command new := new]> table).
Proof.
  intros table. split; [apply dedup_invariant|]. split.
  - intros old Hold. unfold merge_entry. rewrite Hold.
    destruct (Z.gtb_spec (Time new) (Time old)); split; intros; (done || lia).
  - intros Hnone. unfold merge_entry. by rewrite Hnone.
Qed.

(** * The sorter *)

Section SortFacts.
Context {A : Type} (less : A → A → bool).

Lemma sort_insert_perm x l : sort_insert less x l ≡ₚ x :: l.
Proof.
  induction l as [|y l IH]; simpl; [done|].
  destruct (less y x); [|done].
  rewrite IH. apply perm_swap.
Qed.

Lemma sort_Slice_perm l : sort_Slice less l ≡ₚ l.
Proof.
  induction l as [|x l IH]; simpl; [done|].
  by rewrite sort_insert_perm, IH.
Qed.
End SortFacts.

#[local] Instance le_Time_trans : Transitive le_Time.
Proof. unfold le_Time. intros x y z. lia. Qed.

Lemma sort_insert_sorted x l :
  StronglySorted le_Time l → StronglySorted le_Time (sort_insert less_Time x l).
Proof.
  induction 1 as [|y l Hl IH Hy]; simpl.
  - repeat constructor.
  - unfold less_Time at 1. destruct (Z.ltb_spec (Time y) (Time x)).
    + constructor; [done|].
      rewrite sort_insert_perm. constructor; [unfold le_Time; lia|done].
    + constructor; [by constructor|].
      constructor; [done|].
      eapply Forall_impl; [exact Hy|]. unfold le_Time. simpl. intros. lia.
Qed.

Lemma sort_Slice_sorted l : StronglySorted le_Time (sort_Slice less_Time l).
Proof.
  induction l as [|x l IH]; simpl; [constructor|by apply sort_insert_sorted].
Qed.

(** A list that is sorted already comes out as it is: every sorted order of
    the entries is the result for some order of the range over the map. *)
Lemma sort_Slice_id l : StronglySorted le_Time l → sort_Slice less_Time l = l.
Proof.
  induction 1 as [|x l Hl IH Hx]; simpl; [done|].
  rewrite IH. destruct l as [|y l]; [done|]. simpl.
  apply Forall_cons in Hx as [Hxy _]. unfold le_Time in Hxy.
  unfold less_Time. destruct (Z.ltb_spec (Time y) (Time x)); [lia|done].
Qed.

Lemma NoDup_fmap_eq {A B} (f : A → B) (l : list A) x y :
  NoDup (f <$> l) → x ∈ l → y ∈ l → f x = f y → x = y.
Proof.
  induction l as [|z l IH]; simpl; intros Hnd Hx Hy Hf; [by inv Hx|].
  apply NoDup_cons in Hnd as [Hz Hnd].
  inv Hx; inv Hy; trivial.
  - exfalso. apply Hz. rewrite Hf. by apply list_elem_of_fmap_2.
  - exfalso. apply Hz. rewrite <- Hf. by apply list_elem_of_fmap_2.
  - by apply IH.
Qed.

(** With pairwise distinct times the sorted order does not depend on the
    order of the input. *)
Lemma sort_Slice_unique l1 l2 :
  l1 ≡ₚ l2 → NoDup (Time <$> l1) →
  sort_Slice less_Time l1 = sort_Slice less_Time l2.
Proof.
  intros Hp Hnd.
  apply (StronglySorted_unique_strong le_Time); try apply sort_Slice_sorted.
  - intros x1 x2 H1 H2 H12 H21.
    apply (NoDup_fmap_eq Time l1); trivial.
    + by rewrite <- (sort_Slice_perm less_Time l1).
    + by rewrite Hp, <- (sort_Slice_perm less_Time l2).
    + unfold le_Time in *. lia.
  - by rewrite !sort_Slice_perm.
Qed.

(** * Facts about the string functions *)

Lemma HasPrefix_spec s p : strings_HasPrefix s p = true ↔ ∃ t, s = p ++ t.
Proof.
  revert s. induction p as [|c p IH]; intros [|d s]; simpl.
  - split; [eauto|done].
  - split; [eauto|done].
  - split; [done|]. intros [t Ht]. discriminate.
  - rewrite andb_true_iff, bool_decide_eq_true, IH. split.
    + intros [-> [t ->]]. eauto.
    + intros [t Ht]. simplify_eq. eauto.
Qed.

Lemma HasSuffix_spec s suf : strings_HasSuffix s suf = true ↔ ∃ t, s = t ++ suf.
Proof.
  unfold strings_HasSuffix. rewrite HasPrefix_spec. split.
  - intros [t Ht]. exists (rev t).
    rewrite <- (rev_involutive s), Ht, rev_app_distr. by rewrite rev_involutive.
  - intros [t ->]. exists (rev t). by rewrite rev_app_distr.
Qed.

Lemma HasSuffix_app s suf : strings_HasSuffix (s ++ suf) suf = true.
Proof. apply HasSuffix_spec. eauto. Qed.

Lemma TrimSuffix_app s suf : strings_TrimSuffix (s ++ suf) suf = s.
Proof.
  unfold strings_TrimSuffix. rewrite HasSuffix_app.
  rewrite length_app, Nat.add_sub. by rewrite take_app_length.
Qed.

Lemma HasSuffix_byte_false s c :
  strings_HasSuffix s [c] = false ↔ last s ≠ Some c.
Proof.
  rewrite <- not_true_iff_false, HasSuffix_spec. split.
  - intros Hn Hl. apply Hn. apply last_Some in Hl as [t ->]. eauto.
  - intros Hl [t ->]. apply Hl. by rewrite last_snoc.
Qed.

Lemma Split_nonempty s sep : strings_Split s sep ≠ [].
Proof.
  destruct s as [|c s]; simpl; [done|].
  case_bool_decide; [done|]. by destruct (strings_Split s sep).
Qed.

Lemma Join_cons e rest sep :
  rest ≠ [] → strings_Join (e :: rest) sep = e ++ sep ++ strings_Join rest sep.
Proof. by destruct rest. Qed.

Lemma Join_Split s sep : strings_Join (strings_Split s sep) [sep] = s.
Proof.
  induction s as [|c s IH]; simpl; [done|].
  case_bool_decide as Hc.
  - subst. rewrite Join_cons by apply Split_nonempty. by rewrite IH.
  - pose proof (Split_nonempty s sep) as Hne.
    destruct (strings_Split s sep) as [|piece pieces]; [done|].
    rewrite <- IH. simpl. by destruct pieces.
Qed.

Lemma Split_free s sep : sep ∉ s → strings_Split s sep = [s].
Proof.
  induction s as [|c s IH]; simpl; [done|].
  intros Hn. apply not_elem_of_cons in Hn as [Hc Hs].
  rewrite bool_decide_false by done. by rewrite IH.
Qed.

Lemma Split_app s t sep :
  sep ∉ s → strings_Split (s ++ sep :: t) sep = s :: strings_Split t sep.
Proof.
  induction s as [|c s IH]; simpl; intros Hn.
  - by rewrite bool_decide_true.
  - apply not_elem_of_cons in Hn as [Hc Hs].
    rewrite bool_decide_false by done. by rewrite IH.
Qed.

Lemma Split_pieces_free s sep : Forall (λ piece, sep ∉ piece) (strings_Split s sep).
Proof.
  induction s as [|c s IH]; simpl.
  - repeat constructor. by intros ?%elem_of_nil.
  - case_bool_decide as Hc.
    + constructor; [by intros ?%elem_of_nil|done].
    + destruct (strings_Split s sep) as [|piece pieces]; [repeat constructor|].
      * intros [?|?%elem_of_nil]%elem_of_cons; done.
      * apply Forall_cons in IH as [Hp Hps]. constructor; [|done].
        intros [?|?]%elem_of_cons; done.
Qed.

Lemma Split_Join pieces sep :
  pieces ≠ [] → Forall (λ piece, sep ∉ piece) pieces →
  strings_Split (strings_Join pieces [sep]) sep = pieces.
Proof.
  induction pieces as [|e rest IH]; [done|]. intros _ Hf.
  apply Forall_cons in Hf as [He Hrest].
  destruct rest as [|e' rest].
  - by apply Split_free.
  - rewrite Join_cons by done. cbn [app]. rewrite Split_app by done.
    by rewrite IH.
Qed.

Lemma SplitN2_cut before after sep :
  sep ∉ before → strings_SplitN2 (before ++ sep :: after) sep = [before; after].
Proof.
  induction before as [|c s IH]; simpl; intros Hn.
  - by rewrite bool_decide_true.
  - apply not_elem_of_cons in Hn as [Hc Hs].
    rewrite bool_decide_false by done. by rewrite IH.
Qed.

Lemma SplitN2_cases s sep :
  ((sep ∉ s) ∧ strings_SplitN2 s sep = [s]) ∨
  (∃ before after, s = before ++ sep :: after ∧ (sep ∉ before) ∧
                   strings_SplitN2 s sep = [before; after]).
Proof.
  induction s as [|c s IH]; simpl.
  - left. split; [by intros ?%elem_of_nil|done].
  - case_bool_decide as Hc.
    + subst. right. exists [], s. split; [done|]. split; [by intros ?%elem_of_nil|done].
    + destruct IH as [[Hn ->]|(before & after & -> & Hn & ->)].
      * left. split; [|done]. intros [?|?]%elem_of_cons; done.
      * right. exists (c :: before), after. split; [done|]. split; [|done].
        intros [?|?]%elem_of_cons; done.
Qed.

(** * What the two patterns match *)

#[local] Ltac fin :=
  repeat split; trivial; try (by constructor); simpl; try lia.

Lemma rep_match_spec a k s n :
  rep_match a k s n = true ↔
  ∃ xs rest, s = xs ++ rest ∧ Forall (λ c, atom_matches a c = true) xs ∧
             (n ≤ length xs)%nat ∧ k rest = true.
Proof.
  revert n. induction s as [|c s IH]; intros n.
  - destruct n as [|n]; simpl.
    + rewrite orb_false_r. split.
      * intros Hk. exists [], []. fin.
      * intros (xs & rest & Hs & _ & _ & Hk).
        symmetry in Hs. apply app_eq_nil in Hs as [_ ->]. done.
    + split; [done|]. intros (xs & rest & Hs & _ & Hn & _).
      symmetry in Hs. apply app_eq_nil in Hs as [-> _]. simpl in Hn. lia.
  - destruct n as [|n]; simpl.
    + rewrite orb_true_iff, andb_true_iff, IH. split.
      * intros [Hk|[Hc (xs & rest & -> & Hxs & _ & Hk)]].
        -- exists [], (c :: s). fin.
        -- exists (c :: xs), rest. fin.
      * intros (xs & rest & Hs & Hxs & _ & Hk). destruct xs as [|x xs].
        -- left. simpl in Hs. by subst.
        -- right. simplify_eq/=. apply Forall_cons in Hxs as [Hx Hxs].
           split; [done|]. exists xs, rest. fin.
    + rewrite andb_true_iff, IH. split.
      * intros [Hc (xs & rest & -> & Hxs & Hn & Hk)].
        exists (c :: xs), rest. fin.
      * intros (xs & rest & Hs & Hxs & Hn & Hk). destruct xs as [|x xs]; [simpl in Hn; lia|].
        simplify_eq/=. apply Forall_cons in Hxs as [Hx Hxs].
        split; [done|]. exists xs, rest. fin.
Qed.

Lemma match_anywhere_spec its s :
  match_anywhere its s = true ↔ ∃ pre tail, s = pre ++ tail ∧ match_here its tail = true.
Proof.
  induction s as [|c s IH]; simpl.
  - rewrite orb_false_r. split.
    + intros H. by exists [], [].
    + intros (pre & tail & Hs & H). symmetry in Hs. apply app_eq_nil in Hs as [_ ->]. done.
  - rewrite orb_true_iff, IH. split.
    + intros [H|(pre & tail & -> & H)].
      * by exists [], (c :: s).
      * by exists (c :: pre), tail.
    + intros (pre & tail & Hs & H). destruct pre as [|p pre].
      * left. simpl in Hs. by subst.
      * right. simplify_eq/=. eauto.
Qed.

Lemma timestampRegex_here s :
  match_here (items timestampRegex) s = true ↔ ts_prefix s.
Proof.
  unfold ts_prefix. simpl. destruct s as [|c s].
  { split; [done|]. intros (?&?&?&?&_). done. }
  rewrite andb_true_iff, bool_decide_eq_true, rep_match_spec. split.
  - intros [-> (ws & rest & -> & Hws & _ & Hd)].
    apply rep_match_spec in Hd as (ds & rest' & -> & Hds & Hn & _).
    by exists ws, ds, rest'.
  - intros (ws & ds & rest & Hs & Hws & Hds & Hn). simplify_eq.
    split; [done|]. exists ws, (ds ++ rest). fin.
    apply rep_match_spec. by exists ds, rest.
Qed.

Lemma timestampRegex_spec s : MatchString timestampRegex s = true ↔ ts_occurs s.
Proof.
  unfold MatchString, ts_occurs. simpl anchored. cbv iota.
  rewrite match_anywhere_spec.
  split; intros (pre & tail & -> & H); exists pre, tail; split; trivial;
    by apply timestampRegex_here.
Qed.

Lemma validLineRegex_spec line :
  MatchString validLineRegex line = true ↔ ∃ ts dur cmd, record_shape line ts dur cmd.
Proof.
  unfold MatchString, record_shape. simpl anchored. cbv iota. simpl.
  destruct line as [|c0 [|c1 line]].
  { split; [done|]. intros (?&?&?&?&_). done. }
  { rewrite andb_false_r. split; [done|]. intros (?&?&?&?&_). done. }
  rewrite !andb_true_iff, !bool_decide_eq_true, rep_match_spec. split.
  - intros (-> & -> & ts & rest & -> & Hts & Hn & Hk).
    destruct rest as [|c rest]; [done|].
    apply andb_true_iff in Hk as [Hc Hk]. apply bool_decide_eq_true in Hc as ->.
    destruct rest as [|d rest]; [done|].
    apply andb_true_iff in Hk as [Hd Hk].
    apply rep_match_spec in Hk as (dur & rest' & -> & Hdur & _ & Hk).
    destruct rest' as [|e cmd]; [done|].
    apply andb_true_iff in Hk as [He _]. apply bool_decide_eq_true in He as ->.
    exists ts, (d :: dur), cmd. fin.
  - intros (ts & dur & cmd & Hl & Hts & Hn & Hdur & Hm). simplify_eq.
    do 2 (split; [done|]). exists ts, (COLON :: dur ++ SEMI :: cmd).
    repeat split; trivial.
    destruct dur as [|d dur]; [simpl in Hm; lia|].
    apply Forall_cons in Hdur as [Hd Hdur].
    rewrite bool_decide_true by done. simpl. rewrite Hd. simpl.
    apply rep_match_spec. exists dur, (SEMI :: cmd). fin.
Qed.

(** * The continuation normalizer *)

Lemma occurs_trans a b c : occurs a b → occurs b c → occurs a c.
Proof.
  intros (p1 & q1 & ->) (p2 & q2 & ->).
  exists (p2 ++ p1), (q1 ++ q2). by rewrite <- !app_assoc.
Qed.

Lemma occurs_refl a : occurs a a.
Proof. exists [], []. by rewrite app_nil_r. Qed.

Lemma occurs_suffix a pre : occurs a (pre ++ a).
Proof. exists pre, []. by rewrite app_nil_r. Qed.

Lemma Split_head_prefix s sep :
  ∃ first pieces q, strings_Split s sep = first :: pieces ∧ s = first ++ q.
Proof.
  induction s as [|c s IH]; simpl.
  - by exists [], [], [].
  - case_bool_decide as Hc.
    + by exists [], (strings_Split s sep), (c :: s).
    + destruct IH as (first & pieces & q & -> & ->).
      by exists (c :: first), pieces, q.
Qed.

Lemma occurs_Split s sep piece : piece ∈ strings_Split s sep → occurs piece s.
Proof.
  revert piece. induction s as [|c s IH]; simpl; intros piece Hin.
  - apply list_elem_of_singleton in Hin as ->. apply occurs_refl.
  - case_bool_decide as Hc.
    + apply elem_of_cons in Hin as [->|Hin].
      * by exists [], (c :: s).
      * destruct (IH _ Hin) as (p & q & ->). by exists (c :: p), q.
    + destruct (Split_head_prefix s sep) as (first & pieces & q & Hsp & Hs).
      rewrite Hsp in Hin, IH.
      apply elem_of_cons in Hin as [->|Hin].
      * exists [], q. simpl. by rewrite Hs at 1.
      * destruct (IH piece) as (p & q' & ->); [by right|]. by exists (c :: p), q'.
Qed.

Lemma Index_unfold s sub :
  strings_Index s sub =
    if strings_HasPrefix s sub then Some 0%nat
    else match s with
         | [] => None
         | _ :: s' => S <$> strings_Index s' sub
         end.
Proof. by destruct s. Qed.

Lemma Index_None s sub : strings_Index s sub = None ↔ ¬ occurs sub s.
Proof.
  induction s as [|c s IH]; rewrite Index_unfold.
  - destruct (strings_HasPrefix [] sub) eqn:E.
    + split; [done|]. intros Hn. exfalso. apply Hn.
      apply HasPrefix_spec in E as [t E]. exists [], t. done.
    + split; [|done]. intros _ (p & q & Hs).
      symmetry in Hs. apply app_eq_nil in Hs as [-> Hs]. apply app_eq_nil in Hs as [-> ->].
      done.
  - destruct (strings_HasPrefix (c :: s) sub) eqn:E.
    + split; [done|]. intros Hn. exfalso. apply Hn.
      apply HasPrefix_spec in E as [t E]. exists [], t. done.
    + rewrite fmap_None, IH. split.
      * intros Hn (p & q & Hs). destruct p as [|x p].
        -- simpl in Hs. apply not_true_iff_false in E. apply E.
           apply HasPrefix_spec. eauto.
        -- simplify_eq/=. apply Hn. by exists p, q.
      * intros Hn (p & q & ->). apply Hn. by exists (c :: p), q.
Qed.

Lemma ReplaceAll_absent s old new :
  ¬ occurs old s → strings_ReplaceAll s old new = s.
Proof.
  intros Hn. destruct old as [|c old].
  { exfalso. apply Hn. by exists [], s. }
  unfold strings_ReplaceAll. apply Index_None in Hn.
  destruct (length s); cbn [replace_loop]; [done|]. by rewrite Hn.
Qed.

(** The command of a parsed line is the part of the line after its first
    semicolon. *)
Lemma parseHistoryLine_command line e :
  parseHistoryLine line = Ok e →
  ∃ description, line = description ++ SEMI :: Command e ∧ SEMI ∉ description.
Proof.
  unfold parseHistoryLine. intros Hp.
  destruct (SplitN2_cases line SEMI) as [[_ Hs]|(before & after & -> & Hn & Hs)];
    rewrite Hs in Hp; [done|].
  exists before. split; [|done].
  destruct (strings_Split before COLON) as [|t0 [|t1 [|t2 [|? ?]]]]; try done.
  destruct (_ || _); [done|].
  destruct (strconv_ParseInt _ _); [|done]. simpl in Hp.
  destruct (strconv_Atoi _); [|done]. simpl in Hp. by simplify_eq.
Qed.

Lemma rmc_writes_lookup tok lines i line :
  lines !! i = Some line →
  rmc_writes tok lines !! i = Some (rmc_write tok line (drop (S i) lines)).
Proof.
  revert i. induction lines as [|l lines IH]; intros [|i]; simpl; try done.
  - intros [= ->]. by rewrite drop_0.
  - apply IH.
Qed.

Lemma rmc_writes_plain tok lines :
  Forall (λ line, strings_HasSuffix line [BSL] = false) lines →
  concat (rmc_writes tok lines) = strings_Join lines [LF].
Proof.
  induction 1 as [|line lines Hl Hf IH]; [done|].
  cbn [rmc_writes concat]. rewrite IH.
  destruct lines as [|next lines]; simpl.
  - by rewrite app_nil_r.
  - rewrite Hl. by rewrite <- app_assoc.
Qed.

(** C10, as the code has it.  On a content none of whose physical lines
    ends with a backslash the continuation normalizer is the identity.
    Consequently every command parsed from its lines is a part of the
    content as it was, so that it holds the placeholder only where the
    content did, and where the content does not hold the placeholder the
    emitter gives the command back unchanged, with no continuation
    sequence added. *)
Theorem normalizer_identity (content multilineCommand : gostring) :
  Forall (λ line, strings_HasSuffix line [BSL] = false) (strings_Split content LF) →
  replaceMultilineCommands content multilineCommand = content ∧
  ∀ line entry,
    line ∈ strings_Split (replaceMultilineCommands content multilineCommand) LF →
    parseHistoryLine line = Ok entry →
    occurs (Command entry) content ∧
    (occurs multilineCommand (Command entry) → occurs multilineCommand content) ∧
    (¬ occurs multilineCommand content →
       strings_ReplaceAll (Command entry) multilineCommand [BSL; LF] = Command entry).
Proof.
  intros Hplain.
  assert (Hid : replaceMultilineCommands content multilineCommand = content).
  { unfold replaceMultilineCommands. rewrite rmc_writes_plain by done. apply Join_Split. }
  split; [done|]. rewrite Hid. intros line entry Hin Hparse.
  assert (Hocc : occurs (Command entry) content).
  { apply occurs_trans with line; [|by eapply occurs_Split].
    apply parseHistoryLine_command in Hparse as (description & -> & _).
    exists (description ++ [SEMI]), []. by rewrite app_nil_r, <- app_assoc. }
  split; [done|]. split.
  - intros Htok. by apply occurs_trans with (Command entry).
  - intros Habsent. apply ReplaceAll_absent. intros Htok. apply Habsent.
    by apply occurs_trans with (Command entry).
Qed.

(** * The continuation policy *)

Lemma rmc_writes_split tok lines i line :
  lines !! i = Some line →
  concat (rmc_writes tok lines) =
    concat (take i (rmc_writes tok lines))
    ++ rmc_write tok line (drop (S i) lines)
    ++ concat (drop (S i) (rmc_writes tok lines)).
Proof.
  intros Hi. apply (rmc_writes_lookup tok) in Hi.
  rewrite <- (take_drop_middle _ _ _ Hi) at 1.
  by rewrite concat_app.
Qed.

(** C2, as the code has it.  A physical line that ends with a backslash and
    has a next line is joined to it (the backslash is removed, the
    placeholder written in its place, and no newline) when the timestamp
    pattern, that is the field marker, any white space and at least ten
    digits, occurs nowhere in the next line; it is written as it is, with
    its backslash and its newline, when the next line starts with that
    pattern, whether or not a colon follows the digits. *)
Theorem continuation_policy (content multilineCommand : gostring)
    (i : nat) (line next : gostring) :
  let lines := strings_Split content LF in
  let writes := rmc_writes multilineCommand lines in
  lines !! i = Some line →
  strings_HasSuffix line [BSL] = true →
  lines !! S i = Some next →
  ∃ body, line = body ++ [BSL] ∧
    (¬ ts_occurs next →
       replaceMultilineCommands content multilineCommand =
         concat (take i writes) ++ (body ++ multilineCommand)
         ++ concat (drop (S i) writes)) ∧
    (ts_prefix next →
       replaceMultilineCommands content multilineCommand =
         concat (take i writes) ++ (body ++ [BSL; LF])
         ++ concat (drop (S i) writes)).
Proof.
  intros lines writes Hline Hsuffix Hnext.
  apply HasSuffix_spec in Hsuffix as [body ->]. exists body. split; [done|].
  unfold replaceMultilineCommands. fold lines.
  rewrite (rmc_writes_split _ _ _ _ Hline). fold writes.
  assert (Hrest : ∃ rest, drop (S i) lines = next :: rest).
  { exists (drop (S (S i)) lines). by apply drop_S. }
  destruct Hrest as [rest ->]. unfold rmc_write.
  rewrite HasSuffix_app, TrimSuffix_app.
  split.
  - intros Hfree. rewrite <- timestampRegex_spec in Hfree.
    apply not_true_is_false in Hfree. by rewrite Hfree.
  - intros Hstart.
    assert (Hocc : MatchString timestampRegex next = true).
    { apply timestampRegex_spec. by exists [], next. }
    rewrite Hocc. simpl negb. cbv iota. by rewrite <- (app_assoc body [BSL] [LF]).
Qed.

Lemma continuation_policy_witness :
  ∃ body, str "echo a \" = body ++ [BSL] ∧
    (¬ ts_occurs (str "continues here") →
       replaceMultilineCommands
         (str "echo a \" ++ [LF] ++ str "continues here" ++ [LF]) tok0 =
       [] ++ (body ++ tok0) ++ str "continues here" ++ [LF]) ∧
    (ts_prefix (str "continues here") →
       replaceMultilineCommands
         (str "echo a \" ++ [LF] ++ str "continues here" ++ [LF]) tok0 =
       [] ++ (body ++ [BSL; LF]) ++ str "continues here" ++ [LF]).
Proof.
  apply (continuation_policy
           (str "echo a \" ++ [LF] ++ str "continues here" ++ [LF]) tok0
           0 (str "echo a \") (str "continues here")); reflexivity.
Defined.

(** The claim of C2 fails as stated: the next line below starts with the
    field marker and ten digits, not followed by a colon, so it does not
    start like a record; all the same the line before it keeps its
    backslash and its newline, and no placeholder is written. *)
Lemma continuation_before_marker_digits :
  strings_Split content_marker_digits LF =
    [str "echo a \"; str ":1234567890 is the id"; []] ∧
  ¬ record_start (str ":1234567890 is the id") ∧
  replaceMultilineCommands content_marker_digits tok0 = content_marker_digits ∧
  replaceMultilineCommands content_marker_digits tok0 ≠
    str "echo a " ++ tok0 ++ str ":1234567890 is the id" ++ [LF].
Proof.
  split; [reflexivity|]. split; [|split; [reflexivity|by vm_compute]].
  intros (ws & ds & rest & Hs & _).
  assert (Hnot : COLON ∉ str "1234567890 is the id").
  { apply (bool_decide_eq_false_1 (COLON ∈ str "1234567890 is the id")). by vm_compute. }
  apply Hnot.
  replace (str "1234567890 is the id") with (ws ++ ds ++ COLON :: rest)
    by (by injection Hs).
  rewrite !elem_of_app, elem_of_cons. auto.
Qed.

Lemma normalizer_identity_witness :
  replaceMultilineCommands history_a tok0 = history_a ∧
  ∀ line entry,
    line ∈ strings_Split (replaceMultilineCommands history_a tok0) LF →
    parseHistoryLine line = Ok entry →
    occurs (Command entry) history_a ∧
    (occurs tok0 (Command entry) → occurs tok0 history_a) ∧
    (¬ occurs tok0 history_a →
       strings_ReplaceAll (Command entry) tok0 [BSL; LF] = Command entry).
Proof.
  apply (normalizer_identity history_a tok0).
  apply (bool_decide_unpack _). by vm_compute.
Defined.

(** The claim of C10 fails as stated where the content holds the
    placeholder of the run.  No line of this history ends with a backslash
    and the normalizer returns it unchanged; all the same the command
    parsed from it holds the placeholder, and the run writes a backslash
    and a newline in its place: the emitted record gains a continuation
    sequence that the input did not have. *)
Lemma placeholder_in_plain_content :
  multilineCommand now0 = str "TO_BE_REMOVED_1700000000" ∧
  Forall (λ line, strings_HasSuffix line [BSL] = false)
         (strings_Split history_with_token LF) ∧
  replaceMultilineCommands history_with_token (multilineCommand now0) = history_with_token ∧
  parseHistoryLine (str ": 1700000000:0;echo TO_BE_REMOVED_1700000000 x") =
    Ok {| Command := str "echo TO_BE_REMOVED_1700000000 x";
          Time := 1700000000; Duration := 0 |} ∧
  occurs (multilineCommand now0) (str "echo TO_BE_REMOVED_1700000000 x") ∧
  strings_ReplaceAll (str "echo TO_BE_REMOVED_1700000000 x") (multilineCommand now0)
                     [BSL; LF] = str "echo \" ++ [LF] ++ str " x" ∧
  main now0 (fs_one (str "h") history_with_token) [str "h"] range_fwd =
    Output (str ": 1700000000:0;echo \" ++ [LF] ++ str " x" ++ [LF]).
Proof.
  split; [vm_compute; reflexivity|].
  split; [apply (bool_decide_unpack _); vm_compute; reflexivity|].
  split; [vm_compute; reflexivity|].
  split; [vm_compute; reflexivity|].
  split; [exists (str "echo "), (str " x"); vm_compute; reflexivity|].
  split; vm_compute; reflexivity.
Qed.

(** * The record parser *)

Lemma b2z_range c : 0 ≤ b2z c < 256.
Proof.
  unfold b2z. pose proof (N_ascii_bounded c) as H. lia.
Qed.

Lemma is_digit_range c : is_digit c = true → 0 ≤ b2z c - 48 ≤ 9.
Proof. unfold is_digit. rewrite andb_true_iff, !Z.leb_le. lia. Qed.

Lemma decimal_step_mono ds n :
  all_digits ds → 0 ≤ n → n ≤ foldl decimal_step n ds.
Proof.
  intros Hds. revert n. induction Hds as [|c ds Hc Hds IH]; intros n Hn; simpl; [lia|].
  apply is_digit_range in Hc.
  etransitivity; [|apply IH]; unfold decimal_step; lia.
Qed.

Lemma decimal_nonneg ds : all_digits ds → 0 ≤ decimal ds.
Proof. intros. by apply decimal_step_mono. Qed.

Lemma parseUint_loop_spec ds n :
  all_digits ds → 0 ≤ n ≤ maxUint64 →
  parseUint_loop maxUint64 n ds =
    if foldl decimal_step n ds <=? maxUint64 then Ok (foldl decimal_step n ds)
    else Err ErrRange.
Proof.
  intros Hds. revert n. induction Hds as [|c ds Hc Hds IH]; intros n Hn; simpl.
  - destruct (Z.leb_spec n maxUint64); [done|lia].
  - rewrite Hc. pose proof (is_digit_range c Hc) as Hd.
    pose proof (decimal_step_mono ds (decimal_step n c) Hds) as Hmono.
    change (decimal_step n c) with (n * 10 + (b2z c - 48)) in *.
    unfold maxUint64 in *.
    destruct (Z.geb_spec n ((2 ^ 64 - 1) / 10 + 1)) as [Hcut|Hcut].
    + change ((2 ^ 64 - 1) / 10 + 1) with 1844674407370955162 in Hcut.
      destruct (Z.leb_spec (foldl decimal_step (n * 10 + (b2z c - 48)) ds) (2 ^ 64 - 1)); [lia|done].
    + change ((2 ^ 64 - 1) / 10 + 1) with 1844674407370955162 in Hcut.
      rewrite (Z.mod_small (n * 10)) by lia.
      destruct (Z_le_gt_dec (n * 10 + (b2z c - 48)) (2 ^ 64 - 1)) as [Hfit|Hover].
      * rewrite (Z.mod_small (n * 10 + (b2z c - 48))) by lia.
        destruct (Z.ltb_spec (n * 10 + (b2z c - 48)) (n * 10)); [lia|].
        destruct (Z.gtb_spec (n * 10 + (b2z c - 48)) (2 ^ 64 - 1)); [lia|].
        simpl. apply IH. lia.
      * assert (Hwrap : (n * 10 + (b2z c - 48)) mod 2 ^ 64 = n * 10 + (b2z c - 48) - 2 ^ 64).
        { symmetry. apply (Z.mod_unique _ _ 1); lia. }
        rewrite Hwrap.
        destruct (Z.ltb_spec (n * 10 + (b2z c - 48) - 2 ^ 64) (n * 10)); [|lia].
        simpl.
        destruct (Z.leb_spec (foldl decimal_step (n * 10 + (b2z c - 48)) ds) (2 ^ 64 - 1)); [lia|done].
Qed.

Lemma digit_not_sign c :
  is_digit c = true → c ≠ "+"%char ∧ c ≠ "-"%char.
Proof. intros Hc. split; intros ->; vm_compute in Hc; done. Qed.

Lemma ParseInt_digits ds bitSize :
  (bitSize = 64 ∨ bitSize = 0) → all_digits ds → ds ≠ [] →
  strconv_ParseInt ds bitSize =
    if decimal ds <=? maxInt64 then Ok (decimal ds) else Err ErrRange.
Proof.
  intros Hbits Hds Hne. destruct ds as [|c ds]; [done|].
  unfold strconv_ParseInt.
  pose proof (Forall_inv Hds) as Hc. apply digit_not_sign in Hc as [Hplus Hminus].
  rewrite !bool_decide_false by done. cbn [orb negb andb].
  unfold strconv_ParseUint.
  assert (Hmax : 2 ^ (if bitSize =? 0 then intSize else bitSize) - 1 = maxUint64)
    by (by destruct Hbits as [-> | ->]).
  assert (Hcut : 2 ^ ((if bitSize =? 0 then intSize else bitSize) - 1) = maxInt64 + 1)
    by (by destruct Hbits as [-> | ->]).
  rewrite Hmax, Hcut, parseUint_loop_spec by (done || (unfold maxUint64; lia)).
  fold (decimal (c :: ds)). pose proof (decimal_nonneg _ Hds).
  unfold maxInt64, maxUint64 in *.
  destruct (Z.leb_spec (decimal (c :: ds)) (2 ^ 64 - 1));
    destruct (Z.leb_spec (decimal (c :: ds)) (2 ^ 63 - 1)); try lia; simpl; trivial.
  - destruct (Z.geb_spec (decimal (c :: ds)) (2 ^ 63 - 1 + 1)); [lia|done].
  - destruct (Z.geb_spec (decimal (c :: ds)) (2 ^ 63 - 1 + 1)); [done|lia].
Qed.

Lemma digit_not_space c : is_digit c = true → is_ascii_space c = false.
Proof.
  intros Hc. apply is_digit_range in Hc. unfold is_ascii_space.
  rewrite !orb_false_iff. repeat split; apply bool_decide_eq_false;
    intros ->; vm_compute in Hc; destruct Hc as [H1 H2]; by (apply H1 || apply H2).
Qed.

Lemma trim_left_digits ds : all_digits ds → trim_left ds = ds.
Proof.
  destruct 1 as [|c ds Hc _]; simpl; [done|]. by rewrite digit_not_space.
Qed.

Lemma digit_ascii c : is_digit c = true → (b2z c >=? RuneSelf) = false.
Proof.
  intros Hc. apply is_digit_range in Hc. unfold RuneSelf.
  destruct (Z.geb_spec (b2z c) 128); [lia|done].
Qed.

Lemma all_digits_rev ds : all_digits ds → all_digits (rev ds).
Proof.
  unfold all_digits. rewrite !Forall_forall. intros Hds c Hc. apply Hds.
  apply list_elem_of_In in Hc. apply in_rev in Hc. by apply list_elem_of_In.
Qed.

(** On digits the function stays on its path for ASCII and cuts nothing
    off. *)
Lemma TrimSpace_digits ds : all_digits ds → strings_TrimSpace ds = ds.
Proof.
  intros Hds. unfold strings_TrimSpace. rewrite (trim_left_digits ds Hds).
  destruct ds as [|c ds']; [done|].
  rewrite digit_ascii by (by apply Forall_inv in Hds).
  pose proof (all_digits_rev _ Hds) as Hrev.
  rewrite (trim_left_digits _ Hrev).
  destruct (rev (c :: ds')) as [|d r] eqn:Hr.
  { apply (f_equal (@length ascii)) in Hr. rewrite length_rev in Hr. done. }
  rewrite digit_ascii by (by apply Forall_inv in Hrev).
  rewrite <- Hr. apply rev_involutive.
Qed.

Lemma TrimSpace_space_digits ds : all_digits ds → strings_TrimSpace (SP :: ds) = ds.
Proof.
  intros Hds. unfold strings_TrimSpace. cbn [trim_left].
  replace (is_ascii_space SP) with true by done.
  by apply TrimSpace_digits.
Qed.

Lemma digits_free ds c : is_digit c = false → all_digits ds → c ∉ ds.
Proof.
  intros Hc Hds Hin. unfold all_digits in Hds. rewrite Forall_forall in Hds.
  apply Hds in Hin. congruence.
Qed.

(** What the parser makes of a line of the record grammar. *)
Lemma parseHistoryLine_shape line ts dur cmd :
  record_shape line ts dur cmd →
  parseHistoryLine line =
    if decimal ts <=? maxInt64 then
      if decimal dur <=? maxInt64 then
        Ok {| Command := cmd; Time := decimal ts; Duration := decimal dur |}
      else Err ErrRange
    else Err ErrRange.
Proof.
  intros (-> & Hts & Hnts & Hdur & Hndur). unfold parseHistoryLine.
  assert (Hsemi : SEMI ∉ COLON :: SP :: ts ++ COLON :: dur).
  { rewrite !not_elem_of_cons, not_elem_of_app, not_elem_of_cons.
    repeat split; try done; by apply digits_free. }
  replace (COLON :: SP :: ts ++ COLON :: dur ++ SEMI :: cmd)
    with ((COLON :: SP :: ts ++ COLON :: dur) ++ SEMI :: cmd)
    by (by simpl; rewrite <- app_assoc).
  rewrite (SplitN2_cut _ cmd SEMI) by done.
  change (COLON :: SP :: ts ++ COLON :: dur) with ([] ++ COLON :: (SP :: ts) ++ COLON :: dur).
  rewrite Split_app by (by intros ?%elem_of_nil).
  rewrite Split_app by (rewrite not_elem_of_cons; split; [done|by apply digits_free]).
  rewrite Split_free by (by apply digits_free).
  rewrite !bool_decide_true by done. rewrite bool_decide_false by done.
  cbn [negb orb].
  rewrite TrimSpace_space_digits, TrimSpace_digits by done.
  unfold strconv_Atoi.
  rewrite !ParseInt_digits; auto; try (intros ->; simpl in *; lia).
  destruct (decimal ts <=? maxInt64); [|done]. simpl.
  destruct (decimal dur <=? maxInt64); done.
Qed.

Lemma Reads_total lines : ∃ entries, Reads lines entries.
Proof.
  induction lines as [|line lines [entries IH]]; [exists []; constructor|].
  destruct (MatchString validLineRegex line) eqn:E.
  - apply validLineRegex_spec in E as (ts & dur & cmd & Hshape).
    eexists. by eapply Reads_record.
  - exists entries. by constructor.
Qed.

Lemma validLine_nonempty line : MatchString validLineRegex line = true → line ≠ [].
Proof. by intros H ->. Qed.

(** The loop over the logical lines: it merges the records read from the
    well-formed lines as long as their numbers fit, and stops with an error
    at the first one that does not. *)
Lemma process_lines_spec lines entries commands :
  Reads lines entries →
  (Forall fits entries →
     process_lines lines commands = Ok (foldl merge_entry commands entries)) ∧
  (¬ Forall fits entries →
     ∃ line, line ∈ lines ∧ MatchString validLineRegex line = true ∧
             process_lines lines commands = Err (ErrParsingLine line ErrRange)).
Proof.
  intros Hreads. revert commands.
  induction Hreads as [|line lines entries Hbad Hreads IH
                      |line ts dur cmd lines entries Hshape Hreads IH]; intros commands.
  - split; [done|]. intros Hn. exfalso. apply Hn. constructor.
  - cbn [process_lines]. rewrite Hbad. rewrite orb_true_r.
    destruct (IH commands) as [IH1 IH2]. split; [done|].
    intros Hn. destruct (IH2 Hn) as (l & Hin & Hl). exists l. split; [by right|done].
  - cbn [process_lines].
    assert (Hvalid : MatchString validLineRegex line = true).
    { apply validLineRegex_spec. eauto. }
    rewrite Hvalid, (bool_decide_false _ (validLine_nonempty _ Hvalid)). cbn [negb orb].
    rewrite (parseHistoryLine_shape _ _ _ _ Hshape).
    set (e := {| Command := cmd; Time := decimal ts; Duration := decimal dur |}).
    destruct (Z.leb_spec (decimal ts) maxInt64) as [Ht|Ht];
      [destruct (Z.leb_spec (decimal dur) maxInt64) as [Hd|Hd]|].
    + destruct (IH (merge_entry commands e)) as [IH1 IH2]. split.
      * intros Hf. apply Forall_cons in Hf as [_ Hf]. by apply IH1.
      * intros Hn. destruct IH2 as (l & Hin & Hl).
        { intros Hf. apply Hn. constructor; [by split|done]. }
        exists l. split; [by right|done].
    + split.
      * intros Hf. apply Forall_cons in Hf as [[_ Hf] _]. simpl in Hf. lia.
      * intros _. exists line. split; [by left|done].
    + split.
      * intros Hf. apply Forall_cons in Hf as [[Hf _] _]. simpl in Hf. lia.
      * intros _. exists line. split; [by left|done].
Qed.

(** C4, as the code has it.  A file that can be opened and read is
    processed as follows: the lines that fail the record grammar, the empty
    ones among them, are skipped, and the records of the well-formed lines
    are merged in order, provided the timestamp and the duration of each
    well-formed line fit a 64-bit signed integer; at the first well-formed
    line with a number that does not fit, processing stops with an error
    for that line, which ends the run. *)
Theorem lenient_policy (fs : filesystem) (filename multilineCommand : gostring)
    (commands : CommandMap) (data : file) (content : gostring) :
  fs filename = Some data →
  readFileContent data = Ok content →
  ∃ entries,
    Reads (strings_Split (replaceMultilineCommands content multilineCommand) LF) entries ∧
    (Forall fits entries →
       processHistoryFile fs filename multilineCommand commands =
         Ok (foldl merge_entry commands entries)) ∧
    (¬ Forall fits entries →
       ∃ line,
         line ∈ strings_Split (replaceMultilineCommands content multilineCommand) LF ∧
         MatchString validLineRegex line = true ∧
         processHistoryFile fs filename multilineCommand commands =
           Err (ErrParsingLine line ErrRange)).
Proof.
  intros Hopen Hread.
  destruct (Reads_total (strings_Split (replaceMultilineCommands content multilineCommand) LF))
    as [entries Hreads].
  exists entries. split; [done|].
  unfold processHistoryFile. rewrite Hopen, Hread. cbn [mbind result_bind].
  unfold process_content. by apply process_lines_spec.
Qed.

Lemma lenient_policy_witness :
  ∃ entries,
    Reads (strings_Split
             (replaceMultilineCommands
                (str ": 1700000000:0;ls" ++ [LF] ++ str "not a record" ++ [LF]) tok0) LF)
          entries ∧
    (Forall fits entries →
       processHistoryFile
         (fs_one (str "h") (str ": 1700000000:0;ls" ++ [LF] ++ str "not a record" ++ [LF]))
         (str "h") tok0 ∅ = Ok (foldl merge_entry ∅ entries)) ∧
    (¬ Forall fits entries →
       ∃ line,
         line ∈ strings_Split
                  (replaceMultilineCommands
                     (str ": 1700000000:0;ls" ++ [LF] ++ str "not a record" ++ [LF]) tok0) LF ∧
         MatchString validLineRegex line = true ∧
         processHistoryFile
           (fs_one (str "h") (str ": 1700000000:0;ls" ++ [LF] ++ str "not a record" ++ [LF]))
           (str "h") tok0 ∅ = Err (ErrParsingLine line ErrRange)).
Proof.
  apply (lenient_policy
           (fs_one (str "h") (str ": 1700000000:0;ls" ++ [LF] ++ str "not a record" ++ [LF]))
           (str "h") tok0 ∅
           (Readable (str ": 1700000000:0;ls" ++ [LF] ++ str "not a record" ++ [LF]))
           (str ": 1700000000:0;ls" ++ [LF] ++ str "not a record" ++ [LF]));
    reflexivity.
Defined.

(** The claim of C4 fails as stated: the second line of this history is
    well-formed, its duration does not fit, and the run ends with a fatal
    error in place of an output. *)
Lemma long_duration_aborts :
  MatchString validLineRegex (str ": 1700000001:99999999999999999999;make") = true ∧
  main now0 (fs_one (str "h") history_long_duration) [str "h"] range_fwd =
    Fatal (ErrParsingLine (str ": 1700000001:99999999999999999999;make") ErrRange).
Proof. split; reflexivity. Qed.

(** * The merge table over a run *)

(** One step of the deduplicator never drops a key and never lowers its
    time; on an equal time the stored entry stays. *)
Lemma merge_entry_keeps commands entry k e :
  commands !! k = Some e →
  ∃ e', merge_entry commands entry !! k = Some e' ∧ Time e ≤ Time e' ∧
        (Time e' = Time e → e' = e).
Proof.
  intros Hk. destruct (decide (k = Command entry)) as [->|Hne].
  - rewrite merge_entry_same, Hk. destruct (Time entry >? Time e) eqn:Hgt.
    + apply Z.gtb_lt in Hgt. exists entry. split; [done|]. split; lia.
    + exists e. split; [done|]. split; [lia|done].
  - rewrite merge_entry_other by done. exists e. split; [done|]. split; [lia|done].
Qed.

Lemma foldl_merge_keeps entries commands k e :
  commands !! k = Some e →
  ∃ e', foldl merge_entry commands entries !! k = Some e' ∧ Time e ≤ Time e' ∧
        (Time e' = Time e → e' = e).
Proof.
  revert commands e. induction entries as [|x entries IH]; intros commands e Hk.
  - exists e. split; [done|]. split; [lia|done].
  - cbn [foldl].
    destruct (merge_entry_keeps commands x k e Hk) as (e1 & Hk1 & Hle1 & Heq1).
    destruct (IH _ _ Hk1) as (e2 & Hk2 & Hle2 & Heq2).
    exists e2. split; [done|]. split; [lia|].
    intros Heq. assert (Time e1 = Time e) by lia.
    rewrite <- (Heq1 ltac:(done)). apply Heq2. lia.
Qed.

(** A further entry whose time is not above the stored one is dropped. *)
Lemma merge_entry_noop commands entry e :
  commands !! Command entry = Some e → Time entry ≤ Time e →
  merge_entry commands entry = commands.
Proof.
  intros Hk Hle. unfold merge_entry. rewrite Hk.
  destruct (Time entry >? Time e) eqn:Hgt; [|done].
  apply Z.gtb_lt in Hgt. lia.
Qed.

Lemma foldl_merge_noop entries commands :
  Forall (λ x, ∃ e, commands !! Command x = Some e ∧ Time x ≤ Time e) entries →
  foldl merge_entry commands entries = commands.
Proof.
  induction 1 as [|x entries (e & Hk & Hle) _ IH]; [done|].
  cbn [foldl]. by rewrite (merge_entry_noop commands x e).
Qed.

(** After the entries are merged, each of them finds an entry that is at
    least as recent under its command. *)
Lemma foldl_merge_covers entries commands :
  Forall (λ x, ∃ e, foldl merge_entry commands entries !! Command x = Some e ∧
                    Time x ≤ Time e) entries.
Proof.
  revert commands. induction entries as [|x entries IH]; intros commands; [constructor|].
  cbn [foldl]. constructor; [|apply IH].
  assert (∃ e1, merge_entry commands x !! Command x = Some e1 ∧ Time x ≤ Time e1)
    as (e1 & Hk1 & Hle1).
  { rewrite merge_entry_same. destruct (commands !! Command x) as [e|].
    - destruct (Time x >? Time e) eqn:Hgt.
      + exists x. split; [done|lia].
      + exists e. split; [done|]. rewrite Z.gtb_ltb in Hgt. apply Z.ltb_ge in Hgt. lia.
    - exists x. split; [done|lia]. }
  destruct (foldl_merge_keeps entries _ _ _ Hk1) as (e2 & Hk2 & Hle2 & _).
  exists e2. split; [done|lia].
Qed.

Lemma foldl_merge_twice entries commands :
  foldl merge_entry (foldl merge_entry commands entries) entries =
    foldl merge_entry commands entries.
Proof. apply foldl_merge_noop, foldl_merge_covers. Qed.

(** What the table holds under a key is one of the entries merged, with
    the greatest time among those of its command. *)
Lemma stored_greatest entries k :
  match foldl merge_entry ∅ entries !! k with
  | Some e => e ∈ entries ∧ Command e = k ∧
              ∀ x, x ∈ entries → Command x = k → Time x ≤ Time e
  | None => ∀ x, x ∈ entries → Command x ≠ k
  end.
Proof.
  pose proof (dedup_invariant entries k) as Hinv.
  destruct (foldl merge_entry ∅ entries !! k) as [e|].
  - destruct Hinv as (Hcmd & before & after & -> & Hb & Ha).
    split; [rewrite elem_of_app; right; by left|]. split; [done|].
    rewrite Forall_forall in Hb, Ha.
    intros x [Hx|[->|Hx]%elem_of_cons]%elem_of_app Hxk.
    + specialize (Hb x Hx Hxk). lia.
    + lia.
    + exact (Ha x Hx Hxk).
  - by rewrite Forall_forall in Hinv.
Qed.

(** ** The entries a file contributes *)

Lemma process_lines_entries lines commands commands' :
  process_lines lines commands = Ok commands' →
  ∃ entries,
    commands' = foldl merge_entry commands entries ∧
    (∀ m, process_lines lines m = Ok (foldl merge_entry m entries)) ∧
    Forall (λ e, entry_ok e ∧ ∃ line pre, line ∈ lines ∧ line = pre ++ Command e) entries.
Proof.
  revert commands. induction lines as [|line lines IH]; intros commands Hp.
  { exists []. injection Hp as <-. split; [done|]. split; [done|constructor]. }
  cbn [process_lines] in Hp |- *.
  assert (Hweaken : ∀ es : list HistoryEntry,
            Forall (λ e, entry_ok e ∧ ∃ l pre, l ∈ lines ∧ l = pre ++ Command e) es →
            Forall (λ e, entry_ok e ∧ ∃ l pre, l ∈ line :: lines ∧ l = pre ++ Command e) es).
  { intros es Hes. eapply Forall_impl; [exact Hes|]. intros e (Hok & l & pre & Hl & Heq).
    split; [done|]. exists l, pre. split; [by right|done]. }
  destruct (bool_decide (line = []) || negb (MatchString validLineRegex line)) eqn:Hskip.
  - destruct (IH _ Hp) as (entries & Heq & Hall & Hok).
    exists entries. split; [done|]. split; [done|]. by apply Hweaken.
  - apply orb_false_iff in Hskip as [_ Hm]. apply negb_false_iff in Hm.
    apply validLineRegex_spec in Hm as (ts & dur & cmd & Hshape).
    pose proof (parseHistoryLine_shape _ _ _ _ Hshape) as Hparse.
    destruct Hshape as (Hline & Hts & _ & Hdur & _).
    rewrite Hparse in Hp |- *.
    destruct (decimal ts <=? maxInt64) eqn:Ht; [|done].
    destruct (decimal dur <=? maxInt64) eqn:Hd; [|done].
    apply Z.leb_le in Ht, Hd.
    destruct (IH _ Hp) as (entries & Heq & Hall & Hok).
    exists ({| Command := cmd; Time := decimal ts; Duration := decimal dur |} :: entries).
    split; [done|]. split; [intros m; apply Hall|].
    constructor; [|by apply Hweaken].
    split.
    + unfold entry_ok. cbn [Time Duration].
      pose proof (decimal_nonneg ts Hts). pose proof (decimal_nonneg dur Hdur). lia.
    + exists line, (COLON :: SP :: ts ++ COLON :: dur ++ [SEMI]).
      split; [by left|]. cbn [Command]. rewrite Hline.
      cbn [app]. f_equal. f_equal. rewrite <- app_assoc. cbn [app]. f_equal.
      f_equal. by rewrite <- app_assoc.
Qed.

Lemma suffix_free (c : ascii) (line pre s : gostring) : c ∉ line → line = pre ++ s → c ∉ s.
Proof. intros Hc -> Hs. apply Hc. rewrite elem_of_app. by right. Qed.

Lemma processHistoryFile_entries fs name tok commands commands' :
  processHistoryFile fs name tok commands = Ok commands' →
  ∃ entries,
    commands' = foldl merge_entry commands entries ∧
    (∀ m, processHistoryFile fs name tok m = Ok (foldl merge_entry m entries)) ∧
    Forall (λ e, entry_ok e ∧ (LF ∉ Command e)) entries.
Proof.
  unfold processHistoryFile. destruct (fs name) as [data|]; [|done].
  destruct (readFileContent data) as [content|err]; [|done].
  cbn. unfold process_content. intros Hp.
  destruct (process_lines_entries _ _ _ Hp) as (entries & Heq & Hall & Hok).
  exists entries. split; [done|]. split; [done|].
  eapply Forall_impl; [exact Hok|].
  intros e (He & line & pre & Hline & Hpre). split; [done|].
  pose proof (Split_pieces_free (replaceMultilineCommands content tok) LF) as Hfree.
  rewrite Forall_forall in Hfree. exact (suffix_free _ _ _ _ (Hfree _ Hline) Hpre).
Qed.

Lemma process_files_entries fs files tok commands commands' :
  process_files fs files tok commands = Ok commands' →
  ∃ entries,
    commands' = foldl merge_entry commands entries ∧
    (∀ m, process_files fs files tok m = Ok (foldl merge_entry m entries)) ∧
    Forall (λ e, entry_ok e ∧ (LF ∉ Command e)) entries.
Proof.
  revert commands. induction files as [|f files IH]; intros commands Hp.
  { injection Hp as <-. exists []. split; [done|]. split; [done|constructor]. }
  cbn [process_files] in Hp |- *.
  destruct (processHistoryFile fs f tok commands) as [c1|] eqn:Hf; [|done].
  cbn in Hp.
  destruct (processHistoryFile_entries _ _ _ _ _ Hf) as (es1 & -> & Hall1 & Hok1).
  destruct (IH _ Hp) as (es2 & -> & Hall2 & Hok2).
  exists (es1 ++ es2). split; [by rewrite foldl_app|]. split.
  - intros m. rewrite Hall1. cbn. rewrite Hall2. by rewrite foldl_app.
  - by apply Forall_app.
Qed.

Lemma main_table_stored now fs args commands k e :
  main_table now fs args = Ok commands → commands !! k = Some e → stored_ok k e.
Proof.
  unfold main_table. intros Hp Hk.
  destruct (process_files_entries _ _ _ _ _ Hp) as (entries & -> & _ & Hok).
  pose proof (stored_greatest entries k) as Hst. rewrite Hk in Hst.
  destruct Hst as (He & Hcmd & _).
  rewrite Forall_forall in Hok. destruct (Hok e He) as ((Ht & Hd) & Hlf).
  done.
Qed.

(** Every entry of the table [main] builds is stored under its command;
    its time and its duration are not negative and fit their integer
    types; its command holds no newline. *)
Theorem table_entries_in_range (now : Z) (fs : filesystem) (args : list gostring)
    (commands : CommandMap) (k : gostring) (e : HistoryEntry) :
  main_table now fs args = Ok commands →
  commands !! k = Some e →
  stored_ok k e.
Proof. apply main_table_stored. Qed.

Lemma table_entries_in_range_witness :
  stored_ok (str "echo hi")
            {| Command := str "echo hi"; Time := 1000000005; Duration := 0 |}.
Proof.
  apply (table_entries_in_range now0 fs_ab [str "b.bak"; str "a.bak"] table_ab).
  - vm_compute. reflexivity.
  - vm_compute. reflexivity.
Defined.

(** Processing a file never drops a command of the table and never lowers
    its time; when the time is the same afterwards, so are the duration
    and the whole entry: a record of a later file with the same time does
    not replace the stored one. *)
Theorem file_never_lowers_table (fs : filesystem) (filename multilineCommand : gostring)
    (commands commands' : CommandMap) (k : gostring) (e : HistoryEntry) :
  processHistoryFile fs filename multilineCommand commands = Ok commands' →
  commands !! k = Some e →
  ∃ e', commands' !! k = Some e' ∧ Time e ≤ Time e' ∧ (Time e' = Time e → e' = e).
Proof.
  intros Hp Hk.
  destruct (processHistoryFile_entries _ _ _ _ _ Hp) as (entries & -> & _ & _).
  by apply foldl_merge_keeps.
Qed.

Lemma file_never_lowers_table_witness :
  ∃ e', table_ab !! str "echo hi" = Some e' ∧
        Time {| Command := str "echo hi"; Time := 1000000005; Duration := 0 |} ≤ Time e' ∧
        (Time e' = Time {| Command := str "echo hi"; Time := 1000000005; Duration := 0 |} →
         e' = {| Command := str "echo hi"; Time := 1000000005; Duration := 0 |}).
Proof.
  apply (file_never_lowers_table fs_ab (str "b.bak") tok0
           (<[str "ls -la" := {| Command := str "ls -la"; Time := 1000000000; Duration := 0 |}]>
            (<[str "echo hi" := {| Command := str "echo hi"; Time := 1000000005;
                                   Duration := 0 |}]> ∅))).
  - vm_compute. reflexivity.
  - vm_compute. reflexivity.
Defined.

Lemma processHistoryFile_again fs name tok commands commands' :
  processHistoryFile fs name tok commands = Ok commands' →
  processHistoryFile fs name tok commands' = Ok commands'.
Proof.
  intros Hp.
  destruct (processHistoryFile_entries _ _ _ _ _ Hp) as (entries & -> & Hall & _).
  rewrite Hall. by rewrite foldl_merge_twice.
Qed.

(** Processing the same file a second time changes nothing. *)
Theorem file_twice_changes_nothing (fs : filesystem) (filename multilineCommand : gostring)
    (commands commands' : CommandMap) :
  processHistoryFile fs filename multilineCommand commands = Ok commands' →
  processHistoryFile fs filename multilineCommand commands' = Ok commands'.
Proof. apply processHistoryFile_again. Qed.

Lemma file_twice_changes_nothing_witness :
  processHistoryFile fs_ab (str "b.bak") tok0 table_ab = Ok table_ab.
Proof.
  apply (file_twice_changes_nothing fs_ab (str "b.bak") tok0
           (<[str "ls -la" := {| Command := str "ls -la"; Time := 1000000000; Duration := 0 |}]>
            (<[str "echo hi" := {| Command := str "echo hi"; Time := 1000000005;
                                   Duration := 0 |}]> ∅))).
  vm_compute. reflexivity.
Defined.

(** The order in which records are merged matters for ties only: the time
    stored for a command is the same for every order of the records, and
    so is the whole table when no two different records share both their
    command and their time. *)
Theorem merge_order_only_for_ties (entries entries' : list HistoryEntry) :
  entries ≡ₚ entries' →
  (∀ k, Time <$> (foldl merge_entry ∅ entries !! k) =
        Time <$> (foldl merge_entry ∅ entries' !! k)) ∧
  ((∀ x y, x ∈ entries → y ∈ entries → Command x = Command y → Time x = Time y → x = y) →
   foldl merge_entry ∅ entries = foldl merge_entry ∅ entries').
Proof.
  intros Hperm.
  assert (Hk : ∀ k,
    match foldl merge_entry ∅ entries !! k, foldl merge_entry ∅ entries' !! k with
    | Some e, Some e' => e ∈ entries ∧ e' ∈ entries ∧ Command e = Command e' ∧
                         Time e = Time e'
    | None, None => True
    | _, _ => False
    end).
  { intros k. pose proof (stored_greatest entries k) as H1.
    pose proof (stored_greatest entries' k) as H2.
    destruct (foldl merge_entry ∅ entries !! k) as [e|],
             (foldl merge_entry ∅ entries' !! k) as [e'|]; [|..|done].
    - destruct H1 as (He & Hc & Hmax), H2 as (He' & Hc' & Hmax').
      assert (He2 : e ∈ entries') by (by rewrite <- Hperm).
      assert (He'2 : e' ∈ entries) by (by rewrite Hperm).
      specialize (Hmax e' He'2 Hc'). specialize (Hmax' e He2 Hc).
      split; [done|]. split; [done|]. split; [congruence|lia].
    - destruct H1 as (He & Hc & _). apply (H2 e); [by rewrite <- Hperm|done].
    - destruct H2 as (He' & Hc' & _). apply (H1 e'); [by rewrite Hperm|done]. }
  split.
  - intros k. specialize (Hk k).
    destruct (foldl merge_entry ∅ entries !! k) as [e|],
             (foldl merge_entry ∅ entries' !! k) as [e'|]; try done.
    cbn. f_equal. tauto.
  - intros Hties. apply map_eq. intros k. specialize (Hk k).
    destruct (foldl merge_entry ∅ entries !! k) as [e|],
             (foldl merge_entry ∅ entries' !! k) as [e'|]; try done.
    destruct Hk as (He & He' & Hc & Ht). f_equal. by apply Hties.
Qed.

Lemma merge_order_only_for_ties_witness :
  (∀ k, Time <$> (foldl merge_entry ∅
                    [ {| Command := str "ls"; Time := 1700000000; Duration := 0 |};
                      {| Command := str "ls"; Time := 1700000000; Duration := 7 |} ] !! k) =
        Time <$> (foldl merge_entry ∅
                    [ {| Command := str "ls"; Time := 1700000000; Duration := 7 |};
                      {| Command := str "ls"; Time := 1700000000; Duration := 0 |} ] !! k)) ∧
  ((∀ x y,
      x ∈ [ {| Command := str "ls"; Time := 1700000000; Duration := 0 |};
            {| Command := str "ls"; Time := 1700000000; Duration := 7 |} ] →
      y ∈ [ {| Command := str "ls"; Time := 1700000000; Duration := 0 |};
            {| Command := str "ls"; Time := 1700000000; Duration := 7 |} ] →
      Command x = Command y → Time x = Time y → x = y) →
   foldl merge_entry ∅
     [ {| Command := str "ls"; Time := 1700000000; Duration := 0 |};
       {| Command := str "ls"; Time := 1700000000; Duration := 7 |} ] =
   foldl merge_entry ∅
     [ {| Command := str "ls"; Time := 1700000000; Duration := 7 |};
       {| Command := str "ls"; Time := 1700000000; Duration := 0 |} ]).
Proof.
  apply (merge_order_only_for_ties
           [ {| Command := str "ls"; Time := 1700000000; Duration := 0 |};
             {| Command := str "ls"; Time := 1700000000; Duration := 7 |} ]
           [ {| Command := str "ls"; Time := 1700000000; Duration := 7 |};
             {| Command := str "ls"; Time := 1700000000; Duration := 0 |} ]).
  apply perm_swap.
Defined.

(** * The sorter and emitter *)

Lemma range_fwd_order : range_order range_fwd.
Proof. by intros commands. Qed.

Lemma range_bwd_order : range_order range_bwd.
Proof.
  intros commands. unfold range_bwd. by rewrite <- (Permutation_rev (map_to_list commands).*2).
Qed.

(** C3 at a timestamp of eleven digits: the width 11 of the verb leaves no
    room for the space after the field marker, so the emitted line is not
    in the record form and the validator of the program rejects it. *)
Theorem eleven_digit_timestamp_loses_space :
  MatchString validLineRegex (str ": 12345678901:0;ls") = true ∧
  main now0 (fs_one (str "h") history_eleven_digits) [str "h"] range_fwd =
    Output (str ":12345678901:0;ls" ++ [LF]) ∧
  emit_entry tok0 {| Command := str "ls"; Time := 12345678901; Duration := 0 |} =
    str ":12345678901:0;ls" ++ [LF] ∧
  MatchString validLineRegex (str ":12345678901:0;ls") = false.
Proof. repeat split; reflexivity. Qed.

(** C5.  Whenever a run produces an output, the output is the sequence of
    the emitted lines of the records of the merge table, each once, in an
    order in which the times never decrease from one record to a later
    one. *)
Theorem output_sorted (now : Z) (fs : filesystem) (args : list gostring)
    (range : CommandMap → list HistoryEntry) (out : gostring) :
  range_order range →
  main now fs args range = Output out →
  ∃ commands entries,
    main_table now fs args = Ok commands ∧
    entries ≡ₚ (map_to_list commands).*2 ∧
    StronglySorted le_Time entries ∧
    out = concat (emit_entry (multilineCommand now) <$> entries).
Proof.
  intros Hrange Hmain. unfold main in Hmain.
  destruct args as [|arg args]; [done|].
  destruct (main_table now fs (arg :: args)) as [commands|e]; [|done].
  injection Hmain as <-.
  exists commands, (sort_Slice less_Time (range commands)).
  split; [done|]. split; [by rewrite sort_Slice_perm, (Hrange commands)|].
  split; [apply sort_Slice_sorted|done].
Qed.

Lemma output_sorted_witness :
  ∃ commands entries,
    main_table now0 fs_ab [str "b.bak"; str "a.bak"] = Ok commands ∧
    entries ≡ₚ (map_to_list commands).*2 ∧
    StronglySorted le_Time entries ∧
    str ": 1000000000:0;ls -la" ++ [LF] ++ str ": 1000000005:0;echo hi" ++ [LF]
      ++ str ": 1000000010:0;pwd" ++ [LF]
    = concat (emit_entry (multilineCommand now0) <$> entries).
Proof.
  apply (output_sorted now0 fs_ab [str "b.bak"; str "a.bak"] range_fwd);
    [apply range_fwd_order|by vm_compute].
Defined.

(** The claim of C9 fails as stated: two commands of the same second come
    out in either order, depending on the order in which the range over the
    map delivers them. *)
Lemma same_second_two_outputs :
  range_order range_fwd ∧ range_order range_bwd ∧
  main now0 (fs_one (str "h") history_same_second) [str "h"] range_fwd =
    Output (str ": 1700000000:0;ls" ++ [LF] ++ str ": 1700000000:0;pwd" ++ [LF]) ∧
  main now0 (fs_one (str "h") history_same_second) [str "h"] range_bwd =
    Output (str ": 1700000000:0;pwd" ++ [LF] ++ str ": 1700000000:0;ls" ++ [LF]).
Proof.
  split; [apply range_fwd_order|]. split; [apply range_bwd_order|].
  split; by vm_compute.
Qed.

(** C9, as the code has it.  Two runs on the same files with the same
    placeholder end alike, with the usage message or with the same fatal
    error, or they emit the same records, each sorted by time; when the
    times of the records of the merge table are pairwise distinct, the two
    outputs are the same byte for byte. *)
Theorem emission_determined_up_to_ties (now : Z) (fs : filesystem)
    (args : list gostring) (range1 range2 : CommandMap → list HistoryEntry) :
  range_order range1 →
  range_order range2 →
  match main now fs args range1, main now fs args range2 with
  | Usage, Usage => True
  | Fatal e1, Fatal e2 => e1 = e2
  | Output out1, Output out2 =>
      ∃ commands entries1 entries2,
        main_table now fs args = Ok commands ∧
        entries1 ≡ₚ entries2 ∧
        StronglySorted le_Time entries1 ∧ StronglySorted le_Time entries2 ∧
        out1 = concat (emit_entry (multilineCommand now) <$> entries1) ∧
        out2 = concat (emit_entry (multilineCommand now) <$> entries2) ∧
        (NoDup (Time <$> (map_to_list commands).*2) → out1 = out2)
  | _, _ => False
  end.
Proof.
  intros H1 H2. unfold main.
  destruct args as [|arg args]; [done|].
  destruct (main_table now fs (arg :: args)) as [commands|e]; [|done].
  exists commands, (sort_Slice less_Time (range1 commands)),
    (sort_Slice less_Time (range2 commands)).
  split; [done|]. split; [by rewrite !sort_Slice_perm, (H1 commands), (H2 commands)|].
  split; [apply sort_Slice_sorted|]. split; [apply sort_Slice_sorted|].
  split; [done|]. split; [done|].
  intros Hnd. unfold outputMergedCommands.
  rewrite (sort_Slice_unique (range1 commands) (range2 commands)); [done| |].
  - by rewrite (H1 commands), (H2 commands).
  - by rewrite (H1 commands).
Qed.

Lemma emission_determined_up_to_ties_witness :
  match main now0 fs_ab [str "b.bak"; str "a.bak"] range_fwd,
        main now0 fs_ab [str "b.bak"; str "a.bak"] range_bwd with
  | Usage, Usage => True
  | Fatal e1, Fatal e2 => e1 = e2
  | Output out1, Output out2 =>
      ∃ commands entries1 entries2,
        main_table now0 fs_ab [str "b.bak"; str "a.bak"] = Ok commands ∧
        entries1 ≡ₚ entries2 ∧
        StronglySorted le_Time entries1 ∧ StronglySorted le_Time entries2 ∧
        out1 = concat (emit_entry (multilineCommand now0) <$> entries1) ∧
        out2 = concat (emit_entry (multilineCommand now0) <$> entries2) ∧
        (NoDup (Time <$> (map_to_list commands).*2) → out1 = out2)
  | _, _ => False
  end.
Proof.
  apply (emission_determined_up_to_ties now0 fs_ab [str "b.bak"; str "a.bak"]
           range_fwd range_bwd); [apply range_fwd_order|apply range_bwd_order].
Defined.

(** * The sanitizer *)

(** ** Bytes and bit operations *)

Lemma z2b_b2z c : z2b (b2z c) = c.
Proof.
  unfold z2b, b2z. pose proof (N_ascii_bounded c).
  rewrite Z.mod_small by lia. rewrite N2Z.id. apply ascii_N_embedding.
Qed.

Lemma b2z_z2b z : b2z (z2b z) = z mod 256.
Proof.
  unfold z2b, b2z. pose proof (Z.mod_pos_bound z 256 eq_refl).
  rewrite N_ascii_embedding by lia. lia.
Qed.

Lemma z2b_eq z c : z = b2z c → z2b z = c.
Proof. intros ->. apply z2b_b2z. Qed.

Lemma land_low a k : 0 ≤ k → Z.land a (2 ^ k - 1) = a mod 2 ^ k.
Proof.
  intros Hk. rewrite <- Z.land_ones by done. f_equal.
  rewrite Z.ones_equiv. lia.
Qed.

Lemma lor_disjoint a b k :
  0 ≤ k → 0 ≤ b < 2 ^ k → a mod 2 ^ k = 0 → Z.lor a b = a + b.
Proof.
  intros Hk Hb Ha.
  assert (Hland : Z.land a b = 0).
  { apply Z.bits_inj'. intros n Hn. rewrite Z.land_spec, Z.bits_0.
    destruct (Z.lt_ge_cases n k) as [Hlow|Hhigh].
    - rewrite <- (Z.mod_pow2_bits_low a k n) by lia. by rewrite Ha, Z.bits_0.
    - rewrite <- (Z.mod_small b (2 ^ k)) by lia.
      rewrite Z.mod_pow2_bits_high by lia. apply andb_false_r. }
  rewrite <- Z.lxor_lor by done. symmetry. by apply Z.add_nocarry_lxor.
Qed.

Lemma land_maskx a : Z.land a maskx = a mod 64.
Proof. apply (land_low a 6). lia. Qed.
Lemma land_mask2 a : Z.land a mask2 = a mod 32.
Proof. apply (land_low a 5). lia. Qed.
Lemma land_mask3 a : Z.land a mask3 = a mod 16.
Proof. apply (land_low a 4). lia. Qed.
Lemma land_mask4 a : Z.land a mask4 = a mod 8.
Proof. apply (land_low a 3). lia. Qed.

Lemma lor_tx y : 0 ≤ y < 64 → Z.lor tx y = 128 + y.
Proof. intros. by apply (lor_disjoint tx y 6). Qed.
Lemma lor_t2 y : 0 ≤ y < 32 → Z.lor t2 y = 192 + y.
Proof. intros. by apply (lor_disjoint t2 y 5). Qed.
Lemma lor_t3 y : 0 ≤ y < 16 → Z.lor t3 y = 224 + y.
Proof. intros. by apply (lor_disjoint t3 y 4). Qed.
Lemma lor_t4 y : 0 ≤ y < 8 → Z.lor t4 y = 240 + y.
Proof. intros. by apply (lor_disjoint t4 y 3). Qed.

(** The value the decoder assembles from two, three and four bytes. *)
Lemma assemble2 x y :
  0 ≤ x → 0 ≤ y < 64 → Z.lor (Z.shiftl x 6) y = x * 64 + y.
Proof.
  intros. rewrite Z.shiftl_mul_pow2 by lia.
  rewrite (lor_disjoint _ y 6); [done|lia|done|].
  by rewrite Z.mod_mul.
Qed.

Lemma assemble3 x y z :
  0 ≤ x → 0 ≤ y < 64 → 0 ≤ z < 64 →
  Z.lor (Z.lor (Z.shiftl x 12) (Z.shiftl y 6)) z = x * 4096 + y * 64 + z.
Proof.
  intros. rewrite !Z.shiftl_mul_pow2 by lia.
  rewrite (lor_disjoint (x * 2 ^ 12) (y * 2 ^ 6) 12); [|lia|lia|by rewrite Z.mod_mul].
  rewrite (lor_disjoint _ z 6); [lia|lia|done|].
  replace (x * 2 ^ 12 + y * 2 ^ 6) with ((x * 64 + y) * 2 ^ 6) by lia.
  by rewrite Z.mod_mul.
Qed.

Lemma assemble4 x y z w :
  0 ≤ x → 0 ≤ y < 64 → 0 ≤ z < 64 → 0 ≤ w < 64 →
  Z.lor (Z.lor (Z.lor (Z.shiftl x 18) (Z.shiftl y 12)) (Z.shiftl z 6)) w
  = x * 262144 + y * 4096 + z * 64 + w.
Proof.
  intros. rewrite !Z.shiftl_mul_pow2 by lia.
  rewrite (lor_disjoint (x * 2 ^ 18) (y * 2 ^ 12) 18); [|lia|lia|by rewrite Z.mod_mul].
  rewrite (lor_disjoint _ (z * 2 ^ 6) 12); [|lia|lia|].
  2:{ replace (x * 2 ^ 18 + y * 2 ^ 12) with ((x * 64 + y) * 2 ^ 12) by lia.
      by rewrite Z.mod_mul. }
  rewrite (lor_disjoint _ w 6); [lia|lia|done|].
  replace (x * 2 ^ 18 + y * 2 ^ 12 + z * 2 ^ 6) with ((x * 4096 + y * 64 + z) * 2 ^ 6) by lia.
  by rewrite Z.mod_mul.
Qed.

(** ** The head of a string: what the decoder and the validator see *)

#[local] Ltac cmp :=
  repeat match goal with
    | |- context [Z.ltb ?a ?b] => destruct (Z.ltb_spec a b); try lia
    | |- context [Z.eqb ?a ?b] => destruct (Z.eqb_spec a b); try lia
    | |- context [Z.geb ?a ?b] => destruct (Z.geb_spec a b); try lia
    | |- context [Z.leb ?a ?b] => destruct (Z.leb_spec a b); try lia
    end.

Lemma first_cases b :
  0 ≤ b < 256 →
  (b < 0x80 ∧ first b = as_) ∨
  ((0x80 ≤ b < 0xC2 ∨ 0xF5 ≤ b) ∧ first b = xx) ∨
  (0xC2 ≤ b ≤ 0xDF ∧ first b = s1) ∨
  (b = 0xE0 ∧ first b = s2) ∨
  ((0xE1 ≤ b ≤ 0xEC ∨ 0xEE ≤ b ≤ 0xEF) ∧ first b = s3) ∨
  (b = 0xED ∧ first b = s4) ∨
  (b = 0xF0 ∧ first b = s5) ∨
  (0xF1 ≤ b ≤ 0xF3 ∧ first b = s6) ∨
  (b = 0xF4 ∧ first b = s7).
Proof.
  intros Hb. unfold first. cmp; intuition lia.
Qed.

#[local] Ltac consts x :=
  let sz := eval vm_compute in (Z.to_nat (Z.land x 7)) in
  let ar := eval vm_compute in (acceptRanges (Z.shiftr x 4)) in
  let ge := eval vm_compute in (x >=? as_) in
  let eqx := eval vm_compute in (x =? xx) in
  change (Z.to_nat (Z.land x 7)) with sz;
  change (acceptRanges (Z.shiftr x 4)) with ar;
  change (x >=? as_) with ge;
  change (x =? xx) with eqx.

Lemma out_of_range b lo hi :
  (b <? lo) || (hi <? b) = negb ((lo <=? b) && (b <=? hi)).
Proof. cmp; done. Qed.

#[local] Ltac cmp_on b :=
  repeat match goal with
    | |- context [Z.ltb b ?k] => destruct (Z.ltb_spec b k); try lia
    | |- context [Z.eqb b ?k] => destruct (Z.eqb_spec b k); try lia
    | |- context [Z.leb b ?k] => destruct (Z.leb_spec b k); try lia
    | |- context [Z.leb ?k b] => destruct (Z.leb_spec k b); try lia
    end.

#[local] Ltac ranges :=
  repeat match goal with
    | |- context [(?lo <=? ?b) && (?b <=? ?hi)] =>
        destruct ((lo <=? b) && (b <=? hi));
        cbn [andb orb negb length nth Nat.ltb Nat.leb Nat.eqb fmap list_fmap drop fst snd]
    end.

Lemma valid_head n s :
  s ≠ [] →
  valid_loop (S n) s =
    match head_width s with
    | Some k => valid_loop n (drop k s)
    | None => false
    end.
Proof.
  intros Hs. destruct s as [|c0 t]; [done|]. clear Hs.
  pose proof (b2z_range c0) as R0.
  unfold head_width, second_ok, is_cont. cbn [fmap list_fmap].
  cbn [valid_loop]. unfold byte_at, RuneSelf, locb, hicb.
  rewrite !out_of_range.
  destruct (first_cases (b2z c0) R0) as [[? ->]|[[? ->]|[[? ->]|[[? ->]|[[? ->]|[[? ->]|[[? ->]|[[? ->]|[? ->]]]]]]]]];
  match goal with |- context [Z.land ?x 7] => consts x end; cbv beta iota; cbn [fst snd];
  cmp_on (b2z c0); cbn [andb orb negb]; try done.
  all: destruct t as [|c1 [|c2 [|c3 t]]];
    cbn [andb orb negb length nth Nat.ltb Nat.leb Nat.eqb fmap list_fmap drop fst snd];
    try done; ranges; try done.
Qed.

#[local] Ltac ranges_eqn :=
  repeat match goal with
    | |- context [(?lo <=? ?b) && (?b <=? ?hi)] =>
        let E := fresh "E" in
        destruct ((lo <=? b) && (b <=? hi)) eqn:E;
        [apply andb_true_iff in E as [?%Z.leb_le ?%Z.leb_le]|clear E];
        cbn [andb orb negb length nth Nat.ltb Nat.leb Nat.eqb fmap list_fmap drop fst snd]
    end.

Lemma decode_head s :
  s ≠ [] →
  utf8_DecodeRuneInString s =
    match head_width s with
    | Some k => (rune_value s k, k)
    | None => (RuneError, 1%nat)
    end.
Proof.
  intros Hs. destruct s as [|c0 t]; [done|]. clear Hs.
  pose proof (b2z_range c0) as R0.
  unfold head_width, second_ok, is_cont, rune_value. cbn [fmap list_fmap].
  unfold utf8_DecodeRuneInString, byte_at, locb, hicb.
  cbv zeta. cbn [length nth Nat.ltb Nat.leb].
  rewrite !out_of_range.
  destruct (first_cases (b2z c0) R0) as [[? ->]|[[? ->]|[[? ->]|[[? ->]|[[? ->]|[[? ->]|[[? ->]|[[? ->]|[? ->]]]]]]]]];
  match goal with |- context [Z.land ?x 7] => consts x end; cbv beta iota zeta; cbn [fst snd];
  cmp_on (b2z c0); cbn [andb orb negb length nth Nat.ltb Nat.leb]; try done.
  all: destruct t as [|c1 [|c2 [|c3 t]]];
    cbn [andb orb negb length nth Nat.ltb Nat.leb Nat.eqb fmap list_fmap drop fst snd];
    try done; ranges_eqn; try done.
  all: f_equal; rewrite ?land_maskx, ?land_mask2, ?land_mask3, ?land_mask4.
  all: first [ rewrite assemble4 by (Z.div_mod_to_equations; lia)
             | rewrite assemble3 by (Z.div_mod_to_equations; lia)
             | rewrite assemble2 by (Z.div_mod_to_equations; lia) ];
       Z.div_mod_to_equations; lia.
Qed.

(** ** Well-formed characters *)

Lemma wf_seq_length u : wf_seq u → (1 ≤ length u ≤ 4)%nat.
Proof.
  unfold wf_seq. destruct u as [|c0 [|c1 [|c2 [|c3 [|]]]]]; simpl; try done; lia.
Qed.

Lemma head_width_wf u t : wf_seq u → head_width (u ++ t) = Some (length u).
Proof.
  unfold wf_seq, cont_byte, head_width, second_ok, is_cont.
  destruct u as [|c0 [|c1 [|c2 [|c3 [|]]]]]; simpl; try done; intros Hwf;
    cmp; cbn [andb orb negb]; try done; try lia.
Qed.

Lemma head_width_Some s k :
  head_width s = Some k → wf_seq (take k s) ∧ (k ≤ length s)%nat ∧ (1 ≤ k)%nat.
Proof.
  unfold wf_seq, cont_byte, head_width, second_ok, is_cont.
  destruct s as [|c0 t]; simpl; [done|].
  pose proof (b2z_range c0).
  cmp_on (b2z c0); cbn [andb orb negb]; try done.
  all: destruct t as [|c1 [|c2 [|c3 t]]]; simpl; try done; ranges_eqn;
    intros [= <-]; simpl; (split; [|lia]); try lia.
Qed.

Lemma head_width_None s u t : head_width s = None → s = u ++ t → ¬ wf_seq u.
Proof.
  intros Hnone -> Hwf. by rewrite head_width_wf in Hnone.
Qed.

Lemma rune_value_app u t : wf_seq u → rune_value (u ++ t) (length u) = rune_value u (length u).
Proof.
  intros Hwf. apply wf_seq_length in Hwf.
  destruct u as [|c0 [|c1 [|c2 [|c3 [|]]]]]; simpl in *; done || lia.
Qed.

#[local] Ltac enc_byte :=
  apply z2b_eq;
  rewrite ?Z.shiftr_div_pow2 by lia; rewrite ?b2z_z2b; rewrite ?land_maskx;
  first [ rewrite lor_tx by (Z.div_mod_to_equations; lia)
        | rewrite lor_t2 by (Z.div_mod_to_equations; lia)
        | rewrite lor_t3 by (Z.div_mod_to_equations; lia)
        | rewrite lor_t4 by (Z.div_mod_to_equations; lia)
        | idtac ];
  Z.div_mod_to_equations; lia.

Lemma wf_encode u : wf_seq u → utf8_EncodeRune (rune_value u (length u)) = u.
Proof.
  unfold wf_seq, cont_byte.
  destruct u as [|c0 [|c1 [|c2 [|c3 [|]]]]]; simpl; try done; intros Hwf;
    pose proof (b2z_range c0) as R0.
  - unfold utf8_EncodeRune, rune1Max. rewrite Z.mod_small by lia.
    destruct (Z.leb_spec (b2z c0) 127); [|lia]. by rewrite z2b_b2z.
  - set (r := (b2z c0 - 192) * 64 + (b2z c1 - 128)).
    assert (Hr : 0x80 ≤ r ≤ 0x7FF) by (unfold r; lia).
    unfold utf8_EncodeRune, rune1Max, rune2Max. rewrite Z.mod_small by lia.
    destruct (Z.leb_spec r 127); [lia|]. destruct (Z.leb_spec r 2047); [|lia].
    change (2 ^ 6) with 64. unfold r. repeat f_equal; enc_byte.
  - set (r := (b2z c0 - 224) * 4096 + (b2z c1 - 128) * 64 + (b2z c2 - 128)).
    assert (Hr : 0x800 ≤ r ≤ 0xFFFF ∧ ¬ (0xD800 ≤ r ≤ 0xDFFF)) by (unfold r; lia).
    unfold utf8_EncodeRune, rune1Max, rune2Max, rune3Max, MaxRune, surrogateMin, surrogateMax.
    rewrite Z.mod_small by lia.
    destruct (Z.leb_spec r 127); [lia|]. destruct (Z.leb_spec r 2047); [lia|].
    destruct (Z.ltb_spec 1114111 r); [lia|]. cbn [orb].
    destruct (Z.leb_spec 55296 r); destruct (Z.leb_spec r 57343); try lia; cbn [andb];
    (destruct (Z.leb_spec r 65535); [|lia]);
    unfold r; repeat f_equal; enc_byte.
  - set (r := (b2z c0 - 240) * 262144 + (b2z c1 - 128) * 4096 + (b2z c2 - 128) * 64 + (b2z c3 - 128)).
    assert (Hr : 0x10000 ≤ r ≤ 0x10FFFF) by (unfold r; lia).
    unfold utf8_EncodeRune, rune1Max, rune2Max, rune3Max, MaxRune, surrogateMin, surrogateMax.
    rewrite Z.mod_small by lia.
    destruct (Z.leb_spec r 127); [lia|]. destruct (Z.leb_spec r 2047); [lia|].
    destruct (Z.ltb_spec 1114111 r); [lia|]. cbn [orb].
    destruct (Z.leb_spec 55296 r); destruct (Z.leb_spec r 57343); try lia; cbn [andb];
    (destruct (Z.leb_spec r 65535); [lia|]);
    unfold r; repeat f_equal; enc_byte.
Qed.

(** ** The validator accepts exactly the valid texts *)

Lemma valid_loop_nil n : valid_loop n [] = true.
Proof. by destruct n. Qed.

Lemma valid_loop_concat us n :
  Forall wf_seq us → (length us ≤ n)%nat → valid_loop n (concat us) = true.
Proof.
  intros Hus. revert n. induction Hus as [|u us Hu Hus IH]; intros n Hn.
  - apply valid_loop_nil.
  - destruct n as [|n]; [simpl in Hn; lia|]. cbn [concat].
    pose proof (wf_seq_length u Hu).
    rewrite valid_head by (destruct u; [simpl in *; lia|done]).
    rewrite head_width_wf by done. rewrite drop_app_length.
    apply IH. simpl in Hn. lia.
Qed.

Lemma valid_loop_text n s : valid_loop n s = true → valid_text s.
Proof.
  revert s. induction n as [|n IH]; intros s Hv.
  - destruct s; [|done]. exists []. by split.
  - destruct (decide (s = [])) as [->|Hne]; [exists []; by split|].
    rewrite valid_head in Hv by done.
    destruct (head_width s) as [k|] eqn:Hk; [|done].
    apply head_width_Some in Hk as (Hwf & _ & _).
    destruct (IH _ Hv) as (us & Hs & Hus).
    exists (take k s :: us). split; [|by constructor].
    cbn [concat]. by rewrite <- Hs, take_drop.
Qed.

Lemma concat_wf_length us : Forall wf_seq us → (length us ≤ length (concat us))%nat.
Proof.
  induction 1 as [|u us Hu Hus IH]; simpl; [lia|].
  apply wf_seq_length in Hu. rewrite length_app. lia.
Qed.

Lemma ValidString_spec s : utf8_ValidString s = true ↔ valid_text s.
Proof.
  split; [apply valid_loop_text|].
  intros (us & -> & Hus). apply valid_loop_concat; [done|by apply concat_wf_length].
Qed.

(** ** The loop of the sanitizer *)

Lemma loop_step n s :
  s ≠ [] →
  invalidUTF8_loop (S n) s =
    match head_width s with
    | Some k => take k s ++ invalidUTF8_loop n (drop k s)
    | None => HASH :: invalidUTF8_loop n (drop 1 s)
    end.
Proof.
  intros Hne. destruct s as [|c t]; [done|]. cbn [invalidUTF8_loop].
  rewrite decode_head by done.
  destruct (head_width (c :: t)) as [k|] eqn:Hk.
  - pose proof (head_width_Some _ _ Hk) as (Hwf & Hlen & Hk1).
    assert (Hk' : length (take k (c :: t)) = k) by (rewrite length_take; lia).
    assert (Hnot : (rune_value (c :: t) k =? RuneError) && (k =? 1)%nat = false).
    { destruct (Nat.eqb_spec k 1) as [->|]; [|apply andb_false_r].
      rewrite andb_true_r. apply Z.eqb_neq. simpl. simpl in Hwf.
      unfold wf_seq in Hwf. simpl in Hwf. unfold RuneError. lia. }
    rewrite Hnot. f_equal.
    rewrite <- (wf_encode (take k (c :: t))) by done. f_equal.
    rewrite <- (rune_value_app (take k (c :: t)) (drop k (c :: t))) by done.
    by rewrite Hk', take_drop.
  - done.
Qed.

Lemma loop_Sanitized n s : (length s ≤ n)%nat → Sanitized s (invalidUTF8_loop n s).
Proof.
  revert s. induction n as [|n IH]; intros s Hn.
  - destruct s; [constructor|simpl in Hn; lia].
  - destruct (decide (s = [])) as [->|Hne]; [constructor|].
    rewrite loop_step by done.
    destruct (head_width s) as [k|] eqn:Hk.
    + apply head_width_Some in Hk as (Hwf & Hlen & Hk1).
      rewrite <- (take_drop k s) at 1.
      apply Sanitized_keep; [done|]. apply IH. rewrite length_drop. lia.
    + destruct s as [|c t]; [done|]. apply Sanitized_mark.
      * intros u t' Hs. by eapply head_width_None.
      * apply IH. simpl in *. rewrite drop_0. lia.
Qed.

Lemma wf_seq_marker : wf_seq [HASH].
Proof. by vm_compute. Qed.

Lemma Sanitized_valid s out : Sanitized s out → valid_text out ∧ length out = length s.
Proof.
  induction 1 as [|u s out Hu _ [(us & -> & Hus) Hlen]|c s out _ _ [(us & -> & Hus) Hlen]].
  - split; [|done]. exists []. by split.
  - split; [|rewrite !length_app; lia]. exists (u :: us). split; [done|by constructor].
  - split; [|simpl; lia]. exists ([HASH] :: us). split; [done|].
    constructor; [apply wf_seq_marker|done].
Qed.

Lemma wf_prefix_unique u t u' t' :
  wf_seq u → wf_seq u' → u ++ t = u' ++ t' → u = u' ∧ t = t'.
Proof.
  intros Hu Hu' Heq.
  assert (Hlen : length u = length u').
  { pose proof (head_width_wf u t Hu) as H1. pose proof (head_width_wf u' t' Hu') as H2.
    rewrite Heq in H1. congruence. }
  by apply app_inj_1.
Qed.

Lemma Sanitized_text_id s out : valid_text s → Sanitized s out → out = s.
Proof.
  intros (us & Hs & Hus) Hsan. revert us Hs Hus.
  induction Hsan as [|u s out Hu Hsan IH|c s out Hbad Hsan IH]; intros us Hs Hus.
  - done.
  - destruct Hus as [|u0 us0 Hu0 Hus0].
    + apply wf_seq_length in Hu. destruct u; simpl in *; [lia|done].
    + cbn [concat] in Hs. apply wf_prefix_unique in Hs as [-> ->]; [|done..].
      f_equal. by apply (IH us0).
  - destruct Hus as [|u0 us0 Hu0 Hus0]; [done|].
    exfalso. by eapply Hbad.
Qed.

Lemma Sanitized_text s : valid_text s → Sanitized s s.
Proof.
  intros (us & -> & Hus). induction Hus as [|u us Hu Hus IH]; [constructor|].
  cbn [concat]. by apply Sanitized_keep.
Qed.

Lemma invalidUTF8_Sanitized s : Sanitized s (invalidUTF8 s).
Proof.
  unfold invalidUTF8. destruct (utf8_ValidString s) eqn:Hv.
  - by apply Sanitized_text, ValidString_spec.
  - by apply loop_Sanitized.
Qed.

Lemma invalidUTF8_text_id s : valid_text s → invalidUTF8 s = s.
Proof. intros Hv. apply Sanitized_text_id; [done|apply invalidUTF8_Sanitized]. Qed.

(** For every byte string the sanitizer returns, without an error, a
    valid text which the validator of the program accepts: the input with
    every well-formed character kept and every byte at which no well-formed
    character starts replaced by the marker [#], one byte at a time, so
    that the length stays the same; an input that is valid already comes
    back unchanged. *)
Theorem invalidUTF8_sanitizes (s : gostring) :
  valid_text (invalidUTF8 s) ∧
  utf8_ValidString (invalidUTF8 s) = true ∧
  Sanitized s (invalidUTF8 s) ∧
  length (invalidUTF8 s) = length s ∧
  (utf8_ValidString s = true → invalidUTF8 s = s) ∧
  (valid_text s → invalidUTF8 s = s).
Proof.
  pose proof (invalidUTF8_Sanitized s) as Hsan.
  pose proof (Sanitized_valid _ _ Hsan) as [Hvalid Hlen].
  split; [done|]. split; [by apply ValidString_spec|]. split; [done|]. split; [done|].
  split.
  - intros Hv. unfold invalidUTF8. by rewrite Hv.
  - apply invalidUTF8_text_id.
Qed.

(** * The file arguments of [main] *)

Lemma b2z_inj x y : b2z x = b2z y → x = y.
Proof. intros H. rewrite <- (z2b_b2z x), <- (z2b_b2z y). by rewrite H. Qed.

Lemma string_less_cons x a y b :
  string_less (x :: a) (y :: b) =
    (b2z x <? b2z y) || (bool_decide (x = y) && string_less a b).
Proof. done. Qed.

Lemma string_less_cons_false x a y b :
  string_less (x :: a) (y :: b) = false ↔
  b2z y ≤ b2z x ∧ (x = y → string_less a b = false).
Proof.
  rewrite string_less_cons, orb_false_iff, Z.ltb_ge. case_bool_decide as Hxy.
  - rewrite andb_true_l. tauto.
  - rewrite andb_false_l. tauto.
Qed.

Lemma string_le_total a b : string_le a b ∨ string_le b a.
Proof.
  unfold string_le. revert b.
  induction a as [|x a IH]; intros [|y b]; [by left|by left|by right|].
  rewrite !string_less_cons_false.
  destruct (Z.lt_trichotomy (b2z x) (b2z y)) as [Hlt|[Heq|Hgt]].
  - left. split; [lia|]. intros ->. lia.
  - apply b2z_inj in Heq as ->. destruct (IH b) as [H|H]; [left|right]; split; (lia || done).
  - right. split; [lia|]. intros ->. lia.
Qed.

#[local] Instance string_le_trans : Transitive string_le.
Proof.
  unfold string_le. intros a. induction a as [|x a IH]; intros [|y b] [|z c]; try done.
  rewrite !string_less_cons_false. intros (Hyx & Hba) (Hzy & Hcb).
  split; [lia|]. intros ->.
  assert (y = x) as -> by (apply b2z_inj; lia).
  apply (IH b c); auto.
Qed.

#[local] Instance string_le_antisym : AntiSymm (=) string_le.
Proof.
  unfold string_le. intros a. induction a as [|x a IH]; intros [|y b]; try done.
  rewrite !string_less_cons_false. intros (Hyx & Hba) (Hxy & Hab).
  assert (y = x) as -> by (apply b2z_inj; lia).
  f_equal. apply IH; auto.
Qed.

Lemma string_less_le a b : string_less a b = true → string_le a b.
Proof.
  intros Hlt. destruct (string_le_total a b) as [H|H]; [done|].
  unfold string_le in H. congruence.
Qed.

Lemma sort_insert_string_sorted x l :
  StronglySorted string_le l → StronglySorted string_le (sort_insert string_less x l).
Proof.
  induction 1 as [|y l Hs IH Hall]; cbn [sort_insert]; [repeat constructor|].
  destruct (string_less y x) eqn:Hyx.
  - constructor; [done|]. rewrite sort_insert_perm. constructor; [|done].
    by apply string_less_le.
  - constructor; [by constructor|]. constructor; [done|].
    eapply Forall_impl; [exact Hall|]. intros z Hz. by etrans.
Qed.

Lemma sort_Strings_sorted l : StronglySorted string_le (sort_Strings l).
Proof.
  unfold sort_Strings, sort_Slice. induction l as [|x l IH]; cbn [foldr]; [constructor|].
  by apply sort_insert_string_sorted.
Qed.

(** [sort.Strings] gives every order of the same arguments the same
    sequence. *)
Lemma sort_Strings_perm l l' : l ≡ₚ l' → sort_Strings l = sort_Strings l'.
Proof.
  intros Hperm. apply (StronglySorted_unique string_le); [apply sort_Strings_sorted..|].
  unfold sort_Strings. by rewrite !sort_Slice_perm.
Qed.

(** An argument given once more is sorted next to its first copy. *)
Lemma sort_insert_dup a l :
  StronglySorted string_le l → a ∈ l →
  ∃ l1 l2, l = l1 ++ a :: l2 ∧ sort_insert string_less a l = l1 ++ a :: a :: l2.
Proof.
  induction 1 as [|y l Hs IH Hall]; intros Ha; [by apply elem_of_nil in Ha|].
  cbn [sort_insert]. destruct (string_less y a) eqn:Hya.
  - apply elem_of_cons in Ha as [->|Ha].
    { pose proof (string_less_le _ _ Hya) as Hle. unfold string_le in Hle. congruence. }
    destruct (IH Ha) as (l1 & l2 & -> & ->). by exists (y :: l1), l2.
  - assert (y = a) as ->.
    { apply elem_of_cons in Ha as [->|Ha]; [done|].
      rewrite Forall_forall in Hall. apply (anti_symm string_le); [by apply Hall|done]. }
    by exists [], l.
Qed.

Lemma process_files_app fs l1 l2 tok m :
  process_files fs (l1 ++ l2) tok m =
    (m1 ← process_files fs l1 tok m; process_files fs l2 tok m1).
Proof.
  revert m. induction l1 as [|f l1 IH]; intros m; [done|].
  cbn [app process_files]. destruct (processHistoryFile fs f tok m); cbn; [apply IH|done].
Qed.

Lemma process_files_dup fs l1 a l2 tok m :
  process_files fs (l1 ++ a :: a :: l2) tok m = process_files fs (l1 ++ a :: l2) tok m.
Proof.
  rewrite !process_files_app. destruct (process_files fs l1 tok m) as [m1|]; cbn; [|done].
  destruct (processHistoryFile fs a tok m1) as [m2|] eqn:Hf; cbn; [|done].
  by rewrite (processHistoryFile_again _ _ _ _ _ Hf).
Qed.

Lemma process_files_unreadable fs files tok m a :
  a ∈ files →
  (fs a = None ∨ ∃ data e, fs a = Some data ∧ readFileContent data = Err e) →
  ∃ e, process_files fs files tok m = Err e.
Proof.
  intros Ha Hbad. revert m. induction files as [|f files IH]; intros m.
  { by apply elem_of_nil in Ha. }
  cbn [process_files]. destruct (processHistoryFile fs f tok m) as [m1|e] eqn:Hf; cbn.
  - apply elem_of_cons in Ha as [->|Ha]; [|by apply IH].
    exfalso. unfold processHistoryFile in Hf.
    destruct Hbad as [Hnone|(data & e & Hsome & Hread)].
    + by rewrite Hnone in Hf.
    + by rewrite Hsome, Hread in Hf.
  - by exists e.
Qed.

(** The outcome of a run does not depend on the order in which the files
    are named on the command line. *)
Theorem main_args_order_irrelevant (now : Z) (fs : filesystem)
    (args args' : list gostring) (range : CommandMap → list HistoryEntry) :
  args ≡ₚ args' →
  main now fs args range = main now fs args' range.
Proof.
  intros Hperm. unfold main, main_table.
  rewrite (sort_Strings_perm _ _ Hperm).
  destruct args as [|a args], args' as [|a' args']; try done.
  - by apply Permutation_nil_cons in Hperm.
  - symmetry in Hperm. by apply Permutation_nil_cons in Hperm.
Qed.

Lemma main_args_order_irrelevant_witness :
  main now0 fs_ab [str "b.bak"; str "a.bak"] range_fwd =
  main now0 fs_ab [str "a.bak"; str "b.bak"] range_fwd.
Proof.
  apply (main_args_order_irrelevant now0 fs_ab [str "b.bak"; str "a.bak"]
           [str "a.bak"; str "b.bak"] range_fwd).
  apply perm_swap.
Defined.

(** Naming a file a second time on the command line changes nothing. *)
Theorem main_repeated_file (now : Z) (fs : filesystem) (a : gostring)
    (args : list gostring) (range : CommandMap → list HistoryEntry) :
  a ∈ args →
  main now fs (a :: args) range = main now fs args range.
Proof.
  intros Ha. unfold main, main_table.
  destruct args as [|b args]; [by apply elem_of_nil in Ha|].
  change (sort_Strings (a :: b :: args))
    with (sort_insert string_less a (sort_Strings (b :: args))).
  assert (Ha' : a ∈ sort_Strings (b :: args)).
  { unfold sort_Strings. by rewrite sort_Slice_perm. }
  destruct (sort_insert_dup a _ (sort_Strings_sorted (b :: args)) Ha')
    as (l1 & l2 & Hl & ->).
  rewrite Hl. by rewrite process_files_dup.
Qed.

Lemma main_repeated_file_witness :
  main now0 fs_ab [str "b.bak"; str "a.bak"; str "b.bak"] range_fwd =
  main now0 fs_ab [str "a.bak"; str "b.bak"] range_fwd.
Proof.
  apply (main_repeated_file now0 fs_ab (str "b.bak") [str "a.bak"; str "b.bak"] range_fwd).
  apply list_elem_of_further, list_elem_of_here.
Defined.

(** A file that cannot be opened, or cannot be read to its end, makes the
    run fatal, wherever it stands among the arguments: nothing is written
    to the standard output. *)
Theorem unreadable_file_is_fatal (now : Z) (fs : filesystem) (args : list gostring)
    (range : CommandMap → list HistoryEntry) (a : gostring) :
  a ∈ args →
  (fs a = None ∨ ∃ data e, fs a = Some data ∧ readFileContent data = Err e) →
  ∃ e, main now fs args range = Fatal e.
Proof.
  intros Ha Hbad. unfold main, main_table.
  destruct args as [|b args]; [by apply elem_of_nil in Ha|].
  assert (Ha' : a ∈ sort_Strings (b :: args)).
  { unfold sort_Strings. by rewrite sort_Slice_perm. }
  destruct (process_files_unreadable fs _ (multilineCommand now) ∅ a Ha' Hbad) as (e & ->).
  by exists e.
Qed.

Lemma unreadable_file_is_fatal_witness :
  ∃ e, main now0 fs_ab [str "a.bak"; str "missing"] range_fwd = Fatal e.
Proof.
  apply (unreadable_file_is_fatal now0 fs_ab [str "a.bak"; str "missing"] range_fwd
           (str "missing")).
  - apply list_elem_of_further, list_elem_of_here.
  - left. vm_compute. reflexivity.
Defined.

(** * Formatting numbers and reading them back *)

Lemma digit_char_digit d : 0 ≤ d ≤ 9 → is_digit (digit_char d) = true ∧ b2z (digit_char d) - 48 = d.
Proof.
  intros Hd. unfold is_digit, digit_char. rewrite b2z_z2b.
  rewrite Z.mod_small by lia. split; [|lia].
  apply andb_true_iff. split; apply Z.leb_le; lia.
Qed.

Lemma fmt_digits_app rounds u acc :
  fmt_digits rounds u acc = fmt_digits rounds u [] ++ acc.
Proof.
  revert u acc. induction rounds as [|rounds IH]; intros u acc; simpl; [done|].
  destruct (u <? 10); [done|].
  rewrite IH, (IH _ [_]). by rewrite <- app_assoc.
Qed.

Lemma fmt_digits_snoc rounds u :
  10 ≤ u →
  fmt_digits (S rounds) u [] = fmt_digits rounds (u / 10) [] ++ [digit_char (u mod 10)].
Proof.
  intros Hu. simpl. destruct (Z.ltb_spec u 10); [lia|]. apply fmt_digits_app.
Qed.

Lemma decimal_snoc ds c : decimal (ds ++ [c]) = decimal ds * 10 + (b2z c - 48).
Proof. unfold decimal. by rewrite foldl_app. Qed.

Lemma all_digits_snoc ds c : all_digits ds → is_digit c = true → all_digits (ds ++ [c]).
Proof. intros. apply Forall_app. split; [done|by constructor]. Qed.

(** Within its rounds, the digit loop writes the decimal digits of [u],
    without a leading zero. *)
Lemma fmt_digits_spec rounds u :
  0 ≤ u < 10 ^ Z.of_nat (S rounds) →
  all_digits (fmt_digits (S rounds) u []) ∧
  decimal (fmt_digits (S rounds) u []) = u ∧
  fmt_digits (S rounds) u [] ≠ [] ∧
  ∀ j, 10 ^ j ≤ u < 10 ^ (j + 1) → 0 ≤ j →
       Z.of_nat (length (fmt_digits (S rounds) u [])) = j + 1.
Proof.
  revert u. induction rounds as [|rounds IH]; intros u Hu.
  all: destruct (Z.lt_ge_cases u 10) as [Hsmall|Hbig]; [|try (simpl in Hu; lia)].
  1,2: simpl; destruct (Z.ltb_spec u 10); [|lia];
    destruct (digit_char_digit u) as [Hd Hv]; [lia|];
    (split; [by repeat constructor|]);
    (split; [unfold decimal; simpl; unfold decimal_step; lia|]);
    (split; [done|]); intros j Hj Hj0; simpl;
    destruct (Z.eq_dec j 0) as [->|]; [done|];
    assert (10 ^ 1 ≤ 10 ^ j) by (apply Z.pow_le_mono_r; lia); lia.
  rewrite fmt_digits_snoc by done.
  assert (Hq : 0 ≤ u / 10 < 10 ^ Z.of_nat (S rounds)).
  { rewrite (Nat2Z.inj_succ (S rounds)), Z.pow_succ_r in Hu by lia.
    split; [apply Z.div_pos; lia|]. apply Z.div_lt_upper_bound; lia. }
  destruct (IH _ Hq) as (Hds & Hval & Hne & Hlen).
  destruct (digit_char_digit (u mod 10)) as [Hd Hv].
  { pose proof (Z.mod_pos_bound u 10). lia. }
  split; [by apply all_digits_snoc|].
  split; [rewrite decimal_snoc, Hval, Hv; pose proof (Z.div_mod u 10); lia|].
  split; [by destruct (fmt_digits (S rounds) (u / 10) [])|].
  intros j Hj Hj0.
  assert (Hj1 : 1 ≤ j).
  { destruct (Z.eq_dec j 0) as [->|]; [|lia]. simpl in Hj. lia. }
  assert (Hpow : 10 ^ j = 10 * 10 ^ (j - 1)).
  { rewrite <- Z.pow_succ_r by lia. f_equal. lia. }
  assert (Hpow' : 10 ^ (j + 1) = 10 * 10 ^ j).
  { rewrite <- Z.pow_succ_r by lia. f_equal. }
  rewrite length_app, Nat2Z.inj_add, (Hlen (j - 1));
    [change (Z.of_nat (length [digit_char (u mod 10)])) with 1; lia| |lia].
  replace (j - 1 + 1) with j by lia.
  split.
  - apply Z.div_le_lower_bound; lia.
  - apply Z.div_lt_upper_bound; lia.
Qed.

Lemma fmt_d_nonneg v :
  0 ≤ v ≤ maxInt64 →
  all_digits (fmt_d v) ∧ decimal (fmt_d v) = v ∧ fmt_d v ≠ [].
Proof.
  intros Hv. unfold fmt_d. destruct (Z.ltb_spec v 0); [lia|].
  destruct (fmt_digits_spec 19 v) as (? & ? & ? & _); [|done].
  change (10 ^ Z.of_nat 20) with 100000000000000000000.
  unfold maxInt64 in Hv. lia.
Qed.

Lemma fmt_d_ten_digits t :
  1000000000 ≤ t < 10000000000 → length (fmt_d t) = 10%nat.
Proof.
  intros Ht. unfold fmt_d. destruct (Z.ltb_spec t 0); [lia|].
  destruct (fmt_digits_spec 19 t) as (_ & _ & _ & Hlen).
  { change (10 ^ Z.of_nat 20) with 100000000000000000000. lia. }
  specialize (Hlen 9).
  change (10 ^ 9) with 1000000000 in Hlen.
  change (10 ^ (9 + 1)) with 10000000000 in Hlen. lia.
Qed.

(** The width 11 of the verb puts exactly one space before a timestamp of
    ten digits. *)
Lemma fmt_width_ten t :
  1000000000 ≤ t < 10000000000 → fmt_width 11 (fmt_d t) = SP :: fmt_d t.
Proof. intros Ht. unfold fmt_width. by rewrite fmt_d_ten_digits. Qed.

(** * The placeholder *)

Lemma fmt_digits_digits rounds u : 0 ≤ u → all_digits (fmt_digits rounds u []).
Proof.
  revert u. induction rounds as [|rounds IH]; intros u Hu; simpl; [constructor|].
  destruct (Z.ltb_spec u 10).
  - destruct (digit_char_digit u) as [Hd _]; [lia|]. by repeat constructor.
  - rewrite fmt_digits_app. apply all_digits_snoc.
    + apply IH. apply Z.div_pos; lia.
    + pose proof (Z.mod_pos_bound u 10).
      destruct (digit_char_digit (u mod 10)) as [Hd _]; [lia|done].
Qed.

Lemma fmt_d_chars v c : c ∈ fmt_d v → is_digit c = true ∨ c = "-"%char.
Proof.
  unfold fmt_d. destruct (Z.ltb_spec v 0).
  - intros [->|Hin]%elem_of_cons; [by right|]. left.
    pose proof (fmt_digits_digits 20 (- v)) as Hd. unfold all_digits in Hd.
    rewrite Forall_forall in Hd. apply Hd; [lia|done].
  - intros Hin. left.
    pose proof (fmt_digits_digits 20 v) as Hd. unfold all_digits in Hd.
    rewrite Forall_forall in Hd. by apply Hd.
Qed.

(** The placeholder of every run is not empty, holds no newline, and starts
    with a byte that occurs nowhere else in it. *)
Lemma multilineCommand_shape now :
  self_delimiting (multilineCommand now) ∧ (LF ∉ multilineCommand now) ∧
  multilineCommand now ≠ [].
Proof.
  unfold multilineCommand.
  assert (Hfmt : ∀ c, is_digit c = false → c ≠ "-"%char → c ∉ fmt_d now).
  { intros c Hc Hm Hin. apply fmt_d_chars in Hin as [?|?]; congruence. }
  split; [|split; [|done]].
  - change (str "TO_BE_REMOVED_" ++ fmt_d now)
      with ("T"%char :: str "O_BE_REMOVED_" ++ fmt_d now).
    cbn [self_delimiting]. rewrite not_elem_of_app. split; [|by apply Hfmt].
    apply (bool_decide_eq_false_1 _). by vm_compute.
  - rewrite not_elem_of_app. split; [|by apply Hfmt].
    apply (bool_decide_eq_false_1 _). by vm_compute.
Qed.

(** ** Finding and replacing the placeholder *)

Lemma occurs_cons sub c s : occurs sub s → occurs sub (c :: s).
Proof. intros (p & q & ->). by exists (c :: p), q. Qed.

Lemma Index_at tok p rest :
  self_delimiting tok → ¬ occurs tok p →
  strings_Index (p ++ tok ++ rest) tok = Some (length p).
Proof.
  intros Hself. induction p as [|c p IH]; intros Hfree; rewrite Index_unfold.
  - cbn [app]. replace (strings_HasPrefix (tok ++ rest) tok) with true; [done|].
    symmetry. apply HasPrefix_spec. eauto.
  - replace (strings_HasPrefix ((c :: p) ++ tok ++ rest) tok) with false.
    + cbn [app length]. rewrite IH; [done|].
      intros Hocc. apply Hfree. by apply occurs_cons.
    + symmetry. apply not_true_iff_false. intros [t Ht]%HasPrefix_spec.
      destruct tok as [|a tl]; [done|]. cbn [self_delimiting] in Hself.
      apply app_eq_inv in Ht as [(k & Hp & Ht)|(k & Htok & Ht)].
      * apply Hfree. exists [], k. by rewrite Hp.
      * destruct k as [|b k].
        -- rewrite app_nil_r in Htok. apply Hfree. rewrite Htok. apply occurs_refl.
        -- cbn [app] in Htok, Ht. simplify_eq. apply Hself.
           rewrite elem_of_app. right. by left.
Qed.

Lemma replace_loop_Join tok new pieces rounds :
  self_delimiting tok →
  Forall (λ p, ¬ occurs tok p) pieces →
  (length (strings_Join pieces tok) ≤ rounds)%nat →
  replace_loop rounds (strings_Join pieces tok) tok new = strings_Join pieces new.
Proof.
  intros Hself Hfree. revert rounds.
  induction Hfree as [|p rest Hp Hrest IH]; intros rounds Hlen.
  - destruct tok as [|a tl]; [done|]. by destruct rounds.
  - destruct rest as [|p' rest].
    + cbn [strings_Join]. apply Index_None in Hp.
      destruct rounds; cbn [replace_loop]; [done|]. by rewrite Hp.
    + rewrite !Join_cons in * by done.
      assert (Htok : (1 ≤ length tok)%nat) by (destruct tok; [done|simpl; lia]).
      rewrite !length_app in Hlen.
      destruct rounds as [|rounds]; [lia|]. cbn [replace_loop].
      rewrite Index_at by done.
      rewrite take_app_length.
      rewrite (app_assoc p tok), <- (length_app p tok), drop_app_length.
      rewrite IH by lia. done.
Qed.

(** The emitter turns every placeholder that joins two lines back into a
    backslash and a newline, and nothing else. *)
Lemma ReplaceAll_Join tok new pieces :
  self_delimiting tok →
  Forall (λ p, ¬ occurs tok p) pieces →
  strings_ReplaceAll (strings_Join pieces tok) tok new = strings_Join pieces new.
Proof.
  intros Hself Hfree. unfold strings_ReplaceAll.
  destruct tok as [|c tl]; [done|]. by apply replace_loop_Join.
Qed.

Lemma Join_free c pieces sep :
  c ∉ sep → Forall (λ p, c ∉ p) pieces → c ∉ strings_Join pieces sep.
Proof.
  intros Hsep. induction 1 as [|p rest Hp Hrest IH]; [by intros ?%elem_of_nil|].
  destruct rest as [|p' rest]; [done|].
  rewrite Join_cons by done. rewrite !not_elem_of_app. done.
Qed.

(** * The pipeline on a well-behaved history *)

(** ** The loader *)

Lemma Split_lines ls :
  Forall (λ l, LF ∉ l) ls →
  strings_Split (concat ((λ l, l ++ [LF]) <$> ls)) LF = ls ++ [[]].
Proof.
  induction 1 as [|l ls Hl Hls IH]; [done|].
  cbn [fmap list_fmap concat]. rewrite <- app_assoc. cbn [app].
  rewrite Split_app by done. by rewrite IH.
Qed.

Lemma continued_cons l rest :
  rest ≠ [] → continued (l :: rest) = (l ++ [BSL]) :: continued rest.
Proof. by destruct rest. Qed.

Lemma continued_text lines :
  lines ≠ [] →
  strings_Join lines [BSL; LF] ++ [LF] = concat ((λ l, l ++ [LF]) <$> continued lines).
Proof.
  induction lines as [|l rest IH]; [done|]. intros _.
  destruct rest as [|l' rest].
  - simpl. by rewrite app_nil_r.
  - rewrite Join_cons, continued_cons by done. cbn [fmap list_fmap concat].
    rewrite <- IH by done. by rewrite <- !app_assoc.
Qed.

Lemma continued_nonempty lines : lines ≠ [] → continued lines ≠ [].
Proof. destruct lines as [|l [|l' rest]]; done. Qed.

Lemma raw_text_phys r :
  raw_lines r ≠ [] → raw_text r = concat ((λ l, l ++ [LF]) <$> phys_lines r).
Proof.
  intros Hne. unfold raw_text, phys_lines. rewrite continued_text by done.
  pose proof (continued_nonempty _ Hne).
  destruct (continued (raw_lines r)) as [|l ls]; [done|].
  cbn [fmap list_fmap concat]. by rewrite <- !app_assoc.
Qed.

Lemma history_phys rs :
  Forall (λ r, raw_lines r ≠ []) rs →
  history rs = concat ((λ l, l ++ [LF]) <$> concat (phys_lines <$> rs)).
Proof.
  unfold history. induction 1 as [|r rs Hr Hrs IH]; [done|].
  cbn [fmap list_fmap concat]. rewrite fmap_app, concat_app.
  by rewrite IH, raw_text_phys.
Qed.

Lemma raw_header_free r c :
  is_digit c = false → c ≠ COLON → c ≠ SP → c ≠ SEMI →
  all_digits (raw_ts r) → all_digits (raw_dur r) → c ∉ raw_header r.
Proof.
  intros Hc H1 H2 H3 Hts Hdur. unfold raw_header.
  rewrite !not_elem_of_cons, not_elem_of_app, not_elem_of_cons, not_elem_of_app,
    not_elem_of_cons.
  repeat split; try done; try (by apply digits_free). by intros ?%elem_of_nil.
Qed.

Lemma continued_plain lines :
  Forall (λ l, LF ∉ l) lines → Forall (λ l, LF ∉ l) (continued lines).
Proof.
  induction 1 as [|l rest Hl Hrest IH]; [constructor|].
  destruct rest as [|l' rest]; [by repeat constructor|].
  rewrite continued_cons by done. constructor; [|done].
  rewrite not_elem_of_app. split; [done|]. by intros [?|?%elem_of_nil]%elem_of_cons.
Qed.

Lemma phys_lines_plain r : well_behaved r → Forall (λ l, LF ∉ l) (phys_lines r).
Proof.
  intros Hwb. pose proof (continued_plain _ (wb_plain r Hwb)) as Hc.
  assert (Hh : LF ∉ raw_header r).
  { apply raw_header_free; try done; [apply (wb_ts r Hwb)|apply (wb_dur r Hwb)]. }
  unfold phys_lines. destruct (continued (raw_lines r)) as [|l ls]; [by repeat constructor|].
  apply Forall_cons in Hc as [Hl Hls]. constructor; [|done].
  by rewrite not_elem_of_app.
Qed.

Lemma continued_last lines c :
  c ≠ BSL →
  (∀ l, last lines = Some l → last l ≠ Some c) →
  Forall (λ l, last l ≠ Some c) (continued lines).
Proof.
  intros Hc. induction lines as [|l rest IH]; intros Hlast; [constructor|].
  destruct rest as [|l' rest].
  - constructor; [|constructor]. by apply Hlast.
  - rewrite continued_cons by done. constructor.
    + rewrite last_snoc. congruence.
    + apply IH. intros l0 Hl0. apply Hlast. by rewrite last_cons_cons.
Qed.

Lemma raw_header_last r c : c ≠ SEMI → last (raw_header r) ≠ Some c.
Proof.
  intros Hc. unfold raw_header.
  replace (COLON :: SP :: raw_ts r ++ COLON :: raw_dur r ++ [SEMI])
    with ((COLON :: SP :: raw_ts r ++ COLON :: raw_dur r) ++ [SEMI])
    by (by simpl; rewrite <- app_assoc).
  rewrite last_snoc. congruence.
Qed.

Lemma last_prefixed (prefix l : gostring) c :
  last prefix ≠ Some c → last l ≠ Some c → last (prefix ++ l) ≠ Some c.
Proof.
  intros Hp Hl. rewrite last_app. destruct (last l); [done|done].
Qed.

Lemma phys_lines_last r c :
  c ≠ BSL → c ≠ SEMI →
  (∀ l, last (raw_lines r) = Some l → last l ≠ Some c) →
  Forall (λ l, last l ≠ Some c) (phys_lines r).
Proof.
  intros Hc1 Hc2 Hlast. pose proof (continued_last _ c Hc1 Hlast) as Hcont.
  unfold phys_lines. destruct (continued (raw_lines r)) as [|l ls].
  - constructor; [|constructor]. by apply raw_header_last.
  - apply Forall_cons in Hcont as [Hl Hls]. constructor; [|done].
    apply last_prefixed; [by apply raw_header_last|done].
Qed.

Lemma concat_lines_length (ls : list gostring) l :
  l ∈ ls → (length l < length (concat ((λ l, l ++ [LF]) <$> ls)))%nat.
Proof.
  induction ls as [|l0 ls IH]; [by intros ?%elem_of_nil|].
  cbn [fmap list_fmap concat]. rewrite !length_app. simpl length.
  intros [->|Hin]%elem_of_cons; [lia|]. specialize (IH Hin). lia.
Qed.

Lemma phys_lines_short r :
  well_behaved r → Forall (λ l, (length l < MaxScanTokenSize)%nat) (phys_lines r).
Proof.
  intros Hwb. apply Forall_forall. intros l Hl.
  pose proof (wb_short r Hwb) as Hshort.
  rewrite (raw_text_phys r (wb_lines r Hwb)) in Hshort.
  pose proof (concat_lines_length _ _ Hl). lia.
Qed.

Lemma dropCR_id l : last l ≠ Some CR → dropCR l = l.
Proof.
  intros Hl. unfold dropCR. by rewrite (proj2 (HasSuffix_byte_false l CR) Hl).
Qed.

Lemma valid_text_app a b : valid_text a → valid_text b → valid_text (a ++ b).
Proof.
  intros (us & -> & Hus) (vs & -> & Hvs). exists (us ++ vs).
  split; [by rewrite concat_app|by apply Forall_app].
Qed.

Lemma history_valid rs : Forall well_behaved rs → valid_text (history rs).
Proof.
  unfold history. induction 1 as [|r rs Hr Hrs IH]; [by exists []|].
  cbn [fmap list_fmap concat]. apply valid_text_app; [apply (wb_text r Hr)|done].
Qed.

(** The loader hands a well-behaved history on as it is. *)
Lemma readFileContent_history rs :
  Forall well_behaved rs → readFileContent (Readable (history rs)) = Ok (history rs).
Proof.
  intros Hwb. unfold readFileContent, scan_lines.
  assert (Hne : Forall (λ r, raw_lines r ≠ []) rs).
  { eapply Forall_impl; [exact Hwb|]. intros r Hr. apply (wb_lines r Hr). }
  remember (concat (phys_lines <$> rs)) as phys eqn:Hphys.
  assert (Hplain : Forall (λ l, LF ∉ l) phys).
  { subst phys. apply Forall_concat, Forall_fmap. eapply Forall_impl; [exact Hwb|].
    intros r Hr. by apply phys_lines_plain. }
  assert (Hcr : Forall (λ l, last l ≠ Some CR) phys).
  { subst phys. apply Forall_concat, Forall_fmap. eapply Forall_impl; [exact Hwb|].
    intros r Hr. apply phys_lines_last; [done|done|]. intros l Hl. by apply (wb_last r Hr). }
  assert (Hshort : Forall (λ l, (length l < MaxScanTokenSize)%nat) phys).
  { subst phys. apply Forall_concat, Forall_fmap. eapply Forall_impl; [exact Hwb|].
    intros r Hr. by apply phys_lines_short. }
  pose proof (history_valid rs Hwb) as Hvalid.
  rewrite (history_phys rs Hne) in Hvalid |- *.
  subst phys.
  rewrite Split_lines by done.
  rewrite last_snoc, bool_decide_true by done. rewrite removelast_last.
  replace (forallb (λ t, (length t <? MaxScanTokenSize)%nat) (concat (phys_lines <$> rs)))
    with true.
  2:{ symmetry. apply forallb_forall. intros l Hl%list_elem_of_In.
      rewrite Forall_forall in Hshort. apply Nat.ltb_lt. by apply Hshort. }
  cbn [mbind result_bind].
  replace (dropCR <$> concat (phys_lines <$> rs)) with (concat (phys_lines <$> rs)).
  2:{ clear -Hcr. induction Hcr as [|l ls Hl Hls IH]; [done|].
      cbn [fmap list_fmap]. by rewrite dropCR_id, <- IH. }
  f_equal. by apply invalidUTF8_text_id.
Qed.

(** ** The normalizer *)

Lemma ts_prefix_snoc s c : is_digit c = false → ts_prefix (s ++ [c]) → ts_prefix s.
Proof.
  intros Hc (ws & ds & rest & Hs & Hws & Hds & Hn).
  destruct (decide (rest = [])) as [->|Hrest].
  - exfalso. rewrite app_nil_r in Hs.
    destruct ds as [|d ds _] using rev_ind; [simpl in Hn; lia|].
    rewrite app_comm_cons, app_assoc in Hs. apply app_inj_tail in Hs as [_ ->].
    apply Forall_app in Hds as [_ Hd]. apply Forall_inv in Hd. congruence.
  - destruct rest as [|x rest _] using rev_ind; [done|].
    rewrite app_comm_cons, !app_assoc in Hs. apply app_inj_tail in Hs as [-> _].
    exists ws, ds, rest. by rewrite <- !app_assoc.
Qed.

Lemma ts_occurs_snoc s c : is_digit c = false → ts_occurs (s ++ [c]) → ts_occurs s.
Proof.
  intros Hc (pre & tail & Hs & Ht).
  destruct tail as [|x tail _] using rev_ind.
  { destruct Ht as (?&?&?&?&_). done. }
  rewrite app_assoc in Hs. apply app_inj_tail in Hs as [-> ->].
  exists pre, tail. split; [done|]. by eapply ts_prefix_snoc.
Qed.

Lemma continued_head lines :
  Forall (λ l, ¬ ts_occurs l) lines →
  Forall (λ l, ¬ ts_occurs l) (continued lines).
Proof.
  induction 1 as [|l rest Hl Hrest IH]; [constructor|].
  destruct rest as [|l' rest]; [by repeat constructor|].
  rewrite continued_cons by done. constructor; [|done].
  intros Hocc. apply Hl. by apply (ts_occurs_snoc l BSL).
Qed.

Lemma rmc_continued tok lines :
  lines ≠ [] →
  Forall (λ l, ¬ ts_occurs l) (tail lines) →
  (∀ l, last lines = Some l → last l ≠ Some BSL) →
  ∀ prefix rest hd tl,
    last prefix ≠ Some BSL → rest ≠ [] →
    continued lines = hd :: tl →
    concat (rmc_writes tok ((prefix ++ hd) :: tl ++ rest)) =
      prefix ++ strings_Join lines tok ++ [LF] ++ concat (rmc_writes tok rest).
Proof.
  induction lines as [|l lines IH]; [done|]. intros _ Hcont Hlast prefix rest hd tl Hp Hrest Hc.
  destruct lines as [|l' lines].
  - simpl in Hc. simplify_eq. cbn [app rmc_writes concat strings_Join].
    destruct rest as [|next rest]; [done|]. unfold rmc_write.
    replace (strings_HasSuffix (prefix ++ hd) [BSL]) with false.
    2:{ symmetry. apply HasSuffix_byte_false, last_prefixed; [done|by apply Hlast]. }
    by rewrite <- !app_assoc.
  - rewrite continued_cons in Hc by done.
    cbn [tail] in Hcont. pose proof (continued_head _ Hcont) as Hhead.
    pose proof (continued_nonempty (l' :: lines) ltac:(done)) as Hne.
    destruct (continued (l' :: lines)) as [|hd' tl'] eqn:Hc'; [done|].
    injection Hc as <- <-.
    apply Forall_cons in Hhead as [Hhd' _].
    assert (Hcont' : Forall (λ l, ¬ ts_occurs l) (tail (l' :: lines)))
      by (by apply Forall_cons in Hcont as [_ ?]).
    assert (Hlast' : ∀ l0, last (l' :: lines) = Some l0 → last l0 ≠ Some BSL).
    { intros l0 Hl0. apply Hlast. by rewrite last_cons_cons. }
    pose proof (IH ltac:(done) Hcont' Hlast' [] rest hd' tl' ltac:(done) Hrest eq_refl) as IH'.
    cbn [app] in IH'.
    cbn [app rmc_writes concat]. cbn [rmc_writes concat] in IH'. rewrite IH'.
    unfold rmc_write. rewrite !(app_assoc prefix l [BSL]), HasSuffix_app, TrimSuffix_app.
    rewrite <- timestampRegex_spec in Hhd'. apply not_true_is_false in Hhd'.
    rewrite Hhd'. cbn [negb]. rewrite (Join_cons l (l' :: lines)) by done.
    by rewrite <- !app_assoc.
Qed.

Lemma rmc_record tok r rest :
  well_behaved r → rest ≠ [] →
  concat (rmc_writes tok (phys_lines r ++ rest)) =
    (raw_logical tok r ++ [LF]) ++ concat (rmc_writes tok rest).
Proof.
  intros Hwb Hrest. unfold phys_lines, raw_logical.
  pose proof (continued_nonempty _ (wb_lines r Hwb)) as Hne.
  destruct (continued (raw_lines r)) as [|hd tl] eqn:Hc; [done|].
  cbn [app]. rewrite (rmc_continued tok (raw_lines r)); try done.
  - by rewrite <- !app_assoc.
  - apply (wb_lines r Hwb).
  - apply (wb_cont r Hwb).
  - intros l Hl. by apply (wb_last r Hwb).
  - by apply raw_header_last.
Qed.

Lemma rmc_history tok rs :
  Forall well_behaved rs →
  replaceMultilineCommands (history rs) tok =
    concat ((λ r, raw_logical tok r ++ [LF]) <$> rs).
Proof.
  intros Hwb. unfold replaceMultilineCommands.
  assert (Hne : Forall (λ r, raw_lines r ≠ []) rs).
  { eapply Forall_impl; [exact Hwb|]. intros r Hr. apply (wb_lines r Hr). }
  rewrite (history_phys rs Hne), Split_lines.
  2:{ apply Forall_concat, Forall_fmap. eapply Forall_impl; [exact Hwb|].
      intros r Hr. by apply phys_lines_plain. }
  clear Hne. induction Hwb as [|r rs Hr Hrs IH]; [done|].
  cbn [fmap list_fmap concat]. rewrite <- app_assoc.
  rewrite rmc_record; [by rewrite IH|done|].
  by intros [_ ?]%app_eq_nil.
Qed.

(** ** The validator, the parser and the deduplicator *)

Lemma raw_logical_plain tok r :
  well_behaved r → LF ∉ tok → LF ∉ raw_logical tok r.
Proof.
  intros Hwb Htok. unfold raw_logical. rewrite not_elem_of_app. split.
  - apply raw_header_free; try done; [apply (wb_ts r Hwb)|apply (wb_dur r Hwb)].
  - apply Join_free; [done|apply (wb_plain r Hwb)].
Qed.

Lemma raw_logical_shape tok r :
  well_behaved r →
  record_shape (raw_logical tok r) (raw_ts r) (raw_dur r) (strings_Join (raw_lines r) tok).
Proof.
  intros Hwb. destruct (wb_ts r Hwb) as (? & ? & _). destruct (wb_dur r Hwb) as (? & ? & _).
  unfold record_shape, raw_logical, raw_header. split; [|done].
  simpl. rewrite <- app_assoc. simpl. by rewrite <- app_assoc.
Qed.

Lemma process_logical tok rs commands :
  Forall well_behaved rs →
  process_lines ((raw_logical tok <$> rs) ++ [[]]) commands =
    Ok (foldl merge_entry commands (raw_entry tok <$> rs)).
Proof.
  intros Hwb. revert commands. induction Hwb as [|r rs Hr Hrs IH]; intros commands; [done|].
  cbn [fmap list_fmap app process_lines foldl].
  pose proof (raw_logical_shape tok r Hr) as Hshape.
  assert (Hvalid : MatchString validLineRegex (raw_logical tok r) = true).
  { apply validLineRegex_spec. eauto. }
  rewrite Hvalid, (bool_decide_false _ (validLine_nonempty _ Hvalid)). cbn [negb orb].
  rewrite (parseHistoryLine_shape _ _ _ _ Hshape).
  destruct (wb_ts r Hr) as (_ & _ & Ht). destruct (wb_dur r Hr) as (_ & _ & Hd).
  apply Z.leb_le in Ht, Hd. rewrite Ht, Hd. apply IH.
Qed.

(** A well-behaved history is read without an error: every record is merged
    under the command that joins its lines by the placeholder. *)
Lemma process_history fs name tok rs commands :
  fs name = Some (Readable (history rs)) →
  Forall well_behaved rs → LF ∉ tok →
  processHistoryFile fs name tok commands =
    Ok (foldl merge_entry commands (raw_entry tok <$> rs)).
Proof.
  intros Hfs Hwb Htok. unfold processHistoryFile. rewrite Hfs.
  rewrite readFileContent_history by done. cbn [mbind result_bind].
  unfold process_content. rewrite rmc_history by done.
  replace (concat ((λ r, raw_logical tok r ++ [LF]) <$> rs))
    with (concat ((λ l, l ++ [LF]) <$> (raw_logical tok <$> rs)))
    by (by rewrite <- list_fmap_compose).
  rewrite Split_lines.
  - by apply process_logical.
  - apply Forall_fmap. eapply Forall_impl; [exact Hwb|].
    intros r Hr. by apply raw_logical_plain.
Qed.

(** * The round trip of continuations *)

Lemma occurs_concat (x : gostring) (l : list gostring) : x ∈ l → occurs x (concat l).
Proof.
  induction l as [|y l IH]; [by intros ?%elem_of_nil|].
  intros [->|Hin]%elem_of_cons; cbn [concat].
  - by exists [], (concat l).
  - destruct (IH Hin) as (p & q & ->). exists (y ++ p), q. by rewrite <- app_assoc.
Qed.

Lemma fs_one_lookup name data : fs_one name data name = Some (Readable data).
Proof. unfold fs_one. by rewrite bool_decide_true. Qed.

Lemma main_table_one now name data :
  main_table now (fs_one name data) [name] =
    processHistoryFile (fs_one name data) name (multilineCommand now) ∅.
Proof.
  unfold main_table. cbn [sort_Strings sort_Slice foldr sort_insert process_files].
  by destruct (processHistoryFile _ _ _ _).
Qed.

Lemma emit_entry_Join tok e lines :
  self_delimiting tok → Forall (λ l, ¬ occurs tok l) lines →
  Command e = strings_Join lines tok →
  emit_entry tok e = emitted_text (Time e) (Duration e) (strings_Join lines [BSL; LF]).
Proof.
  intros Hself Hfree Hcmd. unfold emit_entry, emitted_text.
  by rewrite Hcmd, ReplaceAll_Join.
Qed.

(** The round trip of continuations.  Take a history file made of well-behaved
    records, in none of whose lines the placeholder of the run occurs, and
    any record [r] of it.  The run ends with an output, and the output
    holds the command of [r] with every continuation sequence, a backslash
    and a newline, where it stood between its lines, after the time and
    the duration of the latest record with this command. *)
Theorem continuation_round_trip (now : Z) (name : gostring)
    (rs : list RawRecord) (r : RawRecord) (range : CommandMap → list HistoryEntry) :
  Forall well_behaved rs →
  Forall (token_free (multilineCommand now)) rs →
  r ∈ rs →
  range_order range →
  ∃ out r',
    main now (fs_one name (history rs)) [name] range = Output out ∧
    r' ∈ rs ∧
    strings_Join (raw_lines r') (multilineCommand now) =
      strings_Join (raw_lines r) (multilineCommand now) ∧
    decimal (raw_ts r) ≤ decimal (raw_ts r') ∧
    occurs (emitted_text (decimal (raw_ts r')) (decimal (raw_dur r'))
                         (strings_Join (raw_lines r) [BSL; LF])) out.
Proof.
  intros Hwb Hfree Hr Hrange.
  set (tok := multilineCommand now).
  destruct (multilineCommand_shape now) as (Hself & Hlf & _). fold tok in Hself, Hlf.
  set (entries := raw_entry tok <$> rs).
  assert (Htable : main_table now (fs_one name (history rs)) [name] =
                   Ok (foldl merge_entry ∅ entries)).
  { rewrite main_table_one. apply process_history; [apply fs_one_lookup|done|done]. }
  unfold main. rewrite Htable.
  set (k := strings_Join (raw_lines r) tok).
  pose proof (dedup_invariant entries k) as Hinv.
  destruct (foldl merge_entry ∅ entries !! k) as [e|] eqn:Hk.
  2:{ exfalso. rewrite Forall_forall in Hinv.
      apply (Hinv (raw_entry tok r)); [|done].
      apply list_elem_of_fmap. eauto. }
  destruct Hinv as (Hcmd & before & after & Hentries & Hb & Ha).
  assert (He : e ∈ entries) by (rewrite Hentries, elem_of_app; right; by left).
  apply list_elem_of_fmap in He as (r' & -> & Hr').
  eexists _, r'. split; [done|]. split; [done|]. split; [done|]. split.
  - assert (Hin : raw_entry tok r ∈ entries) by (apply list_elem_of_fmap; eauto).
    rewrite Hentries in Hin. rewrite Forall_forall in Hb, Ha.
    apply elem_of_app in Hin as [Hin|[Hin|Hin]%elem_of_cons].
    + specialize (Hb _ Hin eq_refl). simpl in Hb. lia.
    + apply (f_equal Time) in Hin. simpl in Hin. lia.
    + specialize (Ha _ Hin eq_refl). simpl in Ha. lia.
  - unfold outputMergedCommands.
    assert (Hfree_r : Forall (λ l, ¬ occurs tok l) (raw_lines r)).
    { rewrite Forall_forall in Hfree. by apply Hfree. }
    pose proof (emit_entry_Join tok (raw_entry tok r') (raw_lines r) Hself Hfree_r Hcmd)
      as Hemit.
    cbn [Time Duration raw_entry] in Hemit. rewrite <- Hemit.
    apply occurs_concat, list_elem_of_fmap_2.
    rewrite sort_Slice_perm, (Hrange _).
    apply list_elem_of_fmap. exists (k, raw_entry tok r'). split; [done|].
    by apply elem_of_map_to_list.
Qed.

(** Deciding the side conditions on concrete records. *)
Lemma not_ts_occurs_decide l : MatchString timestampRegex l = false → ¬ ts_occurs l.
Proof. intros Hm Ho. apply timestampRegex_spec in Ho. congruence. Qed.

Lemma not_occurs_decide tok l : strings_Index l tok = None → ¬ occurs tok l.
Proof. apply Index_None. Qed.

Lemma valid_text_decide s : utf8_ValidString s = true → valid_text s.
Proof. apply ValidString_spec. Qed.

#[local] Ltac decide_wb :=
  split;
  [ split; [by apply (bool_decide_unpack _); vm_compute|split; [vm_compute; lia|by vm_compute]]
  | split; [by apply (bool_decide_unpack _); vm_compute|split; [vm_compute; lia|by vm_compute]]
  | done
  | by apply (bool_decide_unpack _); vm_compute
  | repeat constructor; by apply not_ts_occurs_decide
  | intros l [= <-]; split; by vm_compute
  | by apply valid_text_decide; vm_compute
  | apply Nat.leb_le; by vm_compute ].

Lemma record_two_lines_wb : well_behaved record_two_lines.
Proof. decide_wb. Qed.

Lemma record_plain_wb : well_behaved record_plain.
Proof. decide_wb. Qed.

Lemma continuation_round_trip_witness :
  ∃ out r',
    main now0 (fs_one (str "h") (history [record_two_lines; record_plain])) [str "h"]
         range_fwd = Output out ∧
    r' ∈ [record_two_lines; record_plain] ∧
    strings_Join (raw_lines r') (multilineCommand now0) =
      strings_Join (raw_lines record_two_lines) (multilineCommand now0) ∧
    decimal (raw_ts record_two_lines) ≤ decimal (raw_ts r') ∧
    occurs (emitted_text (decimal (raw_ts r')) (decimal (raw_dur r'))
                         (strings_Join (raw_lines record_two_lines) [BSL; LF])) out.
Proof.
  apply (continuation_round_trip now0 (str "h") [record_two_lines; record_plain]
           record_two_lines range_fwd).
  - apply Forall_cons_2; [apply record_two_lines_wb|].
    apply Forall_cons_2; [apply record_plain_wb|apply Forall_nil_2].
  - repeat (apply Forall_cons_2 || apply Forall_nil_2);
      apply not_occurs_decide; vm_compute; reflexivity.
  - by left.
  - apply range_fwd_order.
Defined.

(** The round trip needs the condition on the lines after the first: the
    second line of this record starts with the field marker and ten
    digits, so the normalizer does not join it to the first; the first
    line is emitted as a command of its own and the second, which is no
    record, is dropped.  The command with its continuation sequence is not
    in the output. *)
Lemma continuation_before_id_line_lost :
  history [record_id_line] =
    str ": 1700000000:0;echo \" ++ [LF] ++ str ":1234567890 is the id" ++ [LF] ∧
  main now0 (fs_one (str "h") (history [record_id_line])) [str "h"] range_fwd =
    Output (str ": 1700000000:0;echo \" ++ [LF]) ∧
  ¬ occurs (strings_Join (raw_lines record_id_line) [BSL; LF])
           (str ": 1700000000:0;echo \" ++ [LF]).
Proof.
  split; [vm_compute; reflexivity|]. split; [by vm_compute|].
  intros (p & q & Heq). apply (f_equal length) in Heq.
  rewrite !length_app in Heq.
  set (n := length (strings_Join _ _)) in Heq. vm_compute in n.
  set (k := length (str _)) in Heq. vm_compute in k.
  cbn [length] in Heq. lia.
Qed.

(** The table of a history file.  For a file made of well-behaved records
    the loader, the normalizer, the validator and the parser together hand
    the deduplicator one entry for each record, in the order of the file:
    its command is the lines of the record joined by the placeholder, its
    time and duration are the numbers the digits denote. *)
Theorem history_file_table (fs : filesystem) (filename multilineCommand : gostring)
    (rs : list RawRecord) (commands : CommandMap) :
  fs filename = Some (Readable (history rs)) →
  Forall well_behaved rs →
  LF ∉ multilineCommand →
  processHistoryFile fs filename multilineCommand commands =
    Ok (foldl merge_entry commands (raw_entry multilineCommand <$> rs)).
Proof. apply process_history. Qed.

Lemma history_file_table_witness :
  processHistoryFile (fs_one (str "h") (history [record_two_lines; record_plain]))
                     (str "h") tok0 ∅ =
    Ok (foldl merge_entry ∅ (raw_entry tok0 <$> [record_two_lines; record_plain])).
Proof.
  apply (history_file_table (fs_one (str "h") (history [record_two_lines; record_plain]))
           (str "h") tok0 [record_two_lines; record_plain] ∅).
  - apply fs_one_lookup.
  - apply Forall_cons_2; [apply record_two_lines_wb|].
    apply Forall_cons_2; [apply record_plain_wb|apply Forall_nil_2].
  - apply (bool_decide_unpack _). vm_compute. reflexivity.
Defined.

(** * Merging a merged history again *)

(** Entries with pairwise distinct commands are all kept by the
    deduplicator. *)
Lemma merge_fresh es :
  NoDup (Command <$> es) → (map_to_list (foldl merge_entry ∅ es)).*2 ≡ₚ es.
Proof.
  induction es as [|e es IH] using rev_ind; intros Hnd.
  - simpl. by rewrite map_to_list_empty.
  - rewrite fmap_app in Hnd. apply NoDup_app in Hnd as (Hes & Hdisj & _).
    rewrite foldl_app. cbn [foldl].
    pose proof (dedup_invariant es (Command e)) as Hinv.
    specialize (IH Hes). set (m := foldl merge_entry ∅ es) in *.
    unfold merge_entry. destruct (m !! Command e) as [e'|] eqn:Hk.
    + exfalso. destruct Hinv as (Hcmd & before & after & Hentries & _).
      apply (Hdisj (Command e)); [|by left].
      rewrite <- Hcmd. apply list_elem_of_fmap_2.
      rewrite Hentries, elem_of_app. right. by left.
    + rewrite map_to_list_insert by done. cbn [fmap list_fmap snd].
      rewrite IH. by rewrite Permutation_cons_append.
Qed.

Lemma NoDup_fmap_transfer {A B C} (f : A → B) (g : A → C) (l : list A) :
  NoDup (f <$> l) →
  (∀ x y, x ∈ l → y ∈ l → g x = g y → f x = f y) →
  NoDup (g <$> l).
Proof.
  induction l as [|a l IH]; intros Hnd Hfg; [constructor|].
  cbn [fmap list_fmap] in *. apply NoDup_cons in Hnd as [Ha Hnd].
  constructor.
  - intros (y & Hgy & Hy)%list_elem_of_fmap. apply Ha.
    rewrite (Hfg a y); [by apply list_elem_of_fmap_2|by left|by right|done].
  - apply IH; [done|]. intros x y Hx Hy. apply Hfg; by right.
Qed.

Lemma Sorted_same_times (es es2 : list HistoryEntry) :
  Forall2 (λ e e2, Time e2 = Time e) es es2 →
  StronglySorted le_Time es → StronglySorted le_Time es2.
Proof.
  induction 1 as [|e e2 es es2 He Hes IH]; intros Hs; [constructor|].
  apply StronglySorted_inv in Hs as [Hs Hall]. constructor; [by apply IH|].
  clear IH Hs. induction Hes as [|x x2 es es2 Hx Hes IH]; [constructor|].
  apply Forall_cons in Hall as [Hex Hall]. constructor; [|by apply IH].
  unfold le_Time in *. lia.
Qed.

Section Reemit.
Context (tok1 tok2 : gostring).
Context (Hself1 : self_delimiting tok1) (Hself2 : self_delimiting tok2).

(** What the first run emitted for the entry is the text of its record. *)
Lemma reemittable_text e r :
  reemittable tok1 tok2 e r → emit_entry tok1 e = raw_text r.
Proof.
  intros (Ht & Hd & Hr & Hcmd & Hwb & Hfree1 & Hfree2).
  rewrite (emit_entry_Join tok1 e (raw_lines r)); try done.
  unfold emitted_text, raw_text, raw_header. rewrite fmt_width_ten by done.
  rewrite Hr. cbn [raw_ts raw_dur raw_lines canon_record].
  simpl. rewrite <- !app_assoc. simpl. by rewrite <- !app_assoc.
Qed.

(** The second run reads the same time and duration, and emits the same
    text. *)
Lemma reemittable_entry e r :
  reemittable tok1 tok2 e r →
  Time (raw_entry tok2 r) = Time e ∧
  Duration (raw_entry tok2 r) = Duration e ∧
  emit_entry tok2 (raw_entry tok2 r) = raw_text r.
Proof.
  intros (Ht & Hd & Hr & Hcmd & Hwb & Hfree1 & Hfree2).
  assert (HT : decimal (raw_ts r) = Time e).
  { rewrite Hr. cbn [raw_ts canon_record]. apply fmt_d_nonneg. unfold maxInt64. lia. }
  assert (HD : decimal (raw_dur r) = Duration e).
  { rewrite Hr. cbn [raw_dur canon_record]. by apply fmt_d_nonneg. }
  split; [done|]. split; [done|].
  rewrite (emit_entry_Join tok2 (raw_entry tok2 r) (raw_lines r)); try done.
  cbn [Time Duration raw_entry]. rewrite HT, HD.
  unfold emitted_text, raw_text, raw_header. rewrite fmt_width_ten by done.
  rewrite Hr. cbn [raw_ts raw_dur raw_lines canon_record].
  simpl. rewrite <- !app_assoc. simpl. by rewrite <- !app_assoc.
Qed.

Lemma reemittable_commands e r e' r' :
  reemittable tok1 tok2 e r → reemittable tok1 tok2 e' r' →
  Command (raw_entry tok2 r) = Command (raw_entry tok2 r') → Command e = Command e'.
Proof.
  intros (_ & _ & _ & Hcmd & _ & _ & Hfree) (_ & _ & _ & Hcmd' & _ & _ & Hfree') Heq.
  cbn [Command raw_entry] in Heq.
  rewrite Hcmd, Hcmd'.
  rewrite <- (ReplaceAll_Join tok2 tok1 (raw_lines r)) by done.
  rewrite <- (ReplaceAll_Join tok2 tok1 (raw_lines r')) by done.
  by rewrite Heq.
Qed.

Lemma Forall2_elem_of_r {A B} (P : A → B → Prop) l k y :
  Forall2 P l k → y ∈ k → ∃ x, x ∈ l ∧ P x y.
Proof.
  intros H2 (i & Hi)%list_elem_of_lookup.
  destruct (Forall2_lookup_r _ _ _ _ _ H2 Hi) as (x & Hx & HP).
  exists x. split; [|done]. apply list_elem_of_lookup. eauto.
Qed.

Lemma reemit_NoDup es rs :
  Forall2 (reemittable tok1 tok2) es rs →
  NoDup (Command <$> es) →
  NoDup (Command <$> (raw_entry tok2 <$> rs)).
Proof.
  induction 1 as [|e r es rs He Hes IH]; intros Hnd; [constructor|].
  cbn [fmap list_fmap] in *. apply NoDup_cons in Hnd as [Hne Hnd].
  constructor; [|by apply IH].
  intros (e2 & Heq & (r' & -> & Hr')%list_elem_of_fmap)%list_elem_of_fmap.
  apply Hne.
  destruct (Forall2_elem_of_r _ _ _ _ Hes Hr') as (e' & He' & Hre').
  rewrite (reemittable_commands e r e' r' He Hre' Heq).
  by apply list_elem_of_fmap_2.
Qed.

Lemma reemit_lists es rs :
  Forall2 (reemittable tok1 tok2) es rs →
  concat (emit_entry tok1 <$> es) = history rs ∧
  concat (emit_entry tok2 <$> (raw_entry tok2 <$> rs)) = history rs ∧
  Forall2 (λ e e2, Time e2 = Time e) es (raw_entry tok2 <$> rs) ∧
  Forall well_behaved rs ∧ Forall (token_free tok2) rs.
Proof.
  unfold history. induction 1 as [|e r es rs He Hes (IH1 & IH2 & IH3 & IH4 & IH5)].
  { repeat split; constructor. }
  cbn [fmap list_fmap concat].
  pose proof (reemittable_text e r He) as Hemit.
  pose proof (reemittable_entry e r He) as (HT & HD & Hemit2).
  rewrite Hemit, Hemit2, IH1, IH2.
  destruct He as (_ & _ & _ & _ & Hwb & _ & Hfree).
  repeat split; try done; by constructor.
Qed.
End Reemit.

Lemma Forall_choose {A B} (P : A → B → Prop) l :
  Forall (λ x, ∃ y, P x y) l → ∃ k, Forall2 P l k.
Proof.
  induction 1 as [|x l [y Hy] _ [k IH]]; [by exists []|].
  exists (y :: k). by constructor.
Qed.

(** The entries of a table whose keys are their commands have pairwise
    different commands. *)
Lemma values_commands_NoDup (commands : CommandMap) :
  (∀ k e, commands !! k = Some e → Command e = k) →
  NoDup (Command <$> (map_to_list commands).*2).
Proof.
  intros Hkey.
  assert (Command <$> (map_to_list commands).*2 = (map_to_list commands).*1) as ->.
  { rewrite <- list_fmap_compose. apply Forall_fmap_ext_1, Forall_forall.
    intros [k e] Hin%elem_of_map_to_list. cbn. by apply Hkey. }
  apply NoDup_fst_map_to_list.
Qed.

Lemma same_times_fmap (es es2 : list HistoryEntry) :
  Forall2 (λ e e2, Time e2 = Time e) es es2 → Time <$> es2 = Time <$> es.
Proof. induction 1 as [|e e2 es es2 He _ IH]; cbn; [done|]. by rewrite He, IH. Qed.

(** Merging the output of a run again gives the same output, byte for
    byte, when no two entries of the table have the same time and every
    entry can be read back as it was written: its timestamp has ten
    digits, and the lines of its command form a well-behaved record that
    holds the placeholder of neither run. *)
Theorem merged_history_idempotent (now1 now2 : Z) (fs : filesystem)
    (args : list gostring) (name : gostring)
    (range1 range2 : CommandMap → list HistoryEntry)
    (commands : CommandMap) (out : gostring) :
  main_table now1 fs args = Ok commands →
  main now1 fs args range1 = Output out →
  range_order range1 →
  range_order range2 →
  NoDup (Time <$> (map_to_list commands).*2) →
  (∀ k e, commands !! k = Some e →
     ∃ r, reemittable (multilineCommand now1) (multilineCommand now2) e r) →
  main now2 (fs_one name out) [name] range2 = Output out.
Proof.
  intros Htable Hmain Hr1 Hr2 Htimes Hre.
  assert (Hout : out = outputMergedCommands (range1 commands) (multilineCommand now1)).
  { unfold main in Hmain. destruct args; [done|]. rewrite Htable in Hmain.
    by injection Hmain. }
  destruct (multilineCommand_shape now1) as (Hself1 & _ & _).
  destruct (multilineCommand_shape now2) as (Hself2 & Hlf2 & _).
  set (tok1 := multilineCommand now1) in *. set (tok2 := multilineCommand now2) in *.
  set (es := sort_Slice less_Time (range1 commands)).
  assert (Hperm : es ≡ₚ (map_to_list commands).*2).
  { unfold es. rewrite sort_Slice_perm. apply Hr1. }
  assert (Hsorted : StronglySorted le_Time es) by apply sort_Slice_sorted.
  assert (Hkeys : ∀ k e, commands !! k = Some e → Command e = k).
  { intros k e Hk. by destruct (main_table_stored _ _ _ _ _ _ Htable Hk). }
  assert (HndC : NoDup (Command <$> es)).
  { rewrite Hperm. by apply values_commands_NoDup. }
  assert (HndT : NoDup (Time <$> es)) by (by rewrite Hperm).
  assert (Hall : Forall (λ e, ∃ r, reemittable tok1 tok2 e r) es).
  { apply Forall_forall. intros e He. rewrite Hperm in He.
    apply list_elem_of_fmap in He as ([k e'] & -> & Hin).
    apply elem_of_map_to_list in Hin. by apply (Hre k). }
  destruct (Forall_choose _ _ Hall) as (rs & H2).
  destruct (reemit_lists tok1 tok2 Hself1 Hself2 es rs H2)
    as (Hout1 & Hout2 & Htimes2 & Hwb & Hfree2).
  assert (Hout' : out = history rs).
  { rewrite Hout. unfold outputMergedCommands. fold es. exact Hout1. }
  rewrite Hout'. unfold main. rewrite main_table_one.
  rewrite (process_history _ name tok2 rs ∅ (fs_one_lookup _ _) Hwb Hlf2).
  f_equal. unfold outputMergedCommands.
  set (es2 := raw_entry tok2 <$> rs) in *.
  assert (HndC2 : NoDup (Command <$> es2)) by (eapply reemit_NoDup; eauto).
  assert (Hp2 : range2 (foldl merge_entry ∅ es2) ≡ₚ es2).
  { rewrite (Hr2 _). by apply merge_fresh. }
  pose proof (same_times_fmap _ _ Htimes2) as HT2.
  rewrite (sort_Slice_unique _ es2 Hp2) by (by rewrite Hp2, HT2).
  rewrite sort_Slice_id by (by apply (Sorted_same_times es)).
  exact Hout2.
Qed.

#[local] Ltac decide_reemittable r wb :=
  exists r;
  split; [cbn [Time]; lia|];
  split; [cbn [Duration]; unfold maxInt64; lia|];
  split; [vm_compute; reflexivity|];
  split; [vm_compute; reflexivity|];
  split; [exact wb|];
  split; repeat (apply Forall_cons_2 || apply Forall_nil_2);
    apply Index_None; vm_compute; reflexivity.

Lemma merged_history_idempotent_witness :
  main 1700000500
       (fs_one (str "merged")
          (str ": 1700000000:3;echo one \" ++ [LF] ++ str "  two" ++ [LF]
           ++ str ": 1700000100:0;pwd" ++ [LF]))
       [str "merged"] range_bwd =
  Output (str ": 1700000000:3;echo one \" ++ [LF] ++ str "  two" ++ [LF]
          ++ str ": 1700000100:0;pwd" ++ [LF]).
Proof.
  apply (merged_history_idempotent now0 1700000500
           (fs_one (str "h") (history [record_plain; record_two_lines])) [str "h"]
           (str "merged") range_fwd range_bwd
           (foldl merge_entry ∅
              (raw_entry (multilineCommand now0) <$> [record_plain; record_two_lines]))).
  - vm_compute. reflexivity.
  - vm_compute. reflexivity.
  - apply range_fwd_order.
  - apply range_bwd_order.
  - apply (bool_decide_unpack _). vm_compute. reflexivity.
  - apply map_Forall_to_list.
    match goal with
    | |- Forall _ ?l =>
        let l' := eval vm_compute in l in
        replace l with l' by (vm_compute; reflexivity)
    end.
    repeat (apply Forall_cons_2 || apply Forall_nil_2); cbn [uncurry];
      first [ decide_reemittable record_two_lines record_two_lines_wb
            | decide_reemittable record_plain record_plain_wb ].
Defined.

(** The condition on the last line is needed: the command of the second
    record of this history ends with a backslash that the normalizer keeps,
    a record line following it.  The run sorts that command to the end of
    its output; a second run on this output takes the backslash for a
    continuation into the empty line after it, and writes one newline
    more. *)
Lemma literal_backslash_not_idempotent :
  main now0 (fs_one (str "h") history_literal_backslash) [str "h"] range_fwd =
    Output (str ": 1700000001:0;pwd" ++ [LF] ++ str ": 1700000002:0;echo one \" ++ [LF]) ∧
  main 1700000500
       (fs_one (str "merged")
          (str ": 1700000001:0;pwd" ++ [LF] ++ str ": 1700000002:0;echo one \" ++ [LF]))
       [str "merged"] range_fwd =
    Output (str ": 1700000001:0;pwd" ++ [LF] ++ str ": 1700000002:0;echo one \" ++ [LF]
            ++ [LF]).
Proof. split; vm_compute; reflexivity. Qed.

(** * The errors of a run *)

Lemma process_lines_err lines commands e :
  process_lines lines commands = Err e →
  ∃ line ts dur cmd,
    e = ErrParsingLine line ErrRange ∧ record_shape line ts dur cmd ∧
    (maxInt64 < decimal ts ∨ maxInt64 < decimal dur).
Proof.
  revert commands. induction lines as [|line lines IH]; intros commands Hp; [done|].
  cbn [process_lines] in Hp.
  destruct (bool_decide (line = []) || negb (MatchString validLineRegex line)) eqn:Hskip.
  { by apply (IH commands). }
  apply orb_false_iff in Hskip as [_ Hm]. apply negb_false_iff in Hm.
  apply validLineRegex_spec in Hm as (ts & dur & cmd & Hshape).
  rewrite (parseHistoryLine_shape _ _ _ _ Hshape) in Hp.
  destruct (Z.leb_spec (decimal ts) maxInt64).
  - destruct (Z.leb_spec (decimal dur) maxInt64); [by apply (IH _ Hp)|].
    injection Hp as <-. exists line, ts, dur, cmd. eauto.
  - injection Hp as <-. exists line, ts, dur, cmd. eauto.
Qed.

Lemma readFileContent_err f e :
  readFileContent f = Err e →
  e = ErrTooLong ∨ ∃ data errno, f = Failing data errno ∧ e = ErrRead errno.
Proof.
  destruct f as [data|data errno]; unfold readFileContent, scan_lines;
    match goal with |- context [forallb ?f ?ts] => destruct (forallb f ts) end; cbn;
    intros [= <-]; eauto.
Qed.

Lemma processHistoryFile_err fs name tok commands e :
  processHistoryFile fs name tok commands = Err e →
  (fs name = None ∧ e = ErrOpen name) ∨
  (∃ data errno, fs name = Some (Failing data errno) ∧ e = ErrRead errno) ∨
  (∃ f, fs name = Some f ∧ readFileContent f = Err ErrTooLong ∧ e = ErrTooLong) ∨
  (∃ line ts dur cmd,
     e = ErrParsingLine line ErrRange ∧ record_shape line ts dur cmd ∧
     (maxInt64 < decimal ts ∨ maxInt64 < decimal dur)).
Proof.
  unfold processHistoryFile. destruct (fs name) as [f|] eqn:Hfs.
  2:{ intros [= <-]. by left. }
  destruct (readFileContent f) as [content|e'] eqn:Hread; cbn.
  - intros Hp. right. right. right. by apply process_lines_err in Hp.
  - intros [= <-]. right.
    destruct (readFileContent_err _ _ Hread) as [->|(data & errno & -> & ->)].
    + right. left. by exists f.
    + left. by exists data, errno.
Qed.

Lemma process_files_err fs files tok commands e :
  process_files fs files tok commands = Err e →
  ∃ name commands', name ∈ files ∧ processHistoryFile fs name tok commands' = Err e.
Proof.
  revert commands. induction files as [|f files IH]; intros commands Hp; [done|].
  cbn [process_files] in Hp.
  destruct (processHistoryFile fs f tok commands) as [c1|e1] eqn:Hf; cbn in Hp.
  - destruct (IH _ Hp) as (name & c' & Hin & He). exists name, c'. split; [by right|done].
  - injection Hp as <-. exists f, commands. split; [by left|done].
Qed.

(** A run is fatal for four reasons only: a file that cannot be opened, a
    file that opens and whose read fails (a directory), a file with a line
    too long for the scanner, and a line that the validator accepts but
    whose timestamp or duration is greater than the greatest [int64].  It
    is never fatal for a line that is not in the format of a record. *)
Theorem run_fatal_only_for (now : Z) (fs : filesystem) (args : list gostring)
    (range : CommandMap → list HistoryEntry) (e : error) :
  main now fs args range = Fatal e →
  (∃ name, name ∈ args ∧ fs name = None ∧ e = ErrOpen name) ∨
  (∃ name data errno, name ∈ args ∧ fs name = Some (Failing data errno) ∧
                      e = ErrRead errno) ∨
  (∃ name f, name ∈ args ∧ fs name = Some f ∧
             readFileContent f = Err ErrTooLong ∧ e = ErrTooLong) ∨
  (∃ line ts dur cmd,
     e = ErrParsingLine line ErrRange ∧ record_shape line ts dur cmd ∧
     (maxInt64 < decimal ts ∨ maxInt64 < decimal dur)).
Proof.
  unfold main, main_table. destruct args as [|a args]; [done|].
  destruct (process_files fs (sort_Strings (a :: args)) (multilineCommand now) ∅)
    as [commands|e'] eqn:Hp; [done|].
  intros [= ->].
  destruct (process_files_err _ _ _ _ _ Hp) as (name & c' & Hin & He).
  assert (Hname : name ∈ a :: args).
  { unfold sort_Strings in Hin. by rewrite sort_Slice_perm in Hin. }
  destruct (processHistoryFile_err _ _ _ _ _ He)
    as [[Hnone ->]|[(data & errno & Hsome & ->)|[(f & Hsome & Hread & ->)|Hline]]].
  - left. by exists name.
  - right. left. by exists name, data, errno.
  - right. right. left. by exists name, f.
  - right. right. right. done.
Qed.

Lemma run_fatal_only_for_witness :
  (∃ name, name ∈ [str "d"] ∧ fs_dir name = None ∧ ErrRead 21 = ErrOpen name) ∨
  (∃ name data errno, name ∈ [str "d"] ∧ fs_dir name = Some (Failing data errno) ∧
                      ErrRead 21 = ErrRead errno) ∨
  (∃ name f, name ∈ [str "d"] ∧ fs_dir name = Some f ∧
             readFileContent f = Err ErrTooLong ∧ ErrRead 21 = ErrTooLong) ∨
  (∃ line ts dur cmd,
     ErrRead 21 = ErrParsingLine line ErrRange ∧ record_shape line ts dur cmd ∧
     (maxInt64 < decimal ts ∨ maxInt64 < decimal dur)).
Proof.
  apply (run_fatal_only_for now0 fs_dir [str "d"] range_fwd).
  vm_compute. reflexivity.
Defined.

(** The run on the history with a duration of twenty digits is fatal for
    the last of the four reasons. *)
Lemma long_duration_is_range_error :
  main now0 (fs_one (str "h") history_long_duration) [str "h"] range_fwd =
    Fatal (ErrParsingLine (str ": 1700000001:99999999999999999999;make") ErrRange) ∧
  record_shape (str ": 1700000001:99999999999999999999;make")
               (str "1700000001") (str "99999999999999999999") (str "make") ∧
  maxInt64 < decimal (str "99999999999999999999").
Proof.
  split; [vm_compute; reflexivity|]. split; [|vm_compute; reflexivity].
  split; [vm_compute; reflexivity|].
  split; [apply (bool_decide_unpack _); vm_compute; reflexivity|].
  split; [vm_compute; lia|].
  split; [apply (bool_decide_unpack _); vm_compute; reflexivity|vm_compute; lia].
Qed.

(** * The table of a run and the records of its files *)

Lemma process_files_reads fs tok names entries commands :
  FilesRead fs tok names entries →
  Forall fits entries →
  process_files fs names tok commands = Ok (foldl merge_entry commands entries).
Proof.
  intros Hread. revert commands.
  induction Hread as [|name names data content entries rest Hfs Hload Hreads _ IH];
    intros commands Hfits; [done|].
  apply Forall_app in Hfits as [Hfits1 Hfits2].
  cbn [process_files]. unfold processHistoryFile. rewrite Hfs, Hload. cbn.
  unfold process_content.
  destruct (process_lines_spec _ _ commands Hreads) as [Hok _].
  rewrite (Hok Hfits1). cbn. rewrite (IH _ Hfits2). by rewrite foldl_app.
Qed.

(** Deduplication over a whole run.  When every file argument loads and
    the numbers of all well-formed lines fit, the table [main] hands to the
    emitter holds, for each command, the first of the records with the
    greatest time, the records taken file by file in the sorted order of
    the arguments and line by line within a file; a command is missing
    only if no record has it. *)
Theorem table_is_merge_of_records (now : Z) (fs : filesystem) (args : list gostring)
    (entries : list HistoryEntry) :
  FilesRead fs (multilineCommand now) (sort_Strings args) entries →
  Forall fits entries →
  ∃ commands,
    main_table now fs args = Ok commands ∧
    commands = foldl merge_entry ∅ entries ∧
    ∀ k, match commands !! k with
         | Some e => first_latest k entries e
         | None => Forall (λ x, Command x ≠ k) entries
         end.
Proof.
  intros Hread Hfits. exists (foldl merge_entry ∅ entries).
  split; [by apply process_files_reads|]. split; [done|].
  intros k. apply dedup_invariant.
Qed.

#[local] Ltac normal_lines :=
  match goal with
  | |- Reads ?l _ =>
      let l' := eval vm_compute in l in
      replace l with l' by (vm_compute; reflexivity)
  end.

#[local] Ltac read_record ts dur cmd :=
  apply (Reads_record _ (str ts) (str dur) (str cmd));
  [ split; [vm_compute; reflexivity|];
    split; [apply (bool_decide_unpack _); vm_compute; reflexivity|];
    split; [vm_compute; lia|];
    split; [apply (bool_decide_unpack _); vm_compute; reflexivity|vm_compute; lia]
  | ].

Lemma table_is_merge_of_records_witness :
  ∃ commands,
    main_table now0 fs_ab [str "b.bak"; str "a.bak"] = Ok commands ∧
    commands = foldl merge_entry ∅ entries_ab ∧
    ∀ k, match commands !! k with
         | Some e => first_latest k entries_ab e
         | None => Forall (λ x, Command x ≠ k) entries_ab
         end.
Proof.
  apply (table_is_merge_of_records now0 fs_ab [str "b.bak"; str "a.bak"] entries_ab).
  - replace (sort_Strings [str "b.bak"; str "a.bak"]) with [str "a.bak"; str "b.bak"]
      by (vm_compute; reflexivity).
    apply (FilesRead_cons _ _ (str "a.bak") [str "b.bak"] (Readable history_a) history_a
             (take 2 entries_ab) (drop 2 entries_ab));
      [vm_compute; reflexivity|vm_compute; reflexivity| |].
    { normal_lines. cbn [take entries_ab].
      read_record "1000000000" "0" "ls -la". read_record "1000000005" "0" "echo hi".
      apply Reads_skip; [vm_compute; reflexivity|apply Reads_nil]. }
    apply (FilesRead_cons _ _ (str "b.bak") [] (Readable history_b) history_b
             (drop 2 entries_ab) []);
      [vm_compute; reflexivity|vm_compute; reflexivity| |apply FilesRead_nil].
    normal_lines. cbn [drop entries_ab].
    read_record "1000000005" "1" "echo hi". read_record "1000000010" "0" "pwd".
    apply Reads_skip; [vm_compute; reflexivity|apply Reads_nil].
  - unfold fits. apply (bool_decide_unpack _). vm_compute. reflexivity.
Defined.

(** * The loader *)

(** The sanitizer works byte by byte: a byte is kept or becomes the
    marker, and only a byte that is not ASCII becomes the marker. *)
Lemma Sanitized_bytewise s out :
  Sanitized s out →
  Forall2 (λ c d, d = c ∨ (d = HASH ∧ 0x80 ≤ b2z c)) s out.
Proof.
  induction 1 as [|u s out Hu Hs IH|c s out Hc Hs IH]; [constructor|..].
  - apply Forall2_app; [|done]. clear. induction u; constructor; auto.
  - constructor; [|done]. right. split; [done|].
    destruct (Z_lt_le_dec (b2z c) 0x80) as [Hlt|Hge]; [|done].
    exfalso. apply (Hc [c] s eq_refl). unfold wf_seq. cbn. lia.
Qed.

Lemma bytewise_last (s out : gostring) :
  Forall2 (λ c d, d = c ∨ (d = HASH ∧ 0x80 ≤ b2z c)) s out →
  last s = Some LF → last out = Some LF.
Proof.
  intros H2 Hlast. pose proof (Forall2_last _ _ _ H2) as Hl. rewrite Hlast in Hl.
  inversion Hl as [c d Hcd|]; subst. destruct Hcd as [->|[_ Hge]]; [done|].
  exfalso. by apply Hge.
Qed.

(** Lines with their newlines, and the same lines joined by newlines. *)
Lemma Join_snoc (init : list gostring) (l sep : gostring) :
  strings_Join (init ++ [l]) sep = concat ((λ t, t ++ sep) <$> init) ++ l.
Proof.
  induction init as [|t init IH]; [done|].
  cbn [app fmap list_fmap concat]. rewrite Join_cons by (by destruct init).
  rewrite IH. by rewrite <- !app_assoc.
Qed.

Lemma lines_last (ls : list gostring) :
  ls ≠ [] → last (concat ((λ t, t ++ [LF]) <$> ls)) = Some LF.
Proof.
  induction ls as [|t ls IH] using rev_ind; [done|]. intros _.
  rewrite fmap_app, concat_app. cbn [fmap list_fmap concat].
  rewrite app_nil_r, !app_assoc. apply last_snoc.
Qed.

Lemma Split_last_view data :
  ∃ init l, strings_Split data LF = init ++ [l] ∧ (LF ∉ l) ∧
            data = concat ((λ t, t ++ [LF]) <$> init) ++ l.
Proof.
  destruct (exists_last (Split_nonempty data LF)) as (xs & x & Hs).
  exists xs, x. split; [done|].
  pose proof (Split_pieces_free data LF) as Hfree. rewrite Hs in Hfree.
  apply Forall_app in Hfree as [_ Hx]. apply Forall_inv in Hx.
  split; [done|]. rewrite <- Join_snoc, <- Hs. symmetry. apply Join_Split.
Qed.

Lemma scan_lines_clean data :
  Forall (λ l, (length l < MaxScanTokenSize)%nat) (strings_Split data LF) →
  ∃ tokens, scan_lines data = Ok (dropCR <$> tokens) ∧
    (strings_Split data LF = tokens ++ [[]] ∧ data = concat ((λ t, t ++ [LF]) <$> tokens) ∨
     strings_Split data LF = tokens ∧ data ++ [LF] = concat ((λ t, t ++ [LF]) <$> tokens) ∧
       data ≠ [] ∧ last data ≠ Some LF).
Proof.
  intros Hshort. unfold scan_lines.
  destruct (Split_last_view data) as (init & l & Hs & Hl & Hdata).
  rewrite Hs in Hshort |- *. rewrite last_snoc.
  assert (Hforall : ∀ ts : list gostring,
            Forall (λ l, (length l < MaxScanTokenSize)%nat) ts →
            forallb (λ t, (length t <? MaxScanTokenSize)%nat) ts = true).
  { intros ts Hts. apply forallb_forall. intros t Ht%list_elem_of_In.
    rewrite Forall_forall in Hts. apply Nat.ltb_lt. by apply Hts. }
  case_bool_decide as Hempty.
  - injection Hempty as ->. rewrite removelast_last.
    apply Forall_app in Hshort as [Hinit _]. rewrite (Hforall _ Hinit).
    exists init. split; [done|]. left. split; [done|]. by rewrite app_nil_r in Hdata.
  - rewrite (Hforall _ Hshort). exists (init ++ [l]). split; [done|]. right.
    split; [done|]. split; [|split].
    + rewrite fmap_app, concat_app. cbn [fmap list_fmap concat].
      rewrite app_nil_r, app_assoc. by rewrite <- Hdata.
    + intros ->. symmetry in Hdata. apply app_eq_nil in Hdata as [_ ->]. done.
    + assert (l ≠ []) by (intros ->; done).
      rewrite Hdata. destruct l as [|c l] using rev_ind; [done|].
      rewrite app_assoc, last_snoc. intros [= ->]. apply Hl.
      rewrite elem_of_app. right. by left.
Qed.

Lemma scan_lines_too_long data :
  ¬ Forall (λ l, (length l < MaxScanTokenSize)%nat) (strings_Split data LF) →
  scan_lines data = Err ErrTooLong.
Proof.
  intros Hlong. unfold scan_lines.
  destruct (Split_last_view data) as (init & l & Hs & Hl & Hdata).
  rewrite Hs in Hlong |- *. rewrite last_snoc.
  assert (Hforall : ∀ ts : list gostring,
            forallb (λ t, (length t <? MaxScanTokenSize)%nat) ts = true →
            Forall (λ l, (length l < MaxScanTokenSize)%nat) ts).
  { intros ts Hts. apply Forall_forall. intros t Ht%list_elem_of_In.
    rewrite forallb_forall in Hts. apply Nat.ltb_lt. by apply Hts. }
  case_bool_decide as Hempty.
  - injection Hempty as ->. rewrite removelast_last.
    match goal with |- context [forallb ?f ?ts] => destruct (forallb f ts) eqn:Hf end;
      [|done].
    exfalso. apply Hlong. apply Forall_app. split; [by apply Hforall|].
    constructor; [|constructor]. unfold MaxScanTokenSize. cbn [length]. lia.
  - match goal with |- context [forallb ?f ?ts] => destruct (forallb f ts) eqn:Hf end;
      [|done].
    exfalso. apply Hlong. by apply Hforall.
Qed.

(** The sanitizer changes a string byte by byte: every byte is kept or
    replaced by the marker [#], and a byte below [0x80] is always kept, so
    the newlines, colons and semicolons of a history stay where they
    are. *)
Theorem sanitizer_bytewise (s : gostring) :
  Forall2 (λ c d, d = c ∨ (d = HASH ∧ 0x80 ≤ b2z c)) s (invalidUTF8 s).
Proof. apply Sanitized_bytewise, invalidUTF8_Sanitized. Qed.

(** The loader returns a content exactly when the reads reach the end of
    the file and no line has 64 KiB or more.  A line of 64 KiB or more
    gives the error of the scanner, however the reads end; without such a
    line a failing read gives its own error; and the content of a file
    read to its end is a valid text in which every line ends with a
    newline. *)
Theorem readFileContent_outcome (data : list ascii) (errno : Z) :
  (Forall (λ l, (length l < MaxScanTokenSize)%nat) (strings_Split data LF) →
   (∃ content, readFileContent (Readable data) = Ok content ∧ valid_text content ∧
               utf8_ValidString content = true ∧
               (content = [] ∨ last content = Some LF)) ∧
   readFileContent (Failing data errno) = Err (ErrRead errno)) ∧
  (¬ Forall (λ l, (length l < MaxScanTokenSize)%nat) (strings_Split data LF) →
   readFileContent (Readable data) = Err ErrTooLong ∧
   readFileContent (Failing data errno) = Err ErrTooLong).
Proof.
  split.
  - intros Hshort. destruct (scan_lines_clean data Hshort) as (tokens & Hscan & _).
    unfold readFileContent. rewrite Hscan. cbn. split; [|done].
    eexists. split; [done|].
    set (text := concat ((λ t, t ++ [LF]) <$> (dropCR <$> tokens))).
    pose proof (invalidUTF8_Sanitized text) as Hsan.
    destruct (Sanitized_valid _ _ Hsan) as [Hvalid Hlen].
    split; [done|]. split; [by apply ValidString_spec|].
    destruct tokens as [|t tokens].
    + left. subst text. cbn in Hlen. by apply nil_length_inv.
    + right. apply (bytewise_last text); [by apply Sanitized_bytewise|].
      subst text. by apply lines_last.
  - intros Hlong. unfold readFileContent. by rewrite (scan_lines_too_long data Hlong).
Qed.

(** A clean file is loaded as it is, with a newline added after a last
    line that has none: the text is valid, no line has 64 KiB or more and
    no line ends with a carriage return. *)
Theorem clean_file_loaded_verbatim (data : list ascii) :
  valid_text data →
  Forall (λ l, (length l < MaxScanTokenSize)%nat) (strings_Split data LF) →
  Forall (λ l, last l ≠ Some CR) (strings_Split data LF) →
  readFileContent (Readable data) =
    Ok (if bool_decide (data = [] ∨ last data = Some LF) then data else data ++ [LF]).
Proof.
  intros Hvalid Hshort Hcr.
  destruct (scan_lines_clean data Hshort) as (tokens & Hscan & Hcases).
  unfold readFileContent. rewrite Hscan. cbn. f_equal.
  assert (Hdrop : dropCR <$> tokens = tokens).
  { assert (Htok : Forall (λ l, last l ≠ Some CR) tokens).
    { destruct Hcases as [[Hs _]|[Hs _]]; rewrite Hs in Hcr; [|done].
      by apply Forall_app in Hcr as [? _]. }
    clear -Htok. induction Htok as [|t ts Ht _ IH]; [done|].
    cbn [fmap list_fmap]. rewrite dropCR_id by done. f_equal. exact IH. }
  rewrite Hdrop.
  destruct Hcases as [[_ Hdata]|(_ & Hdata & Hne & Hlast)].
  - rewrite <- Hdata. rewrite invalidUTF8_text_id by done.
    rewrite bool_decide_true; [done|].
    destruct tokens as [|t tokens]; [by left|right].
    rewrite Hdata. by apply lines_last.
  - rewrite <- Hdata. rewrite bool_decide_false by tauto.
    apply invalidUTF8_text_id. apply valid_text_app; [done|].
    exists [[LF]]. split; [done|]. constructor; [|constructor]. by vm_compute.
Qed.

Lemma clean_file_loaded_verbatim_witness :
  readFileContent (Readable (str ": 1700000000:0;ls" ++ [LF] ++ str ": 1700000001:0;pwd")) =
    Ok (if bool_decide (str ": 1700000000:0;ls" ++ [LF] ++ str ": 1700000001:0;pwd" = []
                        ∨ last (str ": 1700000000:0;ls" ++ [LF] ++ str ": 1700000001:0;pwd")
                          = Some LF)
        then str ": 1700000000:0;ls" ++ [LF] ++ str ": 1700000001:0;pwd"
        else (str ": 1700000000:0;ls" ++ [LF] ++ str ": 1700000001:0;pwd") ++ [LF]).
Proof.
  apply (clean_file_loaded_verbatim
           (str ": 1700000000:0;ls" ++ [LF] ++ str ": 1700000001:0;pwd")).
  - apply ValidString_spec. vm_compute. reflexivity.
  - apply Forall_forall. intros l Hl. apply Nat.ltb_lt. revert l Hl.
    apply Forall_forall. apply (bool_decide_unpack _). vm_compute. reflexivity.
  - apply (bool_decide_unpack _). vm_compute. reflexivity.
Defined.

Lemma dropCR_snoc l : dropCR (l ++ [CR]) = l.
Proof.
  unfold dropCR. rewrite HasSuffix_app, length_app. cbn [length].
  replace (length l + 1 - 1)%nat with (length l) by lia.
  by rewrite take_app_length.
Qed.

(** A file with the line ends of Windows is loaded as the same file with
    plain newlines: the scanner drops the carriage return before each
    newline. *)
Theorem crlf_file_loaded_as_lf (ls : list gostring) :
  Forall (λ l, (LF ∉ l) ∧ (length l + 1 < MaxScanTokenSize)%nat) ls →
  valid_text (concat ((λ l, l ++ [LF]) <$> ls)) →
  readFileContent (Readable (concat ((λ l, l ++ [CR; LF]) <$> ls))) =
    Ok (concat ((λ l, l ++ [LF]) <$> ls)).
Proof.
  intros Hls Hvalid.
  assert (Hdata : concat ((λ l, l ++ [CR; LF]) <$> ls) =
                  concat ((λ l, l ++ [LF]) <$> ((λ l, l ++ [CR]) <$> ls))).
  { rewrite <- list_fmap_compose. f_equal. apply list_fmap_ext. intros i l _. cbn.
    by rewrite <- app_assoc. }
  rewrite Hdata. unfold readFileContent, scan_lines.
  rewrite Split_lines.
  2:{ apply Forall_fmap. eapply Forall_impl; [exact Hls|]. intros l [Hlf _]. cbn.
      rewrite not_elem_of_app, list_elem_of_singleton. split; [done|by intros [=]]. }
  rewrite last_snoc, bool_decide_true by done. rewrite removelast_last.
  match goal with
  | |- context [forallb ?f ?ts] => assert (Hshort : forallb f ts = true)
  end.
  { apply forallb_forall. intros t Ht%list_elem_of_In.
    apply list_elem_of_fmap in Ht as (l & -> & Hl).
    rewrite Forall_forall in Hls. destruct (Hls l Hl) as [_ Hlen].
    apply Nat.ltb_lt. rewrite length_app. cbn [length]. done. }
  rewrite Hshort. cbn.
  assert (Hdrop : dropCR <$> ((λ l, l ++ [CR]) <$> ls) = ls).
  { rewrite <- list_fmap_compose. rewrite <- (list_fmap_id ls) at 2.
    apply list_fmap_ext. intros i l _. cbn. apply dropCR_snoc. }
  rewrite Hdrop. by rewrite invalidUTF8_text_id.
Qed.

Lemma crlf_file_loaded_as_lf_witness :
  readFileContent
    (Readable
       (concat ((λ l, l ++ [CR; LF]) <$> [str ": 1700000000:0;ls"; str ": 1700000001:0;pwd"]))) =
    Ok (concat ((λ l, l ++ [LF]) <$> [str ": 1700000000:0;ls"; str ": 1700000001:0;pwd"])).
Proof.
  apply (crlf_file_loaded_as_lf [str ": 1700000000:0;ls"; str ": 1700000001:0;pwd"]).
  - repeat (apply Forall_cons_2 || apply Forall_nil_2);
      (split; [apply (bool_decide_unpack _); vm_compute; reflexivity
              |apply Nat.ltb_lt; vm_compute; reflexivity]).
  - apply ValidString_spec. vm_compute. reflexivity.
Defined.

(** * The parser and the lines of the emitter *)

#[local] Ltac case_if H :=
  match type of H with
  | context [if ?b then _ else _] => destruct b eqn:?
  end.

Lemma parseUint_loop_range maxVal n s v :
  0 ≤ n ≤ maxVal → parseUint_loop maxVal n s = Ok v → 0 ≤ v ≤ maxVal.
Proof.
  revert n. induction s as [|c s IH]; intros n Hn Hp; cbn [parseUint_loop] in Hp.
  { by injection Hp as <-. }
  cbv zeta in Hp. case_if Hp; [|done]. case_if Hp; [done|].
  destruct (_ || _) eqn:Hc in Hp; [done|].
  apply orb_false_iff in Hc as [_ Hgt]. rewrite Z.gtb_ltb in Hgt. apply Z.ltb_ge in Hgt.
  apply (IH _ (conj (proj1 (Z.mod_pos_bound _ (2 ^ 64) eq_refl)) Hgt) Hp).
Qed.

Lemma parseUint_loop_err maxVal n s e :
  parseUint_loop maxVal n s = Err e → e = ErrSyntax ∨ e = ErrRange.
Proof.
  revert n. induction s as [|c s IH]; intros n Hp; cbn [parseUint_loop] in Hp; [done|].
  cbv zeta in Hp. case_if Hp; [|injection Hp as <-; by left].
  case_if Hp; [injection Hp as <-; by right|].
  destruct (_ || _) eqn:Hc in Hp; [injection Hp as <-; by right|].
  by apply (IH _ Hp).
Qed.

(** What [strconv.ParseInt] returns for the sizes 64 and 0: a number of the
    range of [int64], or one of its two errors. *)
Lemma ParseInt_outcome s bitSize :
  (bitSize = 64 ∨ bitSize = 0) →
  match strconv_ParseInt s bitSize with
  | Ok v => - 2 ^ 63 ≤ v ≤ maxInt64
  | Err e => e = ErrSyntax ∨ e = ErrRange
  end.
Proof.
  intros Hbits. unfold strconv_ParseInt. destruct s as [|c s]; [by left|].
  cbv zeta.
  assert (Hmax : 2 ^ (if bitSize =? 0 then intSize else bitSize) - 1 = maxUint64)
    by (by destruct Hbits as [-> | ->]).
  assert (Hcut : 2 ^ ((if bitSize =? 0 then intSize else bitSize) - 1) = 9223372036854775808)
    by (by destruct Hbits as [-> | ->]).
  rewrite Hcut.
  set (digits := if bool_decide (c = "+"%char) || bool_decide (c = "-"%char)
                 then s else c :: s).
  unfold strconv_ParseUint. destruct digits as [|d ds]; [by left|].
  rewrite Hmax.
  destruct (parseUint_loop maxUint64 0 (d :: ds)) as [un|e] eqn:Hp; cbn.
  - apply parseUint_loop_range in Hp; [|unfold maxUint64; lia].
    unfold maxInt64. change (2 ^ 63) with 9223372036854775808.
    destruct (bool_decide (c = "-"%char)); cbn [negb andb].
    + destruct (Z.gtb_spec un 9223372036854775808); [by right|lia].
    + destruct (Z.geb_spec un 9223372036854775808); [by right|lia].
  - by apply parseUint_loop_err in Hp.
Qed.

Lemma trim_left_pad k ds : all_digits ds → trim_left (replicate k SP ++ ds) = ds.
Proof.
  intros Hds. induction k as [|k IH]; [by apply trim_left_digits|].
  cbn [replicate app trim_left]. by replace (is_ascii_space SP) with true by done.
Qed.

Lemma TrimSpace_pad k ds : all_digits ds → strings_TrimSpace (replicate k SP ++ ds) = ds.
Proof.
  intros Hds. pose proof (TrimSpace_digits ds Hds) as HT.
  unfold strings_TrimSpace in *. rewrite trim_left_pad by done.
  by rewrite (trim_left_digits ds Hds) in HT.
Qed.

Lemma pad_free k c : c ≠ SP → c ∉ replicate k SP.
Proof. intros Hc [-> _]%elem_of_replicate. done. Qed.

(** The line of the emitter before its newline. *)
Lemma emit_entry_line tok e :
  emit_entry tok e =
    ((COLON :: (replicate (11 - length (fmt_d (Time e))) SP ++ fmt_d (Time e))
        ++ COLON :: fmt_d (Duration e))
     ++ SEMI :: strings_ReplaceAll (Command e) tok [BSL; LF]) ++ [LF].
Proof.
  unfold emit_entry, fmt_width. cbn [app]. rewrite <- !app_assoc. cbn [app]. done.
Qed.

Lemma decade (n : nat) t :
  0 < t < 10 ^ Z.of_nat n → ∃ j, 0 ≤ j ∧ 10 ^ j ≤ t < 10 ^ (j + 1).
Proof.
  induction n as [|n IH]; intros Ht; [cbn in Ht; lia|].
  destruct (Z_lt_le_dec t (10 ^ Z.of_nat n)) as [Hlt|Hge]; [apply IH; lia|].
  exists (Z.of_nat n). rewrite Nat2Z.inj_succ, <- Z.add_1_r in Ht. lia.
Qed.

Lemma digits_count t :
  0 ≤ t ≤ maxInt64 → length (fmt_d t) = 10%nat → 1000000000 ≤ t < 10000000000.
Proof.
  intros Ht Hlen. unfold fmt_d in Hlen. destruct (Z.ltb_spec t 0); [lia|].
  destruct (Z.eq_dec t 0) as [->|Hne]; [done|].
  destruct (fmt_digits_spec 19 t) as (_ & _ & _ & Hl).
  { change (10 ^ Z.of_nat 20) with 100000000000000000000. unfold maxInt64 in Ht. lia. }
  destruct (decade 20 t) as (j & Hnn & Hlog).
  { change (10 ^ Z.of_nat 20) with 100000000000000000000. unfold maxInt64 in Ht. lia. }
  specialize (Hl j Hlog Hnn). rewrite Hlen in Hl.
  assert (Hj : j = 9) by lia. rewrite Hj in Hlog.
  change (10 ^ 9) with 1000000000 in Hlog.
  change (10 ^ (9 + 1)) with 10000000000 in Hlog. done.
Qed.

(** The parser accepts a line only in the form [:t1:t2;command], where the
    command is all that follows the first semicolon, [t1] is not empty and
    both fields are numbers of the range of [int64] once the white space
    around them is trimmed; and it reports the format of the line exactly
    when the line has no semicolon. *)
Theorem parseHistoryLine_format (line : gostring) :
  (parseHistoryLine line = Err ErrLineFormat ↔ SEMI ∉ line) ∧
  (∀ e, parseHistoryLine line = Ok e →
     ∃ t1 t2,
       line = COLON :: t1 ++ COLON :: t2 ++ SEMI :: Command e ∧
       t1 ≠ [] ∧ (COLON ∉ t1) ∧ (SEMI ∉ t1) ∧ (COLON ∉ t2) ∧ (SEMI ∉ t2) ∧
       strconv_ParseInt (strings_TrimSpace t1) 64 = Ok (Time e) ∧
       strconv_Atoi (strings_TrimSpace t2) = Ok (Duration e) ∧
       - 2 ^ 63 ≤ Time e ≤ maxInt64 ∧ - 2 ^ 63 ≤ Duration e ≤ maxInt64).
Proof.
  unfold parseHistoryLine.
  destruct (SplitN2_cases line SEMI) as [[Hfree ->]|(before & after & -> & Hfree & ->)].
  { split; [done|]. intros e He. done. }
  assert (Hsemi : ¬ (SEMI ∉ before ++ SEMI :: after)).
  { intros H. apply H. rewrite elem_of_app. right. by left. }
  pose proof (Join_Split before COLON) as Hjoin.
  pose proof (Split_pieces_free before COLON) as Hcolon.
  destruct (strings_Split before COLON) as [|t0 [|t1 [|t2 [|t3 ts]]]];
    try (split; [split; [done|tauto]|done]).
  destruct (negb (bool_decide (t0 = [])) || bool_decide (t1 = [])) eqn:Hform.
  { split; [split; [done|tauto]|done]. }
  apply orb_false_iff in Hform as [H0 H1].
  apply negb_false_iff, bool_decide_eq_true in H0 as ->.
  apply bool_decide_eq_false in H1.
  pose proof (ParseInt_outcome (strings_TrimSpace t1) 64 (or_introl eq_refl)) as Ht.
  pose proof (ParseInt_outcome (strings_TrimSpace t2) 0 (or_intror eq_refl)) as Hd.
  unfold strconv_Atoi.
  destruct (strconv_ParseInt (strings_TrimSpace t1) 64) as [timestamp|et] eqn:Hpt; cbn.
  2:{ split; [|done]. split; [|tauto]. intros [= ->]. by destruct Ht. }
  destruct (strconv_ParseInt (strings_TrimSpace t2) 0) as [duration|ed] eqn:Hpd; cbn.
  2:{ split; [|done]. split; [|tauto]. intros [= ->]. by destruct Hd. }
  split; [split; [done|tauto]|]. intros e [= <-]. cbn [Command Time Duration].
  exists t1, t2.
  assert (Hbefore : before = COLON :: t1 ++ COLON :: t2).
  { rewrite <- Hjoin. by rewrite !Join_cons by done. }
  apply Forall_cons in Hcolon as [_ Hcolon].
  apply Forall_cons in Hcolon as [Hc1 Hcolon]. apply Forall_cons in Hcolon as [Hc2 _].
  rewrite Hbefore in Hfree |- *.
  rewrite not_elem_of_cons, not_elem_of_app, not_elem_of_cons in Hfree.
  destruct Hfree as (_ & Hs1 & _ & Hs2).
  split; [cbn [app]; f_equal; rewrite <- app_assoc; cbn [app]; done|].
  done.
Qed.

(** The white space of Unicode around a number is trimmed like that of
    ASCII: here the duration stands between two U+0085. *)
Lemma parse_trims_unicode_space :
  parseHistoryLine (str ": 1700000000:" ++ NEL ++ str "0" ++ NEL ++ str ";ls") =
    Ok {| Command := str "ls"; Time := 1700000000; Duration := 0 |}.
Proof. vm_compute. reflexivity. Qed.

(** The parser reads back every line of the emitter: for an entry whose
    time and duration are not negative, it returns the time, the duration
    and the command as written, however many spaces the width of the
    timestamp verb has put before the digits. *)
Theorem emitted_line_parses (multilineCommand : gostring) (e : HistoryEntry) :
  0 ≤ Time e ≤ maxInt64 →
  0 ≤ Duration e ≤ maxInt64 →
  ∃ line,
    emit_entry multilineCommand e = line ++ [LF] ∧
    parseHistoryLine line =
      Ok {| Command := strings_ReplaceAll (Command e) multilineCommand [BSL; LF];
            Time := Time e; Duration := Duration e |}.
Proof.
  intros Ht Hd. eexists. split; [apply emit_entry_line|].
  destruct (fmt_d_nonneg _ Ht) as (Htd & Htv & Htn).
  destruct (fmt_d_nonneg _ Hd) as (Hdd & Hdv & Hdn).
  remember (fmt_d (Time e)) as dt eqn:Hdt.
  remember (fmt_d (Duration e)) as dd eqn:Hddur.
  remember (11 - length dt)%nat as k eqn:Hk.
  clear Hdt Hddur Hk.
  unfold parseHistoryLine.
  rewrite SplitN2_cut.
  2:{ rewrite not_elem_of_cons, not_elem_of_app, not_elem_of_app, not_elem_of_cons.
      split; [done|]. split; [split; [by apply pad_free|by apply digits_free]|].
      split; [done|by apply digits_free]. }
  change (COLON :: (replicate k SP ++ dt) ++ COLON :: dd)
    with ([] ++ COLON :: (replicate k SP ++ dt) ++ COLON :: dd).
  rewrite Split_app by (by intros ?%elem_of_nil).
  rewrite Split_app.
  2:{ rewrite not_elem_of_app. split; [by apply pad_free|by apply digits_free]. }
  rewrite Split_free by (by apply digits_free).
  rewrite bool_decide_true by done. rewrite bool_decide_false.
  2:{ intros Hnil. apply app_eq_nil in Hnil as [_ Hnil]. done. }
  cbn [negb orb].
  rewrite TrimSpace_pad, TrimSpace_digits by done.
  unfold strconv_Atoi. rewrite !ParseInt_digits by auto.
  rewrite Htv, Hdv.
  destruct (Z.leb_spec (Time e) maxInt64); [|lia]. cbn.
  destruct (Z.leb_spec (Duration e) maxInt64); [|lia]. done.
Qed.

Lemma emitted_line_parses_witness :
  ∃ line,
    emit_entry tok0 {| Command := str "ls"; Time := 12345678901; Duration := 0 |} =
      line ++ [LF] ∧
    parseHistoryLine line =
      Ok {| Command := strings_ReplaceAll
                         (Command {| Command := str "ls"; Time := 12345678901;
                                     Duration := 0 |}) tok0 [BSL; LF];
            Time := Time {| Command := str "ls"; Time := 12345678901; Duration := 0 |};
            Duration := Duration {| Command := str "ls"; Time := 12345678901;
                                    Duration := 0 |} |}.
Proof.
  apply (emitted_line_parses tok0
           {| Command := str "ls"; Time := 12345678901; Duration := 0 |}).
  - cbn [Time]. unfold maxInt64. lia.
  - cbn [Duration]. unfold maxInt64. lia.
Defined.

(** The validator accepts a line of the emitter exactly when the timestamp
    has ten digits: the width 11 of its verb leaves one space before ten
    digits, none before eleven or more, and several before fewer. *)
Theorem emitted_line_valid_iff (multilineCommand : gostring) (e : HistoryEntry) :
  0 ≤ Time e ≤ maxInt64 →
  0 ≤ Duration e ≤ maxInt64 →
  MatchString validLineRegex (emit_entry multilineCommand e) = true ↔
  1000000000 ≤ Time e < 10000000000.
Proof.
  intros Ht Hd.
  destruct (fmt_d_nonneg _ Ht) as (Htd & _ & Htn).
  destruct (fmt_d_nonneg _ Hd) as (Hdd & _ & Hdn).
  rewrite validLineRegex_spec. split.
  - intros (ts & dur & cmd & Hline & Hts & Hnts & _).
    apply digits_count; [done|].
    rewrite emit_entry_line in Hline.
    remember (fmt_d (Time e)) as dt eqn:Hdt.
    remember (fmt_d (Duration e)) as dd eqn:Hddur.
    clear Hdt Hddur.
    destruct (11 - length dt)%nat as [|[|k]] eqn:Hk.
    + cbn [replicate app] in Hline. destruct dt as [|c ds]; [done|].
      cbn [app] in Hline. injection Hline as Hc _.
      apply Forall_inv in Htd. rewrite Hc in Htd. done.
    + clear Hline. destruct (le_lt_dec (length dt) 11); lia.
    + cbn [replicate app] in Hline. destruct ts as [|c ts]; [cbn in Hnts; lia|].
      cbn [app] in Hline. injection Hline as Hc _.
      apply Forall_inv in Hts. rewrite <- Hc in Hts. done.
  - intros Hten. exists (fmt_d (Time e)), (fmt_d (Duration e)),
      (strings_ReplaceAll (Command e) multilineCommand [BSL; LF] ++ [LF]).
    pose proof (fmt_d_ten_digits _ Hten) as Hlen.
    unfold emit_entry. rewrite fmt_width_ten by done.
    remember (fmt_d (Time e)) as dt eqn:Hdt.
    remember (fmt_d (Duration e)) as dd eqn:Hddur.
    clear Hdt Hddur.
    split; [done|]. split; [done|]. split; [lia|]. split; [done|].
    destruct dd; [done|cbn; lia].
Qed.

Lemma emitted_line_valid_iff_witness :
  MatchString validLineRegex
    (emit_entry tok0 {| Command := str "ls"; Time := 12345678901; Duration := 0 |}) = true ↔
  1000000000 ≤ Time {| Command := str "ls"; Time := 12345678901; Duration := 0 |}
    < 10000000000.
Proof.
  apply (emitted_line_valid_iff tok0
           {| Command := str "ls"; Time := 12345678901; Duration := 0 |}).
  - cbn [Time]. unfold maxInt64. lia.
  - cbn [Duration]. unfold maxInt64. lia.
Defined.

(** * The normalizer and the restoring substitution *)

Lemma Join_head (a p : gostring) (ps : list gostring) (sep : gostring) :
  strings_Join ((a ++ p) :: ps) sep = a ++ strings_Join (p :: ps) sep.
Proof. destruct ps; cbn [strings_Join]; by rewrite <- ?app_assoc. Qed.

(** The normalizer cuts the content at the continuations it joins: the
    content is the pieces with a backslash and a newline between them, its
    result the same pieces with the placeholder between them. *)
Lemma rmc_pieces tok lines :
  lines ≠ [] →
  ∃ pieces, pieces ≠ [] ∧
    strings_Join lines [LF] = strings_Join pieces [BSL; LF] ∧
    concat (rmc_writes tok lines) = strings_Join pieces tok.
Proof.
  induction lines as [|line rest IH]; [done|]. intros _.
  destruct rest as [|next rest'].
  { exists [line]. split; [done|]. split; [done|]. cbn. by rewrite app_nil_r. }
  destruct (IH ltac:(done)) as (pieces & Hne & HJ & HC).
  destruct pieces as [|p ps]; [done|].
  cbn [rmc_writes concat] in HC |- *. rewrite HC.
  rewrite (Join_cons line (next :: rest') [LF]) by done. rewrite HJ.
  assert (Hkeep : ∃ pieces, pieces ≠ [] ∧
            line ++ [LF] ++ strings_Join (p :: ps) [BSL; LF] = strings_Join pieces [BSL; LF] ∧
            (line ++ [LF]) ++ strings_Join (p :: ps) tok = strings_Join pieces tok).
  { exists ((line ++ [LF] ++ p) :: ps). split; [done|].
    rewrite !app_assoc, !Join_head. by rewrite <- !app_assoc. }
  unfold rmc_write. destruct (strings_HasSuffix line [BSL]) eqn:Hsuf; [|done].
  destruct (MatchString timestampRegex next); cbn [negb]; [done|].
  apply HasSuffix_spec in Hsuf as (body & ->). rewrite TrimSuffix_app.
  exists (body :: p :: ps). split; [done|].
  rewrite !(Join_cons body (p :: ps)) by done. by rewrite <- !app_assoc.
Qed.

Lemma occurs_Join_piece piece pieces sep :
  piece ∈ pieces → occurs piece (strings_Join pieces sep).
Proof.
  induction pieces as [|x pieces IH]; intros Hin; [by apply elem_of_nil in Hin|].
  destruct pieces as [|y pieces].
  { apply list_elem_of_singleton in Hin as ->. apply occurs_refl. }
  rewrite Join_cons by done. apply elem_of_cons in Hin as [->|Hin].
  - exists [], (sep ++ strings_Join (y :: pieces) sep). done.
  - eapply occurs_trans; [by apply IH|]. rewrite app_assoc. apply occurs_suffix.
Qed.

(** The substitution of the emitter undoes what the normalizer did: on
    every content in which the placeholder of the run does not occur,
    turning the placeholder back into a backslash and a newline after the
    normalizer gives the content again, byte for byte. *)
Theorem restore_undoes_normalizer (now : Z) (content : gostring) :
  ¬ occurs (multilineCommand now) content →
  strings_ReplaceAll (replaceMultilineCommands content (multilineCommand now))
                     (multilineCommand now) [BSL; LF] = content.
Proof.
  intros Hfree. destruct (multilineCommand_shape now) as (Hself & _ & _).
  unfold replaceMultilineCommands.
  destruct (rmc_pieces (multilineCommand now) (strings_Split content LF)
              (Split_nonempty content LF)) as (pieces & _ & HJ & HC).
  rewrite Join_Split in HJ. rewrite HC, ReplaceAll_Join; [done|done|].
  apply Forall_forall. intros piece Hpiece Hocc. apply Hfree.
  eapply occurs_trans; [exact Hocc|]. rewrite HJ. by apply occurs_Join_piece.
Qed.

Lemma restore_undoes_normalizer_witness :
  strings_ReplaceAll
    (replaceMultilineCommands
       (str ": 1700000000:3;echo one \" ++ [LF] ++ str "  two" ++ [LF])
       (multilineCommand now0))
    (multilineCommand now0) [BSL; LF] =
  str ": 1700000000:3;echo one \" ++ [LF] ++ str "  two" ++ [LF].
Proof.
  apply (restore_undoes_normalizer now0
           (str ": 1700000000:3;echo one \" ++ [LF] ++ str "  two" ++ [LF])).
  apply Index_None. vm_compute. reflexivity.
Defined.

Lemma plain_byte_digit c :
  is_digit c = true ∨ c = "-"%char →
  c ≠ BSL ∧ c ≠ COLON ∧ c ≠ SEMI ∧ is_ascii_space c = false.
Proof.
  intros [Hd| ->]; [|done].
  split; [by intros ->|]. split; [by intros ->|]. split; [by intros ->|].
  by apply digit_not_space.
Qed.

(** The placeholder is one plain word, whatever the clock says: it is not
    empty, its first byte occurs nowhere else in it, and it holds no
    backslash, no colon, no semicolon and no white space, so neither a
    newline nor a carriage return. *)
Theorem placeholder_is_one_word (now : Z) :
  multilineCommand now ≠ [] ∧
  self_delimiting (multilineCommand now) ∧
  Forall (λ c, c ≠ BSL ∧ c ≠ COLON ∧ c ≠ SEMI ∧ is_ascii_space c = false)
         (multilineCommand now).
Proof.
  destruct (multilineCommand_shape now) as (Hself & _ & Hne).
  split; [done|]. split; [done|].
  unfold multilineCommand. apply Forall_app. split.
  - repeat (apply Forall_cons_2 || apply Forall_nil_2); done.
  - apply Forall_forall. intros c Hc. by apply plain_byte_digit, (fmt_d_chars now).
Qed.

(** The test of the normalizer looks for the timestamp pattern anywhere in
    the next line.  A line that ends with a backslash and has a next line
    is written with its backslash and a newline exactly when the field
    marker, any white space and ten digits occur somewhere in the next
    line, at its start or not; it is written without its backslash and
    with the placeholder exactly when they occur nowhere in it. *)
Theorem continuation_joined_iff (now : Z) (content : gostring) (i : nat)
    (line next : gostring) :
  let lines := strings_Split content LF in
  let written : option gostring := rmc_writes (multilineCommand now) lines !! i in
  lines !! i = Some line →
  strings_HasSuffix line [BSL] = true →
  lines !! S i = Some next →
  (ts_occurs next ↔ written = Some (line ++ [LF])) ∧
  (¬ ts_occurs next ↔
     written = Some (strings_TrimSuffix line [BSL] ++ multilineCommand now)).
Proof.
  intros lines written Hi Hsuf Hnext. subst written.
  destruct (multilineCommand_shape now) as (_ & Hlf & Hne).
  set (tok := multilineCommand now) in *.
  rewrite (rmc_writes_lookup tok lines i line Hi).
  assert (Hdrop : drop (S i) lines = next :: drop (S (S i)) lines).
  { by apply drop_S. }
  rewrite Hdrop. unfold rmc_write. rewrite Hsuf.
  assert (Hdiff : line ++ [LF] ≠ strings_TrimSuffix line [BSL] ++ tok).
  { intros Heq. apply (f_equal last) in Heq. rewrite last_snoc in Heq.
    destruct tok as [|c tok'] using rev_ind; [done|].
    rewrite app_assoc, last_snoc in Heq. injection Heq as <-.
    apply Hlf. rewrite elem_of_app. right. by left. }
  rewrite <- timestampRegex_spec.
  destruct (MatchString timestampRegex next); cbn [negb].
  - split; [done|]. split; [done|]. intros [= Heq]. done.
  - split; [|done]. split; [done|]. intros [= Heq]. by symmetry in Heq.
Qed.

Lemma continuation_joined_iff_witness :
  (ts_occurs (str "id :1234567890 here") ↔
     rmc_writes (multilineCommand now0)
       (strings_Split (str "echo a \" ++ [LF] ++ str "id :1234567890 here" ++ [LF]) LF)
       !! 0%nat = Some ((str "echo a \" ++ [LF]) : gostring)) ∧
  (¬ ts_occurs (str "id :1234567890 here") ↔
     rmc_writes (multilineCommand now0)
       (strings_Split (str "echo a \" ++ [LF] ++ str "id :1234567890 here" ++ [LF]) LF)
       !! 0%nat =
     Some ((strings_TrimSuffix (str "echo a \") [BSL] ++ multilineCommand now0) : gostring)).
Proof.
  apply (continuation_joined_iff now0
           (str "echo a \" ++ [LF] ++ str "id :1234567890 here" ++ [LF]) 0
           (str "echo a \") (str "id :1234567890 here")).
  - vm_compute. reflexivity.
  - vm_compute. reflexivity.
  - vm_compute. reflexivity.
Defined.

